(** * The RabbitMQ client of the TON Business Suite

    A shallow embedding of [src/messaging/connection.ts]: the connection
    manager [RabbitMQConnection] (channel cache, topology declaration,
    publish / sendToQueue, consume, rpc) and [messageHelpers]
    (publishWithRetry), together with the properties the design document
    states about them.

    Conventions of the embedding.
    - An [async] method is a function of the state it reads and writes; a
      promise that rejects and a [throw] are the same error result.
    - amqplib is the outside world.  Its connection objects are part of the
      state (open or closed, how many channels they created); what the code
      asks of a channel is recorded, in order, as a list of [ChanOp], and a
      request throws once the connection of its channel is closed.
    - [ack] and [nack] are made on the channel that has just delivered the
      message and are taken to go through.
    - A callback (a consumer's handler, the operation given to
      [publishWithRetry]) is a function of some state of its own that
      returns or throws.
    - [JSON.stringify] and [JSON.parse] are the printer and the parser of
      module [Json], over the JSON data model with integer numbers. *)

From Stdlib Require Import ZArith List String Ascii Bool Lia.
From Stdlib Require Import DecimalString DecimalPos DecimalZ.
From stdpp Require Import gmap strings.

Import ListNotations.
Local Open Scope Z_scope.
Local Set Warnings "-register-all".

(* ===================================================================== *)
(** * JSON.stringify and JSON.parse                                        *)
(* ===================================================================== *)

(** The message body on the wire is [Buffer.from(JSON.stringify(message))]
    and is read back with [JSON.parse(msg.content.toString())].  Values are
    the JSON data model; numbers are integers (timestamps in milliseconds,
    priorities, TTLs), so fractions and exponents are outside the model and
    the parser rejects them.  A string is its sequence of bytes; an object
    is the list of its members in enumeration order. *)

Module Json.

Inductive value : Type :=
| Null
| Bool (b : bool)
| Number (n : Z)
| Str (s : string)
| Array (elements : list value)
| Object (members : list (string * value)).

Definition dquote : ascii := "034"%char.
Definition backslash : ascii := "\"%char.

Definition hex_digit (n : N) : ascii :=
  match n with
  | 0 => "0" | 1 => "1" | 2 => "2" | 3 => "3" | 4 => "4" | 5 => "5"
  | 6 => "6" | 7 => "7" | 8 => "8" | 9 => "9" | 10 => "a" | 11 => "b"
  | 12 => "c" | 13 => "d" | 14 => "e" | _ => "f"
  end%N%char.

Definition is_control (c : ascii) : bool := (N_of_ascii c <? 32)%N.

(** QuoteJSONString, one code unit: the two-character escapes, [\u00xx]
    for the other control characters, everything else as it is. *)
Definition escape_char (c : ascii) : string :=
  if Ascii.eqb c dquote then String backslash (String dquote EmptyString)
  else if Ascii.eqb c backslash then "\\"
  else if Ascii.eqb c "008" then "\b"
  else if Ascii.eqb c "012" then "\f"
  else if Ascii.eqb c "010" then "\n"
  else if Ascii.eqb c "013" then "\r"
  else if Ascii.eqb c "009" then "\t"
  else if is_control c then
    "\u00" +:+ String (hex_digit (N_of_ascii c / 16))
                 (String (hex_digit (N_of_ascii c mod 16)) EmptyString)
  else String c EmptyString.

Fixpoint escape (s : string) : string :=
  match s with
  | EmptyString => EmptyString
  | String c s' => escape_char c +:+ escape s'
  end.

Definition quote (s : string) : string :=
  String dquote (escape s +:+ String dquote EmptyString).

Fixpoint join (l : list string) : string :=
  match l with
  | [] => EmptyString
  | x :: l' =>
      match l' with
      | [] => x
      | _ :: _ => x +:+ "," +:+ join l'
      end
  end.

Definition number_to_string (n : Z) : string :=
  NilZero.string_of_int (Z.to_int n).

(** [JSON.stringify(v)] without indentation. *)
Fixpoint stringify (v : value) : string :=
  match v with
  | Null => "null"
  | Bool b => if b then "true" else "false"
  | Number n => number_to_string n
  | Str s => quote s
  | Array l => "[" +:+ join (map stringify l) +:+ "]"
  | Object l =>
      "{" +:+ join (map (fun kv => match kv with
                                   | (k, x) => quote k +:+ ":" +:+ stringify x
                                   end) l) +:+ "}"
  end.

(** ** The parser *)

Definition is_ws (c : ascii) : bool :=
  Ascii.eqb c " " || Ascii.eqb c "009" || Ascii.eqb c "010"
  || Ascii.eqb c "013".

Fixpoint skip_ws (s : string) : string :=
  match s with
  | String c s' => if is_ws c then skip_ws s' else s
  | EmptyString => EmptyString
  end.

Fixpoint strip_prefix (p s : string) : option string :=
  match p with
  | EmptyString => Some s
  | String a p' =>
      match s with
      | String b s' => if Ascii.eqb a b then strip_prefix p' s' else None
      | EmptyString => None
      end
  end.

Definition literal (p : string) (v : value) (s : string)
  : option (value * string) :=
  match strip_prefix p s with
  | Some r => Some (v, r)
  | None => None
  end.

Definition hex_value (c : ascii) : option N :=
  let n := N_of_ascii c in
  if (48 <=? n)%N && (n <=? 57)%N then Some (n - 48)%N
  else if (97 <=? n)%N && (n <=? 102)%N then Some (n - 87)%N
  else if (65 <=? n)%N && (n <=? 70)%N then Some (n - 55)%N
  else None.

(** The code unit of [\uh1h2h3h4]; the model has the code units below 128
    only (one byte each). *)
Definition unicode_escape (h1 h2 h3 h4 : ascii) : option ascii :=
  match hex_value h1, hex_value h2, hex_value h3, hex_value h4 with
  | Some a, Some b, Some c, Some d =>
      let n := (((a * 16 + b) * 16 + c) * 16 + d)%N in
      if (n <? 128)%N then Some (ascii_of_N n) else None
  | _, _, _, _ => None
  end.

Definition simple_escape (e : ascii) : option ascii :=
  if Ascii.eqb e dquote then Some dquote
  else if Ascii.eqb e backslash then Some backslash
  else if Ascii.eqb e "/" then Some "/"%char
  else if Ascii.eqb e "b" then Some "008"%char
  else if Ascii.eqb e "f" then Some "012"%char
  else if Ascii.eqb e "n" then Some "010"%char
  else if Ascii.eqb e "r" then Some "013"%char
  else if Ascii.eqb e "t" then Some "009"%char
  else None.

Definition prepend (c : ascii) (r : option (string * string))
  : option (string * string) :=
  match r with
  | Some (str, rest) => Some (String c str, rest)
  | None => None
  end.

(** The characters of a string literal after its opening quote, up to
    and including the closing quote. *)
Fixpoint parse_chars (s : string) : option (string * string) :=
  match s with
  | EmptyString => None
  | String c s' =>
      if Ascii.eqb c dquote then Some (EmptyString, s')
      else if Ascii.eqb c backslash then
        match s' with
        | EmptyString => None
        | String e s'' =>
            if Ascii.eqb e "u" then
              match s'' with
              | String h1 (String h2 (String h3 (String h4 r))) =>
                  match unicode_escape h1 h2 h3 h4 with
                  | Some c' => prepend c' (parse_chars r)
                  | None => None
                  end
              | _ => None
              end
            else
              match simple_escape e with
              | Some c' => prepend c' (parse_chars s'')
              | None => None
              end
        end
      else if is_control c then None
      else prepend c (parse_chars s')
  end.

Definition parse_string (s : string) : option (string * string) :=
  match s with
  | String c r => if Ascii.eqb c dquote then parse_chars r else None
  | EmptyString => None
  end.

Definition is_digit (c : ascii) : bool :=
  let n := N_of_ascii c in (48 <=? n)%N && (n <=? 57)%N.

Fixpoint span_digits (s : string) : string * string :=
  match s with
  | String c s' =>
      if is_digit c
      then let '(ds, r) := span_digits s' in (String c ds, r)
      else (EmptyString, s)
  | EmptyString => (EmptyString, EmptyString)
  end.

(** [0] followed by further digits is not a JSON number. *)
Definition leading_zero (ds : string) : bool :=
  match ds with
  | String c (String _ _) => Ascii.eqb c "0"
  | _ => false
  end.

(** An optional minus sign and a run of digits. *)
Definition parse_number (s : string) : option (value * string) :=
  let '(sign, body) :=
    match s with
    | String c s' =>
        if Ascii.eqb c "-" then (String c EmptyString, s')
        else (EmptyString, s)
    | EmptyString => (EmptyString, s)
    end in
  let '(ds, r) := span_digits body in
  if leading_zero ds then None
  else
    match NilZero.int_of_string (sign +:+ ds) with
    | Some d => Some (Number (Z.of_int d), r)
    | None => None
    end.

(** [obj[k] = v] on the member list: an existing key keeps its place and
    takes the new value, a new key goes last. *)
Fixpoint obj_set (k : string) (v : value) (l : list (string * value))
  : list (string * value) :=
  match l with
  | [] => [(k, v)]
  | (k', v') :: l' =>
      if String.eqb k' k then (k', v) :: l'
      else (k', v') :: obj_set k v l'
  end.

Definition from_entries (raw : list (string * value))
  : list (string * value) :=
  fold_left (fun acc kv => obj_set (fst kv) (snd kv) acc) raw [].

(** Recursive descent; [fuel] bounds the nesting of calls. *)
Fixpoint parse_value (fuel : nat) (s : string) : option (value * string) :=
  match fuel with
  | O => None
  | S fuel' =>
      match skip_ws s with
      | EmptyString => None
      | String c r =>
          if Ascii.eqb c "n" then literal "ull" Null r
          else if Ascii.eqb c "t" then literal "rue" (Bool true) r
          else if Ascii.eqb c "f" then literal "alse" (Bool false) r
          else if Ascii.eqb c dquote then
            match parse_chars r with
            | Some (str, r') => Some (Str str, r')
            | None => None
            end
          else if Ascii.eqb c "[" then
            match strip_prefix "]" (skip_ws r) with
            | Some r' => Some (Array [], r')
            | None =>
                match parse_elements fuel' r with
                | Some (l, r') => Some (Array l, r')
                | None => None
                end
            end
          else if Ascii.eqb c "{" then
            match strip_prefix "}" (skip_ws r) with
            | Some r' => Some (Object [], r')
            | None =>
                match parse_members fuel' r with
                | Some (l, r') => Some (Object (from_entries l), r')
                | None => None
                end
            end
          else parse_number (String c r)
      end
  end

with parse_elements (fuel : nat) (s : string)
  : option (list value * string) :=
  match fuel with
  | O => None
  | S fuel' =>
      match parse_value fuel' s with
      | None => None
      | Some (v, r) =>
          match skip_ws r with
          | EmptyString => None
          | String c r' =>
              if Ascii.eqb c "]" then Some ([v], r')
              else if Ascii.eqb c "," then
                match parse_elements fuel' r' with
                | Some (l, r'') => Some (v :: l, r'')
                | None => None
                end
              else None
          end
      end
  end

with parse_members (fuel : nat) (s : string)
  : option (list (string * value) * string) :=
  match fuel with
  | O => None
  | S fuel' =>
      match parse_string (skip_ws s) with
      | None => None
      | Some (k, r) =>
          match strip_prefix ":" (skip_ws r) with
          | None => None
          | Some r1 =>
              match parse_value fuel' r1 with
              | None => None
              | Some (v, r2) =>
                  match skip_ws r2 with
                  | EmptyString => None
                  | String c r3 =>
                      if Ascii.eqb c "}" then Some ([(k, v)], r3)
                      else if Ascii.eqb c "," then
                        match parse_members fuel' r3 with
                        | Some (l, r4) => Some ((k, v) :: l, r4)
                        | None => None
                        end
                      else None
                  end
              end
          end
      end
  end.

(** [JSON.parse(s)]: one value, then nothing but white space.  [None] is
    the [SyntaxError]. *)
Definition parse (s : string) : option value :=
  match parse_value (S (String.length s)) s with
  | Some (v, r) =>
      match skip_ws r with
      | EmptyString => Some v
      | String _ _ => None
      end
  | None => None
  end.

(** A value that a JavaScript object graph can hold: no object lists a
    key twice. *)
Fixpoint distinct (l : list string) : bool :=
  match l with
  | [] => true
  | k :: l' => negb (existsb (String.eqb k) l') && distinct l'
  end.

Fixpoint well_formed (v : value) : bool :=
  match v with
  | Array l => forallb well_formed l
  | Object l =>
      distinct (map fst l)
      && forallb (fun kv => match kv with (_, x) => well_formed x end) l
  | _ => true
  end.

(** The first character of a printed number, and of any printed value. *)
Definition number_start (c : ascii) : bool :=
  is_digit c || Ascii.eqb c "-".

Definition value_start (c : ascii) : bool :=
  number_start c || Ascii.eqb c "n" || Ascii.eqb c "t" || Ascii.eqb c "f"
  || Ascii.eqb c dquote || Ascii.eqb c "[" || Ascii.eqb c "{".

(** What may follow a printed value: anything but a digit. *)
Definition delimited (s : string) : bool :=
  match s with
  | EmptyString => true
  | String c _ => negb (is_digit c)
  end.

(** A bound on the nesting of parser calls that a value needs. *)
Fixpoint weight (v : value) : nat :=
  match v with
  | Array l => S (List.length l + list_sum (map weight l))
  | Object l =>
      S (List.length l
         + list_sum (map (fun kv => match kv with
                                    | (_, x) => weight x
                                    end) l))
  | _ => 1
  end.

(** The parser reads [v] back from its text, whatever follows it. *)
Definition reads_back (v : value) : Prop :=
  forall (fuel : nat) (rest : string),
    (weight v <= fuel)%nat ->
    delimited rest = true ->
    parse_value fuel (stringify v +:+ rest) = Some (v, rest).

Definition member_to_string (kv : string * value) : string :=
  match kv with
  | (k, x) => quote k +:+ ":" +:+ stringify x
  end.

(** Property read [obj[k]]; [None] is [undefined]. *)
Fixpoint assoc (k : string) (l : list (string * value)) : option value :=
  match l with
  | [] => None
  | (k', v) :: l' => if String.eqb k' k then Some v else assoc k l'
  end.

Definition get (k : string) (v : value) : option value :=
  match v with
  | Object l => assoc k l
  | _ => None
  end.

End Json.

(* ===================================================================== *)
(** * QueueMessage                                                         *)
(* ===================================================================== *)

Module Message.
Import Json.

(** [metadata?: { correlationId?, replyTo?, priority?, ttl? }]: a field
    that is absent or [undefined] is [None]; [JSON.stringify] leaves both
    out. *)
Record Metadata : Type := {
  correlationId : option string;
  replyTo : option string;
  priority : option Z;
  ttl : option Z
}.

Record QueueMessage : Type := {
  id : string;
  type : string;
  timestamp : Z;
  data : value;
  metadata : option Metadata
}.

Definition optional {A : Type} (k : string) (f : A -> value) (o : option A)
  : list (string * value) :=
  match o with
  | Some x => [(k, f x)]
  | None => []
  end.

Definition metadata_object (m : Metadata) : value :=
  Object (optional "correlationId" Str (correlationId m)
          ++ optional "replyTo" Str (replyTo m)
          ++ optional "priority" Number (priority m)
          ++ optional "ttl" Number (ttl m)).

(** The message as the JavaScript object that [JSON.stringify] walks. *)
Definition to_object (m : QueueMessage) : value :=
  Object ([("id", Str (id m)); ("type", Str (type m));
           ("timestamp", Number (timestamp m)); ("data", data m)]
          ++ optional "metadata" metadata_object (metadata m)).

(** [Buffer.from(JSON.stringify(message))] in [publish] and
    [sendToQueue]. *)
Definition serialize (m : QueueMessage) : string := stringify (to_object m).

Definition string_field (k : string) (v : value) : option (option string) :=
  match get k v with
  | None => Some None
  | Some (Str s) => Some (Some s)
  | Some _ => None
  end.

Definition number_field (k : string) (v : value) : option (option Z) :=
  match get k v with
  | None => Some None
  | Some (Number n) => Some (Some n)
  | Some _ => None
  end.

Definition read_metadata (v : value) : option Metadata :=
  match string_field "correlationId" v, string_field "replyTo" v,
        number_field "priority" v, number_field "ttl" v with
  | Some c, Some r, Some p, Some t =>
      Some {| correlationId := c; replyTo := r; priority := p; ttl := t |}
  | _, _, _, _ => None
  end.

(** The fields of [const message: QueueMessage = content], read off the
    parsed object; [None] when a field has another type than the
    interface declares. *)
Definition of_object (v : value) : option QueueMessage :=
  match get "id" v, get "type" v, get "timestamp" v, get "data" v with
  | Some (Str i), Some (Str t), Some (Number ts), Some d =>
      match get "metadata" v with
      | None =>
          Some {| id := i; type := t; timestamp := ts; data := d;
                  metadata := None |}
      | Some mv =>
          match read_metadata mv with
          | Some md =>
              Some {| id := i; type := t; timestamp := ts; data := d;
                      metadata := Some md |}
          | None => None
          end
      end
  | _, _, _, _ => None
  end.

(** [JSON.parse(msg.content.toString())] in [consume], then the typed
    view. *)
Definition deserialize (content : string) : option QueueMessage :=
  match parse content with
  | Some v => of_object v
  | None => None
  end.

End Message.

(* ===================================================================== *)
(** * What the client asks of amqplib                                      *)
(* ===================================================================== *)

Module Amqp.
Import Json.

(** A channel handle: the connection object that created it, and the
    number of the [createChannel] call on that connection. *)
Record Channel : Type := { chan_conn : nat; chan_id : nat }.

(** A delivered message: [msg.content], [msg.properties.correlationId]
    and the delivery tag. *)
Record Delivery : Type := {
  content : string;
  correlationId : option string;
  deliveryTag : nat
}.

Inductive ChanOp : Type :=
| Prefetch (count : Z)
| AssertExchange (name kind : string) (options : value)
| AssertQueue (name : string) (options : value)
| BindQueue (queue exchange pattern : string)
| Publish (exchange routingKey content : string)
          (options : gmap string value)
| SendToQueue (queue content : string) (options : gmap string value)
| Consume (queue : string) (options : option (gmap string value))
| Ack (msg : Delivery)
| Nack (msg : Delivery) (allUpTo requeue : bool).

(** One request, on the channel it was made on. *)
Definition Wire : Type := Channel * ChanOp.

Inductive Error : Type :=
| JsError (message : string)           (* [new Error(message)] *)
| SyntaxError                          (* thrown by [JSON.parse] *)
| TypeError                            (* a property read on [null] *)
| IllegalOperationError                (* amqplib: channel or connection closed *)
| ConnectFailed.                       (* [amqplib.connect] rejected *)

End Amqp.

(* ===================================================================== *)
(** * class RabbitMQConnection                                             *)
(* ===================================================================== *)

Module RabbitMQ.
Import Json Amqp.

Definition QUEUES : list string :=
  [ "payment.processing"; "payment.confirmed"; "payment.failed";
    "loyalty.points.earned"; "loyalty.points.redeemed";
    "tip.processing"; "tip.settled"; "webhook.notification";
    "compliance.check"; "analytics.event"; "notification.email";
    "notification.sms" ].

(** The [exchanges] array of [initializeExchanges]: name and type. *)
Definition EXCHANGES : list (string * string) :=
  [ ("payment.events", "topic"); ("loyalty.events", "topic");
    ("tip.events", "topic"); ("system.events", "fanout");
    ("compliance.events", "direct") ].

(** An amqplib connection object: whether it is still open, and how many
    channels it has created. *)
Record Connection : Type := {
  open : bool;
  created : nat
}.

(** The private fields of the class, and with them the connection objects
    that [amqplib.connect] has made so far: [connection] refers to one of
    them by its position, and so does every channel. *)
Record Pool : Type := {
  connection : option nat;               (* [null] is [None] *)
  channels : gmap string Channel;
  connected : bool;
  connections : list Connection
}.

Definition initial : Pool :=
  {| connection := None; channels := ∅; connected := false;
     connections := [] |}.

Inductive Result (A : Type) : Type :=
| Ok (a : A)
| Thrown (e : Error).
Arguments Ok {A} a.
Arguments Thrown {A} e.

(** An [async] method: from the fields before the call to its result,
    the fields after it and the requests it sent.  A [throw] keeps the
    assignments and the requests made before it. *)
Definition M (A : Type) : Type := Pool -> Result A * Pool * list Wire.

Definition ret {A : Type} (a : A) : M A := fun p => (Ok a, p, []).

Definition throw {A : Type} (e : Error) : M A := fun p => (Thrown e, p, []).

Definition bind {A B : Type} (m : M A) (f : A -> M B) : M B :=
  fun p =>
    match m p with
    | (Ok a, p1, w1) =>
        match f a p1 with
        | (r, p2, w2) => (r, p2, w1 ++ w2)
        end
    | (Thrown e, p1, w1) => (Thrown e, p1, w1)
    end.

(** [try { m } catch (error) { h error }] *)
Definition try_catch {A : Type} (m : M A) (h : Error -> M A) : M A :=
  fun p =>
    match m p with
    | (Ok a, p1, w1) => (Ok a, p1, w1)
    | (Thrown e, p1, w1) =>
        match h e p1 with
        | (r, p2, w2) => (r, p2, w1 ++ w2)
        end
    end.

Notation "x <- m ;; k" := (bind m (fun x => k))
  (at level 100, m at next level, right associativity).
Notation "m ;;; k" := (bind m (fun _ => k))
  (at level 100, right associativity).

Definition result_of {A : Type} (r : Result A * Pool * list Wire)
  : Result A := fst (fst r).
Definition pool_of {A : Type} (r : Result A * Pool * list Wire)
  : Pool := snd (fst r).
Definition sent {A : Type} (r : Result A * Pool * list Wire)
  : list Wire := snd r.

(** Whether connection object [i] exists and is open. *)
Definition is_open (i : nat) (p : Pool) : bool :=
  match connections p !! i with
  | Some c => open c
  | None => false
  end.

(** A channel works as long as the connection that created it is open. *)
Definition live (channel : Channel) (p : Pool) : bool :=
  is_open (chan_conn channel) p.

(** A request on a channel: amqplib sends it, and throws
    [IllegalOperationError] once the channel is closed. *)
Definition request (channel : Channel) (op : ChanOp) : M unit :=
  fun p =>
    if live channel p then (Ok tt, p, [(channel, op)])
    else (Thrown IllegalOperationError, p, []).

(** [createChannel()] on connection object [i] *)
Definition createChannel (i : nat) : M Channel :=
  fun p =>
    match connections p !! i with
    | Some c =>
        if open c then
          (Ok {| chan_conn := i; chan_id := created c |},
           {| connection := connection p; channels := channels p;
              connected := connected p;
              connections :=
                <[i := {| open := true; created := S (created c) |}]>
                  (connections p) |},
           [])
        else (Thrown IllegalOperationError, p, [])
    | None => (Thrown IllegalOperationError, p, [])
    end.

Definition set_channel (name : string) (channel : Channel) : M unit :=
  fun p =>
    (Ok tt,
     {| connection := connection p;
        channels := <[name := channel]> (channels p);
        connected := connected p;
        connections := connections p |},
     []).

Definition getChannel (name : string) : M Channel :=
  fun p =>
    match channels p !! name with
    | Some channel => ret channel p
    | None =>
        match connection p with
        | None => throw (JsError "RabbitMQ not connected") p
        | Some i =>
            (channel <- createChannel i ;;
             request channel (Prefetch 10) ;;;
             set_channel name channel ;;;
             ret channel) p
        end
    end.

Definition exchange_options : value :=
  Object [("durable", Bool true);
          ("arguments", Object [("x-message-ttl", Number 86400000)])].

Definition queue_options : value :=
  Object [("durable", Bool true);
          ("arguments",
           Object [("x-dead-letter-exchange", Str "dead-letter");
                   ("x-message-ttl", Number 86400000);
                   ("x-max-priority", Number 10)])].

Definition durable_only : value := Object [("durable", Bool true)].

(** [for (const x of l) { await f x }] *)
Fixpoint for_each {A : Type} (f : A -> M unit) (l : list A) : M unit :=
  match l with
  | [] => ret tt
  | x :: l' => f x ;;; for_each f l'
  end.

Definition initializeExchanges : M unit :=
  channel <- getChannel "init" ;;
  for_each (fun exchange =>
              request channel
                (AssertExchange (fst exchange) (snd exchange)
                   exchange_options))
           EXCHANGES.

Definition initializeQueues : M unit :=
  channel <- getChannel "init" ;;
  for_each (fun queueName =>
              request channel (AssertQueue queueName queue_options))
           QUEUES ;;;
  request channel (AssertExchange "dead-letter" "fanout" durable_only) ;;;
  request channel (AssertQueue "dead-letter-queue" durable_only) ;;;
  request channel (BindQueue "dead-letter-queue" "dead-letter" EmptyString).

(** The declarations among the requests sent: everything but the
    [prefetch] of a new channel, without the channel. *)
Definition declarations (ws : list Wire) : list ChanOp :=
  List.filter (fun op => match op with
                         | Prefetch _ => false
                         | _ => true
                         end)
              (map snd ws).

(** What the two loops and the tail of [initializeQueues] declare. *)
Definition declared_exchanges : list ChanOp :=
  map (fun e => AssertExchange (fst e) (snd e) exchange_options) EXCHANGES.

Definition declared_queues : list ChanOp :=
  map (fun q => AssertQueue q queue_options) QUEUES.

Definition dead_letter_path : list ChanOp :=
  [ AssertExchange "dead-letter" "fanout" durable_only;
    AssertQueue "dead-letter-queue" durable_only;
    BindQueue "dead-letter-queue" "dead-letter" EmptyString ].

(** [options.arguments[k]] *)
Definition argument (k : string) (options : value) : option value :=
  match get "arguments" options with
  | Some a => get k a
  | None => None
  end.

(** [connect()]; [dial] tells whether [amqplib.connect(url)] resolves, to
    a new connection object, or rejects. *)
Definition connect (dial : bool) : M unit :=
  fun p =>
    if dial then
      (initializeExchanges ;;; initializeQueues)
        {| connection := Some (List.length (connections p));
           channels := channels p;
           connected := true;
           connections :=
             connections p ++ [{| open := true; created := 0 |}] |}
    else (Thrown ConnectFailed, p, []).

(** The handlers that [connect] installs for the connection's ['error']
    and ['close'] events. *)
Definition on_error (p : Pool) : Pool :=
  {| connection := connection p; channels := channels p;
     connected := false; connections := connections p |}.

Definition on_close (p : Pool) : Pool :=
  {| connection := connection p; channels := channels p;
     connected := false; connections := connections p |}.

Definition close (c : Connection) : Connection :=
  {| open := false; created := created c |}.

(** A connection-level error on connection object [i]: amqplib closes the
    object and emits ['error'], which runs the handler. *)
Definition connection_error (i : nat) (p : Pool) : Pool :=
  on_error
    {| connection := connection p; channels := channels p;
       connected := connected p;
       connections := alter close i (connections p) |}.

Definition isConnected (p : Pool) : bool := connected p.

(** [this.connection] is a connection object that is still open. *)
Definition usable (p : Pool) : bool :=
  match connection p with
  | Some i => is_open i p
  | None => false
  end.

(** [getChannel(name)] would hand out a channel that works: the cached one
    is live, or none is cached and the connection is usable. *)
Definition ready (name : string) (p : Pool) : bool :=
  match channels p !! name with
  | Some channel => live channel p
  | None => usable p
  end.

(** The channel cached under [name], if any, is live. *)
Definition cached_live (name : string) (p : Pool) : bool :=
  match channels p !! name with
  | Some channel => live channel p
  | None => true
  end.

(** ** publish and sendToQueue *)

(** [{ persistent: true, messageId: message.id, timestamp:
    message.timestamp, type: message.type, ...options }]: a key of
    [options] replaces the one written before it. *)
Definition messageOptions (message : Message.QueueMessage)
           (options : option (gmap string value)) : gmap string value :=
  default ∅ options
  ∪ {[ "persistent" := Bool true;
       "messageId" := Str (Message.id message);
       "timestamp" := Number (Message.timestamp message);
       "type" := Str (Message.type message) ]}.

(** [room] is what the channel's write returns when it does not throw:
    [false] when the channel's buffer is full. *)
Definition publish (exchange routingKey : string)
           (message : Message.QueueMessage)
           (options : option (gmap string value)) (room : bool) : M bool :=
  try_catch
    (channel <- getChannel "publisher" ;;
     request channel
       (Publish exchange routingKey (Message.serialize message)
          (messageOptions message options)) ;;;
     ret room)
    (fun _ => ret false).

Definition sendToQueue (queue : string) (message : Message.QueueMessage)
           (options : option (gmap string value)) (room : bool) : M bool :=
  try_catch
    (channel <- getChannel "publisher" ;;
     request channel
       (SendToQueue queue (Message.serialize message)
          (messageOptions message options)) ;;;
     ret room)
    (fun _ => ret false).

(** ** consume *)

Inductive Completion : Type :=
| Completed
| Failed (e : Error).

Section Consume.
(** [handler] runs against some state [H] of its own. *)
Context {H : Type}.
Variable handler : value -> H -> Completion * H.
Variable channel : Channel.

(** The [try] block of the callback: what it sent, and whether it ran
    to its end or threw.  Between [JSON.parse] and the handler the code
    reads [message.id] for the log, which throws on [null]. *)
Definition try_block (msg : Delivery) (h : H)
  : Completion * list Wire * H :=
  match parse (content msg) with
  | None => (Failed SyntaxError, [], h)
  | Some Null => (Failed TypeError, [], h)
  | Some message =>
      match handler message h with
      | (Completed, h') => (Completed, [(channel, Ack msg)], h')
      | (Failed e, h') => (Failed e, [], h')
      end
  end.

(** The callback given to [channel.consume]. *)
Definition on_message (msg : option Delivery) (h : H) : list Wire * H :=
  match msg with
  | None => ([], h)
  | Some m =>
      match try_block m h with
      | (Completed, w, h') => (w, h')
      | (Failed _, w, h') => (w ++ [(channel, Nack m false true)], h')
      end
  end.
End Consume.

Definition consumer_channel (queue : string) : string :=
  "consumer:" +:+ queue.

(** [consume(queue, handler, options)]: the subscription; the deliveries
    then go through [on_message] on the channel returned. *)
Definition consume (queue : string) (options : option (gmap string value))
  : M Channel :=
  channel <- getChannel (consumer_channel queue) ;;
  request channel (Consume queue options) ;;;
  ret channel.

Definition is_settlement (w : Wire) : bool :=
  match snd w with
  | Ack _ | Nack _ _ _ => true
  | _ => false
  end.

Definition settlements (ws : list Wire) : nat :=
  length (filter is_settlement ws).

(** ** rpc *)

Inductive Settlement : Type :=
| Resolve (response : value)
| Reject (e : Error).

Inductive Timer : Type :=
| NotSet
| Armed (ms : Z)
| Fired.

(** One [rpc] call: the promise, the [setTimeout] timer and the
    subscription to the reply queue.  The code has no [clearTimeout] and
    no [channel.cancel]: a timer leaves [Armed] by firing only and a
    subscription stays. *)
Record Call : Type := {
  call_id : string;                    (* [correlationId = request.id] *)
  call_channel : option Channel;
  promise : option Settlement;         (* [None]: pending *)
  timer : Timer;
  subscribed : bool
}.

(** [resolve] and [reject] of a promise: the first call settles it, the
    later ones do nothing. *)
Definition settle (s : Settlement) (c : Call) : Call :=
  match promise c with
  | Some _ => c
  | None =>
      {| call_id := call_id c; call_channel := call_channel c;
         promise := Some s; timer := timer c; subscribed := subscribed c |}
  end.

Definition reply_options (correlationId tempQueue : string)
  : gmap string value :=
  {[ "correlationId" := Str correlationId; "replyTo" := Str tempQueue ]}.

Definition temp_queue_options : value :=
  Object [("exclusive", Bool true); ("autoDelete", Bool true)].

Definition no_ack_false : gmap string value := {[ "noAck" := Bool false ]}.

(** The [try] block of the promise executor, up to [setTimeout];
    [tempQueue] is the name the broker gives the reply queue. *)
Definition rpc_setup (queue : string) (request_ : Message.QueueMessage)
           (tempQueue : string) (room : bool) : M Channel :=
  channel <- getChannel "rpc" ;;
  request channel (AssertQueue EmptyString temp_queue_options) ;;;
  request channel (Consume tempQueue (Some no_ack_false)) ;;;
  sendToQueue queue request_
    (Some (reply_options (Message.id request_) tempQueue)) room ;;;
  ret channel.

(** [rpc(queue, request, timeoutMs)] up to the point where the executor
    returns: the call is pending with its timer armed, or already
    rejected by the [catch]. *)
Definition rpc (queue : string) (request_ : Message.QueueMessage)
           (timeoutMs : Z) (tempQueue : string) (room : bool) (p : Pool)
  : Call * Pool * list Wire :=
  match rpc_setup queue request_ tempQueue room p with
  | (Ok channel, p', w) =>
      ({| call_id := Message.id request_; call_channel := Some channel;
          promise := None; timer := Armed timeoutMs; subscribed := true |},
       p', w)
  | (Thrown e, p', w) =>
      ({| call_id := Message.id request_;
          call_channel := channels p' !! "rpc";
          promise := Some (Reject e); timer := NotSet;
          subscribed :=
            existsb (fun x => match snd x with
                              | Consume _ _ => true
                              | _ => false
                              end) w |},
       p', w)
  end.

Definition matches (c : Call) (msg : Delivery) : bool :=
  match correlationId msg with
  | Some i => String.eqb i (call_id c)
  | None => false
  end.

(** The callback subscribed to the reply queue. *)
Definition on_reply (msg : option Delivery) (c : Call)
  : Call * list ChanOp :=
  match msg with
  | None => (c, [])
  | Some m =>
      if negb (matches c m) then (c, [])
      else
        match parse (content m) with
        | Some response => (settle (Resolve response) c, [Ack m])
        | None => (settle (Reject SyntaxError) c, [])
        end
  end.

(** The callback of [setTimeout]. *)
Definition on_timeout (c : Call) : Call :=
  settle (Reject (JsError "RPC timeout"))
    {| call_id := call_id c; call_channel := call_channel c;
       promise := promise c; timer := Fired; subscribed := subscribed c |}.

Inductive RpcEvent : Type :=
| Delivered (msg : option Delivery)    (* a delivery on the reply queue *)
| Deadline.                            (* [timeoutMs] has elapsed *)

(** The event loop runs a callback only while its source exists: a
    delivery needs the subscription, the deadline an armed timer. *)
Definition step (c : Call) (ev : RpcEvent) : Call * list ChanOp :=
  match ev with
  | Delivered msg => if subscribed c then on_reply msg c else (c, [])
  | Deadline =>
      match timer c with
      | Armed _ => (on_timeout c, [])
      | _ => (c, [])
      end
  end.

(** A delivery that is not the reply to this call: [null], or with
    another correlation id or none. *)
Definition unrelated (c : Call) (ev : RpcEvent) : bool :=
  match ev with
  | Delivered (Some m) => negb (matches c m)
  | Delivered None => true
  | Deadline => false
  end.

Fixpoint run (c : Call) (evs : list RpcEvent) : Call * list ChanOp :=
  match evs with
  | [] => (c, [])
  | ev :: evs' =>
      let '(c1, w1) := step c ev in
      let '(c2, w2) := run c1 evs' in
      (c2, w1 ++ w2)
  end.

End RabbitMQ.

(* ===================================================================== *)
(** * The scenario of the design document                                  *)
(* ===================================================================== *)

Module Scenario.
Import Json Amqp RabbitMQ.

(** [{id: 'p1', type: 'payment.confirmed', timestamp: 1700000000000,
    data: {amount: 10}}] *)
Definition payment_confirmed : Message.QueueMessage :=
  {| Message.id := "p1"; Message.type := "payment.confirmed";
     Message.timestamp := 1700000000000;
     Message.data := Object [("amount", Number 10)];
     Message.metadata := None |}.

(** A request as [rpc] callers build it, with all of [metadata] set and
    a nested payload. *)
Definition settle_tip : Message.QueueMessage :=
  {| Message.id := "t7"; Message.type := "tip.processing";
     Message.timestamp := 1700000000123;
     Message.data :=
       Object [("tip", Object [("amount", Number (-3));
                               ("memo", Str "thanks\fine");
                               ("tags", Array [Str "a"; Null; Bool false])]);
               ("retries", Array [])];
     Message.metadata :=
       Some {| Message.correlationId := Some "t7";
               Message.replyTo := Some "amq.gen-1";
               Message.priority := Some 5;
               Message.ttl := Some 60000 |} |}.

(** The pool after a first [connect()]. *)
Definition connected_pool : Pool :=
  pool_of (connect true initial).

(** [rpc('payment.processing', payment_confirmed, 50)] when the executor
    has returned; the broker named the reply queue [amq.gen-1]. *)
Definition pending_call : Call :=
  fst (fst (rpc "payment.processing" payment_confirmed 50 "amq.gen-1" true
              connected_pool)).

Definition reply : Delivery :=
  {| content := "{" +:+ quote "success" +:+ ":true}";
     correlationId := Some "p1"; deliveryTag := 1 |}.

(** A reply to an earlier call, still on its way. *)
Definition stale_reply : Delivery :=
  {| content := "{" +:+ quote "success" +:+ ":false}";
     correlationId := Some "p0"; deliveryTag := 2 |}.

End Scenario.

(* ===================================================================== *)
(** * messageHelpers.publishWithRetry                                      *)
(* ===================================================================== *)

Module Retry.

(** What awaiting [publishFunction()] gives: the promise resolves to a
    boolean or rejects with an error. *)
Inductive Outcome (E : Type) : Type :=
| Resolved (b : bool)
| Rejected (e : E).
Arguments Resolved {E} b.
Arguments Rejected {E} e.

(** What [publishWithRetry] itself gives. *)
Inductive Result (E : Type) : Type :=
| Return (b : bool)
| Throw (e : E).
Arguments Return {E} b.
Arguments Throw {E} e.

(** Observable steps: a call of [publishFunction], a [setTimeout] wait of
    [ms] milliseconds, a [logger.error] with its [attempt] field. *)
Inductive Event : Type :=
| Invoke
| Sleep (ms : Z)
| LogError (attempt : nat).

Section PublishWithRetry.
Context {W E : Type}.

(** [publishFunction : () => Promise<boolean>] is a closure over some
    state [W] of its own: one call maps the state to an outcome and the
    next state. *)
Variable publishFunction : W -> Outcome E * W.
Variable maxRetries : nat.
Variable delayMs : Z.

(** The body of [for (let i = 0; i < maxRetries; i++)], by recursion on
    [remaining = maxRetries - i], the number of iterations the loop
    condition still allows.  [i < maxRetries - 1] is [S i < maxRetries]
    and [i === maxRetries - 1] is [S i = maxRetries]. *)
Fixpoint loop (remaining i : nat) (w : W) : Result E * W * list Event :=
  match remaining with
  | O => (Return false, w, [])
  | S remaining' =>
      let '(o, w1) := publishFunction w in
      match o with
      | Resolved true => (Return true, w1, [Invoke])
      | Resolved false =>
          let wait :=
            if (S i <? maxRetries)%nat
            then [Sleep (delayMs * 2 ^ Z.of_nat i)] else [] in
          let '(r, w2, evs) := loop remaining' (S i) w1 in
          (r, w2, Invoke :: wait ++ evs)
      | Rejected e =>
          if (S i =? maxRetries)%nat
          then (Throw e, w1, [Invoke; LogError (S i)])
          else
            let '(r, w2, evs) := loop remaining' (S i) w1 in
            (r, w2, Invoke :: LogError (S i) :: evs)
      end
  end.

Definition publishWithRetry (w : W) : Result E * W * list Event :=
  loop maxRetries 0 w.

(** The outcome and the state after the [k+1]-th consecutive call of
    [publishFunction] from state [w]. *)
Fixpoint invocation (k : nat) (w : W) : Outcome E * W :=
  match k with
  | O => publishFunction w
  | S k' => invocation k' (snd (publishFunction w))
  end.

End PublishWithRetry.

Definition result_of {W E} (r : Result E * W * list Event) : Result E :=
  fst (fst r).
Definition events_of {W E} (r : Result E * W * list Event) : list Event :=
  snd r.

Definition is_invoke (e : Event) : bool :=
  match e with Invoke => true | _ => false end.

Definition invocations (evs : list Event) : nat :=
  List.length (List.filter is_invoke evs).

Fixpoint sleeps (evs : list Event) : list Z :=
  match evs with
  | [] => []
  | Sleep ms :: evs' => ms :: sleeps evs'
  | _ :: evs' => sleeps evs'
  end.

(** The operation of the design document's scenario: it answers [false]
    three times, then [true]; its state counts the calls made so far. *)
Definition three_false_then_true (calls : nat) : Outcome unit * nat :=
  (Resolved (3 <=? calls)%nat, S calls).

End Retry.


(* ===================================================================== *)
(** * disconnect                                                           *)
(* ===================================================================== *)

Module Lifecycle.
Import Json Amqp RabbitMQ.

(** [this.connection.close()] on connection object [i]: amqplib closes the
    object, and with it its channels, and emits ['close'], which runs the
    handler that [connect] installed; on an object that is closed already
    it throws. *)
Definition close_connection (i : nat) : M unit :=
  fun p =>
    if is_open i p then
      (Ok tt,
       on_close
         {| connection := connection p; channels := channels p;
            connected := connected p;
            connections := alter close i (connections p) |},
       [])
    else (Thrown IllegalOperationError, p, []).

(** [channel.close()]: it throws on a channel that is closed.  Closing is
    not among the requests that are recorded. *)
Definition close_channel (channel : Channel) : M unit :=
  fun p =>
    if live channel p then (Ok tt, p, [])
    else (Thrown IllegalOperationError, p, []).

(** [this.channels.clear()] *)
Definition clear_channels : M unit :=
  fun p =>
    (Ok tt,
     {| connection := connection p; channels := ∅;
        connected := connected p; connections := connections p |},
     []).

(** [this.connected = b] *)
Definition set_connected (b : bool) : M unit :=
  fun p =>
    (Ok tt,
     {| connection := connection p; channels := channels p;
        connected := b; connections := connections p |},
     []).

(** The channels of the cache.  The loop of [disconnect] visits them in
    the order in which they were cached, which the pool does not record,
    and stops at the first [close] that throws: whether it does, and the
    fields it leaves, do not depend on the order.  (A channel that is
    closed one by one before a later [close] throws stays in the cache; the
    pool cannot tell it from a live one.  This takes channels of two
    connections in the cache.) *)
Definition cached (p : Pool) : list Channel :=
  map snd (map_to_list (channels p)).

Definition disconnect : M unit :=
  try_catch
    ((fun p =>
        match connection p with
        | Some i => close_connection i p
        | None => ret tt p
        end) ;;;
     (fun p => for_each close_channel (cached p) p) ;;;
     clear_channels ;;;
     set_connected false)
    (fun _ => ret tt).

(** The fields when [amqplib.connect] has resolved and [connect] has
    assigned [connection] and [connected]: the declaration starts here. *)
Definition dialled (p : Pool) : Pool :=
  {| connection := Some (List.length (connections p));
     channels := channels p;
     connected := true;
     connections := connections p ++ [{| open := true; created := 0 |}] |}.

(** The pool once connection object [i] has been closed and its ['close']
    handler has run. *)
Definition after_close (i : nat) (p : Pool) : Pool :=
  on_close
    {| connection := connection p; channels := channels p;
       connected := connected p;
       connections := alter close i (connections p) |}.

(** Whether every cached channel is live. *)
Definition all_live (p : Pool) : bool :=
  forallb (fun channel => live channel p) (cached p).

(** What the loop and the two assignments after it leave of [p]. *)
Definition finish (p : Pool) : Pool :=
  if all_live p then
    {| connection := connection p; channels := ∅; connected := false;
       connections := connections p |}
  else p.

End Lifecycle.

(* ===================================================================== *)
(** * The business-specific publishers                                     *)
(* ===================================================================== *)

Module Publishers.
Import Json Amqp RabbitMQ.

(** [{ id: crypto.randomUUID(), type, timestamp: Date.now(), data }]: the
    identifier and the clock reading are given by the caller of the
    model. *)
Definition event (type : string) (data : value) (uuid : string) (now : Z)
  : Message.QueueMessage :=
  {| Message.id := uuid; Message.type := type; Message.timestamp := now;
     Message.data := data; Message.metadata := None |}.

(** [await this.publish(exchange, type, message)], the boolean dropped. *)
Definition publish_event (exchange type : string) (data : value)
           (uuid : string) (now : Z) (room : bool) : M unit :=
  publish exchange type (event type data uuid now) None room ;;; ret tt.

(** [await this.sendToQueue(queue, message)], the boolean dropped. *)
Definition send_event (queue type : string) (data : value)
           (uuid : string) (now : Z) (room : bool) : M unit :=
  sendToQueue queue (event type data uuid now) None room ;;; ret tt.

Definition publishPaymentConfirmed :=
  publish_event "payment.events" "payment.confirmed".

Definition publishLoyaltyPointsEarned :=
  publish_event "loyalty.events" "loyalty.points.earned".

Definition publishTipSettled :=
  publish_event "tip.events" "tip.settled".

Definition sendWebhookNotification :=
  send_event "webhook.notification" "webhook.notification".

Definition sendComplianceCheck :=
  send_event "compliance.check" "compliance.check".

Definition sendNotificationEmail :=
  send_event "notification.email" "notification.email".

Definition sendNotificationSMS :=
  send_event "notification.sms" "notification.sms".

(** Where a publisher writes: an exchange with a routing key, or a
    queue. *)
Inductive Target : Type :=
| ToExchange (exchange routingKey : string)
| ToQueue (queue : string).

(** The write that reaches [target] with [body] and [options]. *)
Definition write (target : Target) (body : string)
           (options : gmap string value) : ChanOp :=
  match target with
  | ToExchange exchange routingKey =>
      Publish exchange routingKey body options
  | ToQueue queue => SendToQueue queue body options
  end.

(** Whether the topology that [connect] declares has the target. *)
Definition declared (target : Target) : bool :=
  match target with
  | ToExchange exchange _ =>
      existsb (fun e => String.eqb (fst e) exchange) EXCHANGES
  | ToQueue queue => existsb (String.eqb queue) QUEUES
  end.

(** The seven publishers, each with the target and the message type that
    its source text names. *)
Definition business_publishers
  : list ((value -> string -> Z -> bool -> M unit) * Target * string) :=
  [ (publishPaymentConfirmed,
     ToExchange "payment.events" "payment.confirmed", "payment.confirmed");
    (publishLoyaltyPointsEarned,
     ToExchange "loyalty.events" "loyalty.points.earned",
     "loyalty.points.earned");
    (publishTipSettled, ToExchange "tip.events" "tip.settled", "tip.settled");
    (sendWebhookNotification, ToQueue "webhook.notification",
     "webhook.notification");
    (sendComplianceCheck, ToQueue "compliance.check", "compliance.check");
    (sendNotificationEmail, ToQueue "notification.email",
     "notification.email");
    (sendNotificationSMS, ToQueue "notification.sms", "notification.sms") ].

Definition is_write (op : ChanOp) : bool :=
  match op with
  | Publish _ _ _ _ | SendToQueue _ _ _ => true
  | _ => false
  end.

(** The messages among the requests sent. *)
Definition writes (ws : list Wire) : list ChanOp :=
  List.filter is_write (map snd ws).

Definition is_binding (op : ChanOp) : bool :=
  match op with
  | BindQueue _ _ _ => true
  | _ => false
  end.

End Publishers.

(* ===================================================================== *)
(** * The pools that the class can reach                                   *)
(* ===================================================================== *)

Module Reach.
Import Json Amqp RabbitMQ.

(** One use of the object, or one event of a connection that exists: the
    pool before and after. *)
Inductive Step : Pool -> Pool -> Prop :=
| step_connect (dial : bool) (p : Pool) :
    Step p (pool_of (connect dial p))
| step_disconnect (p : Pool) :
    Step p (pool_of (Lifecycle.disconnect p))
| step_publish (exchange routingKey : string)
    (message : Message.QueueMessage) (options : option (gmap string value))
    (room : bool) (p : Pool) :
    Step p (pool_of (publish exchange routingKey message options room p))
| step_sendToQueue (queue : string) (message : Message.QueueMessage)
    (options : option (gmap string value)) (room : bool) (p : Pool) :
    Step p (pool_of (sendToQueue queue message options room p))
| step_consume (queue : string) (options : option (gmap string value))
    (p : Pool) :
    Step p (pool_of (consume queue options p))
| step_rpc (queue : string) (request_ : Message.QueueMessage)
    (timeoutMs : Z) (tempQueue : string) (room : bool) (p : Pool) :
    Step p (snd (fst (rpc queue request_ timeoutMs tempQueue room p)))
| step_error (i : nat) (p : Pool) :
    Step p (connection_error i p).

(** Reached from [p] by any number of steps. *)
Definition reaches (p p' : Pool) : Prop := rtc Step p p'.

(** [p'] is [p] after one [getChannel]. *)
Definition Grows (p p' : Pool) : Prop :=
  exists name, p' = pool_of (getChannel name p).

(** A method that changes the pool through [getChannel] only. *)
Definition Stable {A : Type} (m : M A) : Prop :=
  forall p, rtc Grows p (pool_of (m p)).

(** A method all of whose requests satisfy [P]. *)
Definition Sends {A : Type} (P : ChanOp -> Prop) (m : M A) : Prop :=
  forall p x, In x (sent (m p)) -> P (snd x).

(** What every reachable pool satisfies. *)
Record Coherent (p : Pool) : Prop := {
  (** a cached channel was created by a connection object that exists, as
      one of the channels that object has counted *)
  cached_created :
    forall name channel,
      channels p !! name = Some channel ->
      exists c, connections p !! chan_conn channel = Some c
                /\ (chan_id channel < created c)%nat;
  (** no channel is cached under two names *)
  cached_once :
    forall name1 name2 channel,
      channels p !! name1 = Some channel ->
      channels p !! name2 = Some channel ->
      name1 = name2;
  (** [connected] is set only while [this.connection] is open *)
  connected_usable : connected p = true -> usable p = true;
  (** [this.connection] is one of the connection objects *)
  connection_exists :
    forall i, connection p = Some i ->
              (i < List.length (connections p))%nat
}.

End Reach.

(* ===================================================================== *)
(** * publishWithRetry around publish                                      *)
(* ===================================================================== *)

Module RetryPublish.
Import Json Amqp RabbitMQ.

(** What [() => rabbitMQ.publish(...)] runs against: the pool, the answers
    that the channel's writes will give from now on, and the requests sent
    so far. *)
Record World : Type := {
  pool : Pool;
  rooms : list bool;
  wire : list Wire
}.

(** The answer of the next write; [true] once the list is used up. *)
Definition next_room (w : World) : bool :=
  match rooms w with
  | b :: _ => b
  | [] => true
  end.

(** One call of [() => rabbitMQ.publish(exchange, routingKey, message,
    options)].  An answer is used up when a write is made. *)
Definition publish_attempt (exchange routingKey : string)
           (message : Message.QueueMessage)
           (options : option (gmap string value)) (w : World)
  : Retry.Outcome Error * World :=
  let left := if ready "publisher" (pool w) then tl (rooms w) else rooms w in
  match publish exchange routingKey message options (next_room w) (pool w)
  with
  | (Ok b, p', ws) =>
      (Retry.Resolved b, {| pool := p'; rooms := left; wire := wire w ++ ws |})
  | (Thrown e, p', ws) =>
      (Retry.Rejected e, {| pool := p'; rooms := left; wire := wire w ++ ws |})
  end.

End RetryPublish.

(* ===================================================================== *)
(** * The attempts of publishWithRetry that resolve to false               *)
(* ===================================================================== *)

Module RetryWaits.
Import Retry.

Section Refused.
Context {W E : Type}.
Variable publishFunction : W -> Outcome E * W.

(** Among [n] consecutive calls from state [w], the first of them being
    attempt number [i] (counted from 0): the numbers of the attempts that
    resolve to [false]. *)
Fixpoint refused (n i : nat) (w : W) : list nat :=
  match n with
  | O => []
  | S n' =>
      let '(o, w1) := publishFunction w in
      match o with
      | Resolved false => i :: refused n' (S i) w1
      | _ => refused n' (S i) w1
      end
  end.

End Refused.

Definition total (waits : list Z) : Z := fold_right Z.add 0 waits.

(** An operation that throws at every call. *)
Definition always_throws (calls : nat) : Outcome nat * nat :=
  (Rejected calls, S calls).

End RetryWaits.

(* ===================================================================== *)
(** * Properties of publishWithRetry                                       *)
(* ===================================================================== *)

Section RetryFacts.
Import Retry.
Context {W E : Type}.
Variable op : W -> Outcome E * W.
Variable maxRetries : nat.
Variable delayMs : Z.

Lemma invocation_S (k : nat) (w : W) :
  invocation op (S k) w = invocation op k (snd (op w)).
Proof. reflexivity. Qed.

(** The loop stops at the first call that resolves to [true]. *)
Lemma loop_first_true (k : nat) :
  forall (remaining i : nat) (w : W),
    (remaining + i = maxRetries)%nat ->
    (k < remaining)%nat ->
    (forall j, (j < k)%nat -> fst (invocation op j w) <> Resolved true) ->
    fst (invocation op k w) = Resolved true ->
    let r := loop op maxRetries delayMs remaining i w in
    result_of r = Return true /\ invocations (events_of r) = S k.
Proof.
  induction k as [|k IH]; intros remaining i w Hsum Hlt Hbefore Hk;
    destruct remaining as [|remaining']; try lia; cbn [loop].
  - cbn [invocation] in Hk. destruct (op w) as [o w1]; cbn in Hk; subst o.
    split; reflexivity.
  - assert (H0 : fst (invocation op 0 w) <> Resolved true)
      by (apply Hbefore; lia).
    assert (Hrest : forall j, (j < k)%nat ->
              fst (invocation op j (snd (op w))) <> Resolved true).
    { intros j Hj. rewrite <- invocation_S. apply Hbefore. lia. }
    rewrite invocation_S in Hk. cbn [invocation] in H0.
    destruct (op w) as [o w1]; cbn [fst snd] in *.
    destruct o as [[|]|e]; [congruence| |].
    + specialize (IH remaining' (S i) w1 ltac:(lia) ltac:(lia) Hrest Hk).
      cbn zeta in IH. destruct IH as [IHr IHn].
      destruct (loop op maxRetries delayMs remaining' (S i) w1)
        as [[r w2] evs].
      unfold result_of, events_of, invocations in *; cbn [fst snd] in *.
      split; [assumption|].
      cbn [filter List.filter is_invoke length List.length].
      destruct (S i <? maxRetries)%nat; cbn; rewrite IHn; reflexivity.
    + destruct (Nat.eqb_spec (S i) maxRetries) as [Heq|_]; [lia|].
      specialize (IH remaining' (S i) w1 ltac:(lia) ltac:(lia) Hrest Hk).
      cbn zeta in IH. destruct IH as [IHr IHn].
      destruct (loop op maxRetries delayMs remaining' (S i) w1)
        as [[r w2] evs].
      unfold result_of, events_of, invocations in *; cbn [fst snd] in *.
      split; [assumption|]. cbn. rewrite IHn. reflexivity.
Qed.

(** When no call resolves to [true], all the iterations run and the last
    call decides between [return false] and the re-throw. *)
Lemma loop_exhausted :
  forall (remaining i : nat) (w : W),
    (remaining + i = maxRetries)%nat ->
    (1 <= remaining)%nat ->
    (forall j, (j < remaining)%nat ->
               fst (invocation op j w) <> Resolved true) ->
    let r := loop op maxRetries delayMs remaining i w in
    invocations (events_of r) = remaining /\
    match fst (invocation op (remaining - 1) w) with
    | Resolved _ => result_of r = Return false
    | Rejected e => result_of r = Throw e
    end.
Proof.
  induction remaining as [|remaining' IH]; intros i w Hsum Hpos Hall;
    [lia|].
  assert (H0 : fst (invocation op 0 w) <> Resolved true)
    by (apply Hall; lia).
  assert (Hrest : forall j, (j < remaining')%nat ->
            fst (invocation op j (snd (op w))) <> Resolved true).
  { intros j Hj. rewrite <- invocation_S. apply Hall. lia. }
  cbn [loop]. cbn [invocation] in H0.
  destruct remaining' as [|remaining''].
  - (* the last iteration *)
    cbn [Nat.sub invocation].
    destruct (op w) as [o w1]; cbn [fst snd] in *.
    destruct o as [[|]|e]; [congruence| |].
    + cbn [loop]. destruct (S i <? maxRetries)%nat eqn:Hlt.
      * apply Nat.ltb_lt in Hlt. lia.
      * split; reflexivity.
    + destruct (Nat.eqb_spec (S i) maxRetries) as [_|Hne]; [|lia].
      split; reflexivity.
  - replace (S (S remaining'') - 1)%nat with (S (S remaining'' - 1))
      by lia.
    rewrite invocation_S.
    specialize (IH (S i) (snd (op w)) ltac:(lia) ltac:(lia) Hrest).
    cbn zeta in IH. destruct IH as [IHn IHr].
    destruct (op w) as [o w1]; cbn [fst snd] in *.
    destruct (loop op maxRetries delayMs (S remaining'') (S i) w1)
      as [[r w2] evs] eqn:Hloop.
    unfold result_of, events_of, invocations in *; cbn [fst snd] in *.
    destruct o as [[|]|e]; [congruence| |].
    + split.
      * destruct (S i <? maxRetries)%nat; cbn; rewrite IHn; reflexivity.
      * exact IHr.
    + destruct (Nat.eqb_spec (S i) maxRetries) as [Heq|_]; [lia|].
      cbn [fst snd]. split; [cbn; rewrite IHn; reflexivity | exact IHr].
Qed.

End RetryFacts.

(** C3.  For [maxAttempts >= 1], [publishWithRetry] returns [true] at the
    first call of [op] that resolves to [true], having called [op] exactly
    that many times; when none of the [maxAttempts] calls resolves to
    [true] it calls [op] [maxAttempts] times and returns [false] if the last
    call resolved to [false], re-throws the error if the last call threw.
    With an [op] answering [false] three times, then [true], and
    [maxAttempts = 5], it returns [true] after exactly 4 calls, and the wait
    after attempt [a] is [baseDelayMs * 2^(a-1)]. *)
Theorem publishWithRetry_outcome {W E : Type}
    (op : W -> Retry.Outcome E * W) (maxAttempts : nat) (baseDelayMs : Z)
    (w : W) :
  (1 <= maxAttempts)%nat ->
  let r := Retry.publishWithRetry op maxAttempts baseDelayMs w in
  (forall k,
      (k < maxAttempts)%nat ->
      (forall j, (j < k)%nat ->
                 fst (Retry.invocation op j w) <> Retry.Resolved true) ->
      fst (Retry.invocation op k w) = Retry.Resolved true ->
      Retry.result_of r = Retry.Return true
      /\ Retry.invocations (Retry.events_of r) = S k)
  /\ ((forall j, (j < maxAttempts)%nat ->
                 fst (Retry.invocation op j w) <> Retry.Resolved true) ->
      Retry.invocations (Retry.events_of r) = maxAttempts
      /\ match fst (Retry.invocation op (maxAttempts - 1) w) with
         | Retry.Resolved _ => Retry.result_of r = Retry.Return false
         | Retry.Rejected e => Retry.result_of r = Retry.Throw e
         end)
  /\ (let r5 :=
        Retry.publishWithRetry Retry.three_false_then_true 5 baseDelayMs
          0%nat in
      Retry.result_of r5 = Retry.Return true
      /\ Retry.invocations (Retry.events_of r5) = 4%nat
      /\ Retry.sleeps (Retry.events_of r5)
         = map (fun attempt => baseDelayMs * 2 ^ (Z.of_nat attempt - 1))
               [1; 2; 3]%nat).
Proof.
  intros Hpos r. split; [|split].
  - intros k Hk Hbefore Htrue.
    apply (loop_first_true op maxAttempts baseDelayMs k maxAttempts 0%nat w);
      auto with arith.
  - intros Hall.
    apply (loop_exhausted op maxAttempts baseDelayMs maxAttempts 0%nat w);
      auto with arith.
  - cbv zeta. repeat split.
  Qed.

Lemma publishWithRetry_outcome_witness :
  (1 <= 5)%nat /\
  Retry.result_of
    (Retry.publishWithRetry Retry.three_false_then_true 5 1000 0%nat)
  = Retry.Return true /\
  Retry.invocations
    (Retry.events_of
       (Retry.publishWithRetry Retry.three_false_then_true 5 1000 0%nat))
  = 4%nat.
Proof.
  assert (H : (1 <= 5)%nat) by lia.
  split; [exact H|].
  refine (proj1 (publishWithRetry_outcome
                   Retry.three_false_then_true 5 1000 0%nat H)
            3%nat _ _ _).
  - lia.
  - intros j Hj.
    destruct j as [|[|[|j]]]; [discriminate | discriminate | discriminate | lia].
  - reflexivity.
Defined.

(* ===================================================================== *)
(** * Properties of consume                                                *)
(* ===================================================================== *)

Section ConsumeFacts.
Import Json Amqp RabbitMQ.
Context {H : Type}.
Variable handler : value -> H -> Completion * H.
Variable channel : Channel.

(** How the [try] block ends: [JSON.parse] throws, the read of
    [message.id] throws on [null], or the handler decides. *)
Lemma try_block_completion (msg : Delivery) (h : H) :
  fst (fst (try_block handler channel msg h))
  = match parse (content msg) with
    | None => Failed SyntaxError
    | Some Null => Failed TypeError
    | Some message => fst (handler message h)
    end.
Proof.
  unfold try_block. destruct (parse (content msg)) as [message|];
    [|reflexivity].
  destruct message; try reflexivity;
    match goal with
    | |- context [handler ?m h] => destruct (handler m h) as [[|e] h']
    end; reflexivity.
Qed.

(** The [try] block sends nothing before it fails, and one [ack] when it
    runs to its end. *)
Lemma try_block_sent (msg : Delivery) (h : H) :
  snd (fst (try_block handler channel msg h))
  = match fst (fst (try_block handler channel msg h)) with
    | Completed => [(channel, Ack msg)]
    | Failed _ => []
    end.
Proof.
  unfold try_block. destruct (parse (content msg)) as [message|];
    [|reflexivity].
  destruct message; try reflexivity;
    match goal with
    | |- context [handler ?m h] => destruct (handler m h) as [[|e] h']
    end; reflexivity.
Qed.

Lemma on_message_sent (msg : Delivery) (h : H) :
  fst (on_message handler channel (Some msg) h)
  = match fst (fst (try_block handler channel msg h)) with
    | Completed => [(channel, Ack msg)]
    | Failed _ => [(channel, Nack msg false true)]
    end.
Proof.
  unfold on_message. pose proof (try_block_sent msg h) as Hs.
  destruct (try_block handler channel msg h) as [[[|e] w] h'];
    cbn [fst snd] in *; subst w; reflexivity.
Qed.

End ConsumeFacts.




(* ===================================================================== *)
(** * Properties of the channel cache                                      *)
(* ===================================================================== *)

Section ChannelFacts.
Import Json Amqp RabbitMQ.

Lemma getChannel_cached (name : string) (p : Pool) (channel : Channel) :
  channels p !! name = Some channel ->
  getChannel name p = (Ok channel, p, []).
Proof. intros Hc. unfold getChannel. rewrite Hc. reflexivity. Qed.

Lemma getChannel_null (name : string) (p : Pool) :
  channels p !! name = None ->
  connection p = None ->
  getChannel name p = (Thrown (JsError "RabbitMQ not connected"), p, []).
Proof. intros Hc Hn. unfold getChannel. rewrite Hc, Hn. reflexivity. Qed.

Lemma getChannel_closed (name : string) (p : Pool) (i : nat) :
  channels p !! name = None ->
  connection p = Some i ->
  is_open i p = false ->
  getChannel name p = (Thrown IllegalOperationError, p, []).
Proof.
  intros Hc Hn Ho. unfold getChannel. rewrite Hc, Hn.
  unfold bind, createChannel. unfold is_open in Ho.
  destruct (connections p !! i) as [c|]; [|reflexivity].
  rewrite Ho. reflexivity.
Qed.

(** Creating a channel changes the connection's count of channels and
    leaves every connection as open as it was. *)
Lemma is_open_created (i j : nat) (p : Pool) (c : Connection)
      (chans : gmap string Channel) (flag : bool) (target : option nat) :
  connections p !! i = Some c ->
  open c = true ->
  is_open j
    {| connection := target; channels := chans; connected := flag;
       connections :=
         <[i := {| open := true; created := S (created c) |}]>
           (connections p) |}
  = is_open j p.
Proof.
  intros Hi Ho. unfold is_open. cbn [connections].
  destruct (decide (i = j)) as [<-|Hne].
  - rewrite list_lookup_insert_eq by (eapply lookup_lt_Some; eauto).
    now rewrite Hi, Ho.
  - now rewrite list_lookup_insert_ne.
Qed.

Lemma getChannel_fresh (name : string) (p : Pool) (i : nat)
      (c : Connection) :
  channels p !! name = None ->
  connection p = Some i ->
  connections p !! i = Some c ->
  open c = true ->
  getChannel name p
  = (Ok {| chan_conn := i; chan_id := created c |},
     {| connection := Some i;
        channels :=
          <[name := {| chan_conn := i; chan_id := created c |}]> (channels p);
        connected := connected p;
        connections :=
          <[i := {| open := true; created := S (created c) |}]>
            (connections p) |},
     [({| chan_conn := i; chan_id := created c |}, Prefetch 10)]).
Proof.
  intros Hc Hn Hi Ho. unfold getChannel. rewrite Hc, Hn.
  unfold bind, createChannel. rewrite Hi, Ho.
  unfold request, live. cbn [chan_conn].
  rewrite (is_open_created i i p c _ _ _ Hi Ho).
  unfold is_open. rewrite Hi, Ho. cbn. rewrite Hn. reflexivity.
Qed.

(** When [getChannel] is ready it hands out a live channel, by now cached,
    having sent at most the [prefetch] of a new channel; no channel stops
    or starts working. *)
Lemma getChannel_ready (name : string) (p : Pool) :
  ready name p = true ->
  exists channel p' w,
    getChannel name p = (Ok channel, p', w)
    /\ live channel p' = true
    /\ channels p' !! name = Some channel
    /\ (w = [] \/ w = [(channel, Prefetch 10)])
    /\ (forall channel', live channel' p' = live channel' p).
Proof.
  unfold ready. intros Hr.
  destruct (channels p !! name) as [channel|] eqn:Hc.
  - exists channel, p, []. rewrite (getChannel_cached _ _ _ Hc).
    repeat split; auto.
  - unfold usable in Hr. destruct (connection p) as [i|] eqn:Hn;
      [|discriminate].
    unfold is_open in Hr.
    destruct (connections p !! i) as [c|] eqn:Hi; [|discriminate].
    rewrite (getChannel_fresh _ _ _ _ Hc Hn Hi Hr). do 3 eexists.
    split; [reflexivity|].
    assert (Hlive : forall channel',
               live channel'
                 {| connection := Some i;
                    channels :=
                      <[name := {| chan_conn := i; chan_id := created c |}]>
                        (channels p);
                    connected := connected p;
                    connections :=
                      <[i := {| open := true; created := S (created c) |}]>
                        (connections p) |}
               = live channel' p).
    { intros channel'. unfold live. now apply is_open_created. }
    split; [|split; [|split; [now right | exact Hlive]]].
    + rewrite Hlive. unfold live, is_open. cbn [chan_conn].
      now rewrite Hi.
    + cbn [channels]. apply lookup_insert_eq.
Qed.

(** When it is not ready it throws, or hands out a cached channel that no
    longer works. *)
Lemma getChannel_not_ready (name : string) (p : Pool) :
  ready name p = false ->
  (exists e, getChannel name p = (Thrown e, p, []))
  \/ (exists channel,
         getChannel name p = (Ok channel, p, [])
         /\ live channel p = false).
Proof.
  unfold ready. intros Hr.
  destruct (channels p !! name) as [channel|] eqn:Hc.
  - right. exists channel. now rewrite (getChannel_cached _ _ _ Hc).
  - left. unfold usable in Hr. destruct (connection p) as [i|] eqn:Hn.
    + rewrite (getChannel_closed _ _ _ Hc Hn Hr). eauto.
    + rewrite (getChannel_null _ _ Hc Hn). eauto.
Qed.

(** What a guarded write gives: [try { channel <- getChannel; write;
    return room } catch { return false }]. *)
Lemma guarded_write (op : ChanOp) (room : bool) (p : Pool) :
  let r :=
    try_catch
      (channel <- getChannel "publisher" ;;
       request channel op ;;; ret room)
      (fun _ => ret false) p in
  result_of r = Ok (ready "publisher" p && room)
  /\ forall x, In x (sent r) -> snd x = Prefetch 10 \/ snd x = op.
Proof.
  cbv zeta. unfold try_catch, bind.
  destruct (ready "publisher" p) eqn:Hr.
  - destruct (getChannel_ready _ _ Hr)
      as (channel & p' & w & -> & Hlive & _ & Hw & _).
    unfold request. rewrite Hlive. cbn.
    split; [reflexivity|]. intros x Hx.
    apply in_app_or in Hx. destruct Hx as [Hx|[<-|[]]]; [|now right].
    destruct Hw as [->| ->]; [destruct Hx|].
    destruct Hx as [<-|[]]. now left.
  - destruct (getChannel_not_ready _ _ Hr)
      as [(e & ->) | (channel & -> & Hdead)].
    + cbn. split; [reflexivity|]. intros x [].
    + unfold request. rewrite Hdead. cbn.
      split; [reflexivity|]. intros x [].
Qed.

Lemma publish_result (exchange routingKey : string)
      (message : Message.QueueMessage)
      (options : option (gmap string value)) (room : bool) (p : Pool) :
  result_of (publish exchange routingKey message options room p)
  = Ok (ready "publisher" p && room).
Proof. unfold publish. apply guarded_write. Qed.

Lemma sendToQueue_result (queue : string) (message : Message.QueueMessage)
      (options : option (gmap string value)) (room : bool) (p : Pool) :
  result_of (sendToQueue queue message options room p)
  = Ok (ready "publisher" p && room).
Proof. unfold sendToQueue. apply guarded_write. Qed.

End ChannelFacts.

(** C2, as amended.  [publish] and [sendToQueue] never raise: they return
    [true] when a working channel was had and the write went through with
    room in the channel's buffer, and [false] both under backpressure and
    when [getChannel] or the write threw. *)
Theorem publish_never_throws
    (exchange routingKey queue : string) (message : Message.QueueMessage)
    (options : option (gmap string Json.value)) (room : bool)
    (p : RabbitMQ.Pool) :
  RabbitMQ.result_of
    (RabbitMQ.publish exchange routingKey message options room p)
  = RabbitMQ.Ok (RabbitMQ.ready "publisher" p && room)
  /\ RabbitMQ.result_of (RabbitMQ.sendToQueue queue message options room p)
     = RabbitMQ.Ok (RabbitMQ.ready "publisher" p && room).
Proof.
  split; [apply publish_result | apply sendToQueue_result].
Qed.

(** C2 as stated fails: with no connection [getChannel] throws, and both
    operations return [false], although the buffer had room, instead of
    raising. *)
Lemma publish_swallows_connection_error :
  RabbitMQ.result_of (RabbitMQ.getChannel "publisher" RabbitMQ.initial)
  = RabbitMQ.Thrown (Amqp.JsError "RabbitMQ not connected")
  /\ RabbitMQ.result_of
       (RabbitMQ.publish "payment.events" "payment.confirmed"
          Scenario.payment_confirmed None true RabbitMQ.initial)
     = RabbitMQ.Ok false
  /\ RabbitMQ.result_of
       (RabbitMQ.sendToQueue "payment.processing"
          Scenario.payment_confirmed None true RabbitMQ.initial)
     = RabbitMQ.Ok false.
Proof. repeat split. Qed.

(* ===================================================================== *)
(** * Properties of publish and sendToQueue                                *)
(* ===================================================================== *)

Section PublishFacts.
Import Json Amqp RabbitMQ.

(** Object spread: a key of [options] wins, the stamped value stands
    where [options] has no such key. *)
Lemma messageOptions_override (message : Message.QueueMessage)
      (options : option (gmap string value)) (k : string) (v : value) :
  default ∅ options !! k = Some v ->
  messageOptions message options !! k = Some v.
Proof. intros Hk. unfold messageOptions. now apply lookup_union_Some_l. Qed.

Lemma messageOptions_stamped (message : Message.QueueMessage)
      (options : option (gmap string value)) (k : string) :
  default ∅ options !! k = None ->
  messageOptions message options !! k
  = ({[ "persistent" := Bool true;
        "messageId" := Str (Message.id message);
        "timestamp" := Number (Message.timestamp message);
        "type" := Str (Message.type message) ]}
     : gmap string value) !! k.
Proof. intros Hk. unfold messageOptions. now apply lookup_union_r. Qed.

End PublishFacts.




(* ===================================================================== *)
(** * Properties of the topology declaration                               *)
(* ===================================================================== *)

Section TopologyFacts.
Import Json Amqp RabbitMQ.

Lemma declarations_app (w1 w2 : list Wire) :
  declarations (w1 ++ w2) = declarations w1 ++ declarations w2.
Proof. unfold declarations. now rewrite map_app, List.filter_app. Qed.

Lemma request_live (channel : Channel) (op : ChanOp) (p : Pool) :
  live channel p = true ->
  request channel op p = (Ok tt, p, [(channel, op)]).
Proof. intros Hl. unfold request. now rewrite Hl. Qed.

(** On a live channel every request of a loop goes out, in the order of
    the list. *)
Lemma for_each_request {A : Type} (channel : Channel) (f : A -> ChanOp)
      (l : list A) (p : Pool) :
  live channel p = true ->
  for_each (fun x => request channel (f x)) l p
  = (Ok tt, p, map (fun x => (channel, f x)) l).
Proof.
  intros Hl. induction l as [|x l IH]; [reflexivity|].
  cbn [for_each map]. unfold bind at 1.
  rewrite (request_live _ _ _ Hl), IH. reflexivity.
Qed.

Lemma declarations_requests {A : Type} (channel : Channel)
      (f : A -> ChanOp) (l : list A) :
  (forall x, In x l -> match f x with Prefetch _ => False | _ => True end) ->
  declarations (map (fun x => (channel, f x)) l) = map f l.
Proof.
  intros Hf. unfold declarations. rewrite map_map. cbn [snd].
  induction l as [|x l IH]; [reflexivity|].
  cbn [map List.filter]. pose proof (Hf x (or_introl eq_refl)) as Hx.
  rewrite IH by (intros y Hy; apply Hf; now right).
  destruct (f x); try reflexivity. destruct Hx.
Qed.

Lemma declarations_prefetch (channel : Channel) (w : list Wire) :
  w = [] \/ w = [(channel, Prefetch 10)] -> declarations w = [].
Proof. intros [->| ->]; reflexivity. Qed.

Lemma ready_cached (name : string) (channel : Channel) (p : Pool) :
  channels p !! name = Some channel ->
  live channel p = true ->
  ready name p = true.
Proof. intros Hc Hl. unfold ready. now rewrite Hc. Qed.

Lemma initializeExchanges_declares (p : Pool) :
  ready "init" p = true ->
  exists p' w,
    initializeExchanges p = (Ok tt, p', w)
    /\ ready "init" p' = true
    /\ declarations w = declared_exchanges.
Proof.
  intros Hr. unfold initializeExchanges, bind.
  destruct (getChannel_ready "init" p Hr)
    as (channel & p' & w & -> & Hl & Hc & Hw & _).
  rewrite (for_each_request channel
             (fun e => AssertExchange (fst e) (snd e) exchange_options)
             EXCHANGES p' Hl).
  do 2 eexists. split; [reflexivity|].
  split; [now apply (ready_cached _ channel)|].
  rewrite declarations_app, (declarations_prefetch _ _ Hw),
    declarations_requests; [reflexivity|].
  intros; exact I.
Qed.

Lemma initializeQueues_declares (p : Pool) :
  ready "init" p = true ->
  exists p' w,
    initializeQueues p = (Ok tt, p', w)
    /\ declarations w = declared_queues ++ dead_letter_path.
Proof.
  intros Hr. unfold initializeQueues, bind.
  destruct (getChannel_ready "init" p Hr)
    as (channel & p' & w & -> & Hl & _ & Hw & _).
  rewrite (for_each_request channel
             (fun q => AssertQueue q queue_options) QUEUES p' Hl).
  repeat (rewrite (request_live _ _ _ Hl); cbv beta iota zeta).
  do 2 eexists. split; [reflexivity|].
  rewrite !declarations_app, (declarations_prefetch _ _ Hw),
    declarations_requests by (intros; exact I).
  reflexivity.
Qed.

(** The pool in which [connect] starts the declaration: the new connection
    object is open, and the channels that worked still do. *)
Lemma connect_ready (name : string) (p : Pool) :
  cached_live name p = true ->
  ready name
    {| connection := Some (List.length (connections p));
       channels := channels p;
       connected := true;
       connections := connections p ++ [{| open := true; created := 0 |}] |}
  = true.
Proof.
  unfold cached_live, ready. cbn [channels].
  destruct (channels p !! name) as [channel|].
  - unfold live, is_open. cbn [connections].
    destruct (connections p !! chan_conn channel) as [c|] eqn:Hc;
      [|discriminate].
    intros Ho. now rewrite (lookup_app_l_Some _ _ _ _ Hc).
  - intros _. unfold usable, is_open. cbn [connection connections].
    now rewrite list_lookup_middle.
Qed.

Lemma connect_declares (p : Pool) :
  cached_live "init" p = true ->
  result_of (connect true p) = Ok tt
  /\ declarations (sent (connect true p))
     = declared_exchanges ++ declared_queues ++ dead_letter_path.
Proof.
  intros Hc. unfold connect, bind.
  destruct (initializeExchanges_declares _ (connect_ready "init" p Hc))
    as (p1 & w1 & -> & Hr1 & Hw1).
  destruct (initializeQueues_declares p1 Hr1) as (p2 & w2 & -> & Hw2).
  split; [reflexivity|].
  unfold sent; cbn [snd]. now rewrite declarations_app, Hw1, Hw2.
Qed.

End TopologyFacts.




(** C8, as amended.  [getChannel(name)] returns the channel cached under
    [name] whenever there is one, without looking at its health or at the
    [connected] flag; with none cached it throws
    [Error('RabbitMQ not connected')] when there is no connection object,
    and over an open connection it creates a channel, sets its prefetch to
    10, caches and returns it.  A connection-level error sets [connected]
    to [false] and leaves the cache as it is, so that a name cached before
    still gets its channel afterwards. *)
Theorem getChannel_behaviour (name : string) (p : RabbitMQ.Pool) :
  (forall channel,
      RabbitMQ.channels p !! name = Some channel ->
      RabbitMQ.getChannel name p = (RabbitMQ.Ok channel, p, [])
      /\ forall i,
          RabbitMQ.result_of
            (RabbitMQ.getChannel name (RabbitMQ.connection_error i p))
          = RabbitMQ.Ok channel)
  /\ (RabbitMQ.channels p !! name = None ->
      RabbitMQ.connection p = None ->
      RabbitMQ.result_of (RabbitMQ.getChannel name p)
      = RabbitMQ.Thrown (Amqp.JsError "RabbitMQ not connected"))
  /\ (forall i c,
         RabbitMQ.channels p !! name = None ->
         RabbitMQ.connection p = Some i ->
         RabbitMQ.connections p !! i = Some c ->
         RabbitMQ.open c = true ->
         let r := RabbitMQ.getChannel name p in
         let channel :=
           {| Amqp.chan_conn := i; Amqp.chan_id := RabbitMQ.created c |} in
         RabbitMQ.result_of r = RabbitMQ.Ok channel
         /\ RabbitMQ.sent r = [(channel, Amqp.Prefetch 10)]
         /\ RabbitMQ.channels (RabbitMQ.pool_of r) !! name = Some channel)
  /\ (forall i,
         RabbitMQ.isConnected (RabbitMQ.connection_error i p) = false
         /\ RabbitMQ.channels (RabbitMQ.connection_error i p)
            = RabbitMQ.channels p).
Proof.
  split; [|split; [|split]].
  - intros channel Hc. split; [now apply getChannel_cached|]. intros i.
    rewrite (getChannel_cached name (RabbitMQ.connection_error i p) channel);
      [reflexivity | exact Hc].
  - intros Hc Hn. now rewrite (getChannel_null _ _ Hc Hn).
  - intros i c Hc Hn Hi Ho. cbv zeta.
    rewrite (getChannel_fresh _ _ _ _ Hc Hn Hi Ho).
    unfold RabbitMQ.result_of, RabbitMQ.sent, RabbitMQ.pool_of.
    cbn [fst snd RabbitMQ.channels].
    rewrite lookup_insert_eq. auto.
  - intros i. split; reflexivity.
Qed.

Lemma getChannel_behaviour_witness :
  let p := Scenario.connected_pool in
  let init := {| Amqp.chan_conn := 0; Amqp.chan_id := 0 |} in
  (RabbitMQ.channels p !! "init" = Some init
   /\ RabbitMQ.result_of
        (RabbitMQ.getChannel "init" (RabbitMQ.connection_error 0 p))
      = RabbitMQ.Ok init)
  /\ (RabbitMQ.channels RabbitMQ.initial !! "init" = None
      /\ RabbitMQ.connection RabbitMQ.initial = None
      /\ RabbitMQ.result_of (RabbitMQ.getChannel "init" RabbitMQ.initial)
         = RabbitMQ.Thrown (Amqp.JsError "RabbitMQ not connected"))
  /\ (RabbitMQ.channels p !! "publisher" = None
      /\ RabbitMQ.connection p = Some 0%nat
      /\ RabbitMQ.connections p !! 0%nat
         = Some {| RabbitMQ.open := true; RabbitMQ.created := 1 |}
      /\ RabbitMQ.result_of (RabbitMQ.getChannel "publisher" p)
         = RabbitMQ.Ok {| Amqp.chan_conn := 0; Amqp.chan_id := 1 |}).
Proof.
  cbv zeta.
  assert (Hinit : RabbitMQ.channels Scenario.connected_pool !! "init"
                  = Some {| Amqp.chan_conn := 0; Amqp.chan_id := 0 |})
    by (vm_compute; reflexivity).
  assert (Hnone : RabbitMQ.channels RabbitMQ.initial !! "init" = None)
    by reflexivity.
  assert (Hnull : RabbitMQ.connection RabbitMQ.initial = None)
    by reflexivity.
  assert (Hpub : RabbitMQ.channels Scenario.connected_pool !! "publisher"
                 = None)
    by (vm_compute; reflexivity).
  assert (Hconn : RabbitMQ.connection Scenario.connected_pool = Some 0%nat)
    by (vm_compute; reflexivity).
  assert (Hobj : RabbitMQ.connections Scenario.connected_pool !! 0%nat
                 = Some {| RabbitMQ.open := true; RabbitMQ.created := 1 |})
    by (vm_compute; reflexivity).
  split; [|split].
  - split; [exact Hinit|].
    exact (proj2 (proj1 (getChannel_behaviour "init" Scenario.connected_pool)
                    _ Hinit) 0%nat).
  - split; [exact Hnone|]. split; [exact Hnull|].
    exact (proj1 (proj2 (getChannel_behaviour "init" RabbitMQ.initial))
             Hnone Hnull).
  - split; [exact Hpub|]. split; [exact Hconn|]. split; [exact Hobj|].
    exact (proj1 (proj1 (proj2 (proj2 (getChannel_behaviour "publisher"
                                         Scenario.connected_pool)))
                    _ _ Hpub Hconn Hobj eq_refl)).
Defined.

(** C8 as stated fails: after a connection-level error the pool is marked
    disconnected and the connection is closed, yet [getChannel] still
    returns the cached channel, which no longer works, instead of failing. *)
Lemma getChannel_after_connection_error :
  let p := RabbitMQ.pool_of
             (RabbitMQ.getChannel "publisher" Scenario.connected_pool) in
  let p' := RabbitMQ.connection_error 0 p in
  let publisher := {| Amqp.chan_conn := 0; Amqp.chan_id := 1 |} in
  RabbitMQ.isConnected p' = false
  /\ RabbitMQ.usable p' = false
  /\ RabbitMQ.live publisher p' = false
  /\ RabbitMQ.result_of (RabbitMQ.getChannel "publisher" p')
     = RabbitMQ.Ok publisher
  /\ (forall e, RabbitMQ.result_of (RabbitMQ.getChannel "publisher" p')
                <> RabbitMQ.Thrown e).
Proof.
  cbv zeta. split; [reflexivity|]. split; [vm_compute; reflexivity|].
  split; [vm_compute; reflexivity|].
  assert (H : RabbitMQ.result_of
                (RabbitMQ.getChannel "publisher"
                   (RabbitMQ.connection_error 0
                      (RabbitMQ.pool_of
                         (RabbitMQ.getChannel "publisher"
                            Scenario.connected_pool))))
              = RabbitMQ.Ok {| Amqp.chan_conn := 0; Amqp.chan_id := 1 |})
    by (vm_compute; reflexivity).
  split; [exact H|]. intros e. rewrite H. discriminate.
Qed.

(* ===================================================================== *)
(** * Properties of rpc                                                    *)
(* ===================================================================== *)

Section RpcFacts.
Import Json Amqp RabbitMQ.

Lemma matches_spec (c : Call) (m : Delivery) :
  matches c m = true <-> correlationId m = Some (call_id c).
Proof.
  unfold matches. destruct (correlationId m) as [i|].
  - rewrite String.eqb_eq. split; congruence.
  - split; discriminate.
Qed.

Lemma settle_settled (s s0 : Settlement) (c : Call) :
  promise c = Some s0 -> settle s c = c.
Proof. intros Hp. unfold settle. now rewrite Hp. Qed.

Lemma settle_pending (s : Settlement) (c : Call) :
  promise c = None -> promise (settle s c) = Some s.
Proof. intros Hp. unfold settle. now rewrite Hp. Qed.

Lemma settle_timer (s : Settlement) (c : Call) :
  timer (settle s c) = timer c /\ subscribed (settle s c) = subscribed c.
Proof. unfold settle. destruct (promise c); auto. Qed.

(** A settled promise stays as it is through every callback. *)
Lemma step_settled (c : Call) (ev : RpcEvent) (s : Settlement) :
  promise c = Some s -> promise (fst (step c ev)) = Some s.
Proof.
  intros Hp. destruct ev as [[m|]|]; cbn [step].
  - destruct (subscribed c); [|assumption]. cbn [on_reply].
    destruct (negb (matches c m)); [assumption|].
    destruct (parse (content m)); cbn [fst];
      now rewrite (settle_settled _ s).
  - destruct (subscribed c); assumption.
  - destruct (timer c); try assumption. unfold on_timeout. cbn [fst].
    now rewrite (settle_settled _ s).
Qed.

Lemma run_settled (evs : list RpcEvent) :
  forall (c : Call) (s : Settlement),
    promise c = Some s -> promise (fst (run c evs)) = Some s.
Proof.
  induction evs as [|ev evs IH]; intros c s Hp; [assumption|].
  cbn [run]. pose proof (step_settled c ev s Hp) as H1.
  destruct (step c ev) as [c1 w1]. cbn [fst] in H1.
  specialize (IH c1 s H1). destruct (run c1 evs) as [c2 w2]. exact IH.
Qed.

Lemma step_unrelated (c : Call) (ev : RpcEvent) :
  unrelated c ev = true -> step c ev = (c, []).
Proof.
  destruct ev as [[m|]|]; cbn [unrelated step on_reply]; intros Hu.
  - rewrite Hu. now destruct (subscribed c).
  - now destruct (subscribed c).
  - discriminate.
Qed.

Lemma run_unrelated (evs : list RpcEvent) (c : Call) :
  forallb (unrelated c) evs = true -> run c evs = (c, []).
Proof.
  induction evs as [|ev evs IH]; [reflexivity|].
  cbn [forallb run]. intros Hall. apply andb_prop in Hall as [H1 H2].
  rewrite (step_unrelated _ _ H1), (IH H2). reflexivity.
Qed.

Lemma run_app (evs1 evs2 : list RpcEvent) :
  forall c : Call,
    fst (run c (evs1 ++ evs2)) = fst (run (fst (run c evs1)) evs2).
Proof.
  induction evs1 as [|ev evs1 IH]; intros c; [reflexivity|].
  cbn [app run]. destruct (step c ev) as [c1 w1].
  specialize (IH c1). destruct (run c1 (evs1 ++ evs2)) as [c2 w2].
  destruct (run c1 evs1) as [c3 w3]. cbn [fst] in *.
  rewrite IH. now destruct (run c3 evs2).
Qed.

(** No callback cancels the subscription, and a delivery leaves the
    timer alone. *)
Lemma step_keeps_resources (c : Call) (ev : RpcEvent) :
  subscribed (fst (step c ev)) = subscribed c
  /\ (forall msg, ev = Delivered msg -> timer (fst (step c ev)) = timer c).
Proof.
  destruct ev as [[m|]|]; cbn [step on_reply].
  - destruct (subscribed c) eqn:Hs; [|split; [auto | reflexivity]].
    destruct (negb (matches c m)); [split; [auto | reflexivity]|].
    destruct (parse (content m)); cbn [fst];
      (split; [rewrite (proj2 (settle_timer _ _)); assumption
              | intros _ _; apply settle_timer]).
  - destruct (subscribed c) eqn:Hs; split; auto.
  - split; [|discriminate].
    destruct (timer c); try reflexivity. unfold on_timeout. cbn [fst].
    now rewrite (proj2 (settle_timer _ _)).
Qed.

End RpcFacts.

(** C4, as amended.  On the reply queue of an [rpc] call only a delivery
    whose correlation id equals [request.id] can settle the call; every
    other delivery is ignored: the callback returns without acknowledging
    it and without touching the call.  A matching delivery with a JSON body
    is acknowledged and resolves the pending call with the parsed body. *)
Theorem on_reply_correlates (c : RabbitMQ.Call) (m : Amqp.Delivery) :
  (Amqp.correlationId m <> Some (RabbitMQ.call_id c) ->
   RabbitMQ.on_reply (Some m) c = (c, []))
  /\ (RabbitMQ.promise (fst (RabbitMQ.on_reply (Some m) c))
      <> RabbitMQ.promise c ->
      Amqp.correlationId m = Some (RabbitMQ.call_id c))
  /\ (forall response,
         Amqp.correlationId m = Some (RabbitMQ.call_id c) ->
         RabbitMQ.promise c = None ->
         Json.parse (Amqp.content m) = Some response ->
         RabbitMQ.promise (fst (RabbitMQ.on_reply (Some m) c))
         = Some (RabbitMQ.Resolve response)
         /\ snd (RabbitMQ.on_reply (Some m) c) = [Amqp.Ack m])
  /\ RabbitMQ.on_reply None c = (c, []).
Proof.
  assert (Hno : Amqp.correlationId m <> Some (RabbitMQ.call_id c) ->
                RabbitMQ.on_reply (Some m) c = (c, [])).
  { intros Hne. unfold RabbitMQ.on_reply.
    destruct (RabbitMQ.matches c m) eqn:Hm; [|reflexivity].
    apply matches_spec in Hm. contradiction. }
  split; [exact Hno|]. split; [|split; [|reflexivity]].
  - intros Hchg.
    destruct (RabbitMQ.matches c m) eqn:Hm; [now apply matches_spec|].
    exfalso. apply Hchg. rewrite Hno; [reflexivity|].
    intros Heq. apply matches_spec in Heq. congruence.
  - intros response Hid Hp Hparse. apply matches_spec in Hid.
    unfold RabbitMQ.on_reply. rewrite Hid, Hparse. cbn [negb fst snd].
    split; [now apply settle_pending | reflexivity].
Qed.

Lemma on_reply_correlates_witness :
  (Amqp.correlationId Scenario.stale_reply
   <> Some (RabbitMQ.call_id Scenario.pending_call)
   /\ RabbitMQ.on_reply (Some Scenario.stale_reply) Scenario.pending_call
      = (Scenario.pending_call, []))
  /\ (Amqp.correlationId Scenario.reply
      = Some (RabbitMQ.call_id Scenario.pending_call)
      /\ RabbitMQ.promise Scenario.pending_call = None
      /\ Json.parse (Amqp.content Scenario.reply)
         = Some (Json.Object [("success", Json.Bool true)])
      /\ RabbitMQ.promise
           (fst (RabbitMQ.on_reply (Some Scenario.reply)
                   Scenario.pending_call))
         = Some (RabbitMQ.Resolve (Json.Object [("success", Json.Bool true)]))
      /\ snd (RabbitMQ.on_reply (Some Scenario.reply) Scenario.pending_call)
         = [Amqp.Ack Scenario.reply]).
Proof.
  assert (Hne : Amqp.correlationId Scenario.stale_reply
                <> Some (RabbitMQ.call_id Scenario.pending_call))
    by (vm_compute; discriminate).
  assert (Hid : Amqp.correlationId Scenario.reply
                = Some (RabbitMQ.call_id Scenario.pending_call))
    by (vm_compute; reflexivity).
  assert (Hp : RabbitMQ.promise Scenario.pending_call = None)
    by (vm_compute; reflexivity).
  assert (Hparse : Json.parse (Amqp.content Scenario.reply)
                   = Some (Json.Object [("success", Json.Bool true)]))
    by (vm_compute; reflexivity).
  split.
  - split; [exact Hne|].
    exact (proj1 (on_reply_correlates Scenario.pending_call
                    Scenario.stale_reply) Hne).
  - split; [exact Hid|]. split; [exact Hp|]. split; [exact Hparse|].
    exact (proj1 (proj2 (proj2 (on_reply_correlates Scenario.pending_call
                                   Scenario.reply)))
             _ Hid Hp Hparse).
Defined.

(** C4 as stated fails: a delivery with another correlation id is not
    acknowledged; the callback sends nothing for it. *)
Lemma stale_reply_not_acknowledged :
  RabbitMQ.subscribed Scenario.pending_call = true
  /\ Amqp.correlationId Scenario.stale_reply
     <> Some (RabbitMQ.call_id Scenario.pending_call)
  /\ snd (RabbitMQ.step Scenario.pending_call
            (RabbitMQ.Delivered (Some Scenario.stale_reply))) = []
  /\ ~ In (Amqp.Ack Scenario.stale_reply)
          (snd (RabbitMQ.step Scenario.pending_call
                  (RabbitMQ.Delivered (Some Scenario.stale_reply)))).
Proof.
  split; [vm_compute; reflexivity|].
  split; [vm_compute; discriminate|].
  assert (H : snd (RabbitMQ.step Scenario.pending_call
                     (RabbitMQ.Delivered (Some Scenario.stale_reply))) = [])
    by (vm_compute; reflexivity).
  split; [exact H|]. rewrite H. intros [].
Qed.

Section RpcStart.
Import Json Amqp RabbitMQ.

(** With a working [rpc] channel to be had the executor runs to its end:
    the promise is pending, the timer armed and the reply queue
    subscribed. *)
Lemma rpc_starts (queue : string) (request_ : Message.QueueMessage)
      (timeoutMs : Z) (tempQueue : string) (room : bool) (p : Pool) :
  ready "rpc" p = true ->
  let c := fst (fst (rpc queue request_ timeoutMs tempQueue room p)) in
  call_id c = Message.id request_
  /\ promise c = None
  /\ timer c = Armed timeoutMs
  /\ subscribed c = true.
Proof.
  intros Hu. cbv zeta. unfold rpc, rpc_setup, bind.
  destruct (getChannel_ready "rpc" p Hu)
    as (channel & p' & w & -> & Hl & _ & _ & _).
  repeat (rewrite (request_live _ _ _ Hl); cbv beta iota zeta).
  pose proof (sendToQueue_result queue request_
                (Some (reply_options (Message.id request_) tempQueue))
                room p') as Hs.
  destruct (sendToQueue queue request_
              (Some (reply_options (Message.id request_) tempQueue))
              room p') as [[r p2] w2].
  unfold result_of in Hs; cbn [fst] in Hs. subst r.
  cbn. auto.
Qed.

End RpcStart.

(** C5, as amended.  With a working [rpc] channel to be had, [rpc] leaves
    the call pending with its timer armed.  If only deliveries that do not match arrive
    before the deadline, the call rejects with
    [Error('RPC timeout')] (there is no [RPCTimeoutError] class).  The first
    of a matching reply and the deadline settles the call and nothing that
    comes later changes the outcome: a matching reply after the timeout
    leaves the rejection in place.  Nothing is released: no callback cancels
    the subscription to the reply queue, and a reply leaves the timer armed
    until it fires. *)
Theorem rpc_race (queue : string) (request_ : Message.QueueMessage)
    (timeoutMs : Z) (tempQueue : string) (room : bool) (p : RabbitMQ.Pool) :
  RabbitMQ.ready "rpc" p = true ->
  let c :=
    fst (fst (RabbitMQ.rpc queue request_ timeoutMs tempQueue room p)) in
  (RabbitMQ.promise c = None /\ RabbitMQ.timer c = RabbitMQ.Armed timeoutMs
   /\ RabbitMQ.subscribed c = true)
  /\ (forall evs,
         forallb (RabbitMQ.unrelated c) evs = true ->
         RabbitMQ.promise
           (fst (RabbitMQ.run c (evs ++ [RabbitMQ.Deadline])))
         = Some (RabbitMQ.Reject (Amqp.JsError "RPC timeout")))
  /\ (forall evs1 evs2 s,
         RabbitMQ.promise (fst (RabbitMQ.run c evs1)) = Some s ->
         RabbitMQ.promise (fst (RabbitMQ.run c (evs1 ++ evs2))) = Some s)
  /\ (forall c' ev,
         RabbitMQ.subscribed (fst (RabbitMQ.step c' ev))
         = RabbitMQ.subscribed c')
  /\ (forall c' msg,
         RabbitMQ.timer (fst (RabbitMQ.step c' (RabbitMQ.Delivered msg)))
         = RabbitMQ.timer c').
Proof.
  intros Hu c.
  destruct (rpc_starts queue request_ timeoutMs tempQueue room p Hu)
    as (_ & Hp & Ht & Hs). fold c in Hp, Ht, Hs.
  split; [auto|]. split; [|split; [|split]].
  - intros evs Hall. rewrite run_app, (run_unrelated _ _ Hall).
    cbn [fst RabbitMQ.run RabbitMQ.step]. rewrite Ht. cbn [fst].
    unfold RabbitMQ.on_timeout. apply settle_pending. exact Hp.
  - intros evs1 evs2 s Hsettled. rewrite run_app.
    now apply run_settled.
  - intros c' ev. apply step_keeps_resources.
  - intros c' msg.
    exact (proj2 (step_keeps_resources c' (RabbitMQ.Delivered msg)) msg
             eq_refl).
Qed.

Lemma rpc_race_witness :
  RabbitMQ.ready "rpc" Scenario.connected_pool = true
  /\ RabbitMQ.promise
       (fst (RabbitMQ.run Scenario.pending_call
               ([RabbitMQ.Delivered (Some Scenario.stale_reply)]
                ++ [RabbitMQ.Deadline])))
     = Some (RabbitMQ.Reject (Amqp.JsError "RPC timeout"))
  /\ RabbitMQ.promise
       (fst (RabbitMQ.run Scenario.pending_call
               ([RabbitMQ.Deadline]
                ++ [RabbitMQ.Delivered (Some Scenario.reply)])))
     = Some (RabbitMQ.Reject (Amqp.JsError "RPC timeout")).
Proof.
  assert (Hu : RabbitMQ.ready "rpc" Scenario.connected_pool = true)
    by (vm_compute; reflexivity).
  pose proof (rpc_race "payment.processing" Scenario.payment_confirmed 50
                "amq.gen-1" true Scenario.connected_pool Hu)
    as (_ & Htimeout & Hwinner & _).
  split; [exact Hu|]. split.
  - apply (Htimeout [RabbitMQ.Delivered (Some Scenario.stale_reply)]).
    vm_compute. reflexivity.
  - apply (Hwinner [RabbitMQ.Deadline]
             [RabbitMQ.Delivered (Some Scenario.reply)]).
    vm_compute. reflexivity.
Defined.

(** C5 as stated fails: the loser's resources are not released.  When the
    reply wins the timer stays armed, and when the deadline wins the
    subscription to the reply queue stays. *)
Lemma rpc_loser_not_released :
  let replied :=
    fst (RabbitMQ.step Scenario.pending_call
           (RabbitMQ.Delivered (Some Scenario.reply))) in
  let timed_out :=
    fst (RabbitMQ.step Scenario.pending_call RabbitMQ.Deadline) in
  (RabbitMQ.promise replied
   = Some (RabbitMQ.Resolve (Json.Object [("success", Json.Bool true)]))
   /\ RabbitMQ.timer replied = RabbitMQ.Armed 50)
  /\ (RabbitMQ.promise timed_out
      = Some (RabbitMQ.Reject (Amqp.JsError "RPC timeout"))
      /\ RabbitMQ.subscribed timed_out = true).
Proof. cbv zeta. repeat split; vm_compute; reflexivity. Qed.

(* ===================================================================== *)
(** * JSON.parse inverts JSON.stringify                                    *)
(* ===================================================================== *)

Section StringFacts.

Lemma append_cons (x : ascii) (a b : string) :
  String x a +:+ b = String x (a +:+ b).
Proof. reflexivity. Qed.

Lemma append_empty_l (a : string) : EmptyString +:+ a = a.
Proof. reflexivity. Qed.

Lemma append_assoc (a b c : string) : (a +:+ b) +:+ c = a +:+ (b +:+ c).
Proof.
  induction a as [|x a IH]; [reflexivity|].
  rewrite !append_cons. now rewrite IH.
Qed.

Lemma append_empty_r (a : string) : a +:+ EmptyString = a.
Proof.
  induction a as [|x a IH]; [reflexivity|].
  rewrite append_cons. now rewrite IH.
Qed.

Lemma length_append (a b : string) :
  String.length (a +:+ b) = (String.length a + String.length b)%nat.
Proof.
  induction a as [|x a IH]; [reflexivity|].
  rewrite append_cons. cbn [String.length]. now rewrite IH.
Qed.

End StringFacts.

(** Case analysis on a character, bit by bit. *)
Ltac each_char c :=
  destruct c as [[] [] [] [] [] [] [] []].

Section QuoteFacts.
Import Json.

(** Reading back what [escape_char] wrote gives the character. *)
Lemma parse_chars_escape_char (c : ascii) (rest : string) :
  parse_chars (escape_char c +:+ rest) = prepend c (parse_chars rest).
Proof. each_char c; reflexivity. Qed.

Lemma parse_chars_escape (s rest : string) :
  parse_chars (escape s +:+ String dquote rest) = Some (s, rest).
Proof.
  induction s as [|c s IH]; [reflexivity|].
  cbn [escape]. rewrite append_assoc, parse_chars_escape_char, IH.
  reflexivity.
Qed.

Lemma quote_append (s rest : string) :
  quote s +:+ rest = String dquote (escape s +:+ String dquote rest).
Proof.
  unfold quote.
  change (String dquote ((escape s +:+ String dquote EmptyString) +:+ rest)
          = String dquote (escape s +:+ String dquote rest)).
  now rewrite append_assoc.
Qed.

Lemma parse_string_quote (s rest : string) :
  parse_string (quote s +:+ rest) = Some (s, rest).
Proof. rewrite quote_append. apply parse_chars_escape. Qed.

End QuoteFacts.

Section NumberFacts.
Import Json.

Lemma is_digit_not_minus (c : ascii) :
  is_digit c = true -> Ascii.eqb c "-" = false.
Proof. each_char c; (discriminate || reflexivity). Qed.

Lemma uint_head (d : Decimal.uint) :
  d <> Decimal.Nil ->
  exists c s, NilEmpty.string_of_uint d = String c s /\ is_digit c = true.
Proof.
  destruct d; [congruence| ..]; intros _; cbn [NilEmpty.string_of_uint];
    do 2 eexists; (split; [reflexivity|reflexivity]).
Qed.

Lemma span_digits_delimited (rest : string) :
  delimited rest = true -> span_digits rest = (EmptyString, rest).
Proof.
  destruct rest as [|c r]; [reflexivity|]. cbn [delimited span_digits].
  intros Hc. apply negb_true_iff in Hc. now rewrite Hc.
Qed.

Lemma span_digits_uint (d : Decimal.uint) (rest : string) :
  delimited rest = true ->
  span_digits (NilEmpty.string_of_uint d +:+ rest)
  = (NilEmpty.string_of_uint d, rest).
Proof.
  intros Hr. induction d; cbn [NilEmpty.string_of_uint];
    [now apply span_digits_delimited| ..];
    rewrite append_cons; cbn [span_digits];
    (change (is_digit _) with true; cbv iota; now rewrite IHd).
Qed.

Lemma nzhead_not_D0 (d u : Decimal.uint) :
  Decimal.nzhead d <> Decimal.D0 u.
Proof. induction d; cbn [Decimal.nzhead]; congruence. Qed.

Lemma leading_zero_unorm (d : Decimal.uint) :
  leading_zero (NilEmpty.string_of_uint (Decimal.unorm d)) = false.
Proof.
  unfold Decimal.unorm. pose proof (nzhead_not_D0 d) as Hz.
  destruct (Decimal.nzhead d) as [|u|u|u|u|u|u|u|u|u|u];
    try reflexivity;
    try (cbn [NilEmpty.string_of_uint leading_zero];
         now destruct (NilEmpty.string_of_uint u)).
  now destruct (Hz u).
Qed.

Lemma to_uint_unorm (p : positive) :
  Decimal.unorm (Pos.to_uint p) = Pos.to_uint p.
Proof.
  rewrite <- DecimalPos.Unsigned.to_of, DecimalPos.Unsigned.of_to.
  reflexivity.
Qed.

(** Reading back a sign and digits that are in normal form. *)
Lemma parse_number_digits (negative : bool) (d : Decimal.uint)
      (rest : string) :
  d <> Decimal.Nil ->
  leading_zero (NilEmpty.string_of_uint d) = false ->
  delimited rest = true ->
  let i := if negative then Decimal.Neg d else Decimal.Pos d in
  parse_number (NilZero.string_of_int i +:+ rest)
  = Some (Number (Z.of_int i), rest).
Proof.
  intros Hd Hz Hr i.
  assert (Hs : NilZero.string_of_uint d = NilEmpty.string_of_uint d)
    by (destruct d; [congruence | reflexivity..]).
  assert (Hi : NilZero.int_of_string (NilZero.string_of_int i) = Some i).
  { apply NilZero.isi; subst i; destruct negative; congruence. }
  destruct (uint_head d Hd) as (c & s & Hcs & Hc).
  subst i. destruct negative; cbn [NilZero.string_of_int] in *;
    rewrite Hs in *.
  - rewrite append_cons. unfold parse_number.
    change (Ascii.eqb "-" "-") with true. cbv iota.
    rewrite (span_digits_uint d rest Hr), Hz.
    rewrite append_cons, append_empty_l, Hi. reflexivity.
  - rewrite Hcs, append_cons. unfold parse_number.
    rewrite (is_digit_not_minus c Hc).
    rewrite <- append_cons, <- Hcs, (span_digits_uint d rest Hr), Hz.
    rewrite append_empty_l, Hi. reflexivity.
Qed.

Lemma parse_number_number (n : Z) (rest : string) :
  delimited rest = true ->
  parse_number (number_to_string n +:+ rest) = Some (Number n, rest).
Proof.
  intros Hr. unfold number_to_string.
  rewrite <- (DecimalZ.of_to n) at 2.
  destruct n as [|p|p]; cbn [Z.to_int].
  - apply (parse_number_digits false Decimal.zero rest);
      [discriminate | reflexivity | assumption].
  - apply (parse_number_digits false (Pos.to_uint p) rest);
      [apply DecimalPos.Unsigned.to_uint_nonnil | | assumption].
    rewrite <- to_uint_unorm. apply leading_zero_unorm.
  - apply (parse_number_digits true (Pos.to_uint p) rest);
      [apply DecimalPos.Unsigned.to_uint_nonnil | | assumption].
    rewrite <- to_uint_unorm. apply leading_zero_unorm.
Qed.

Lemma number_head (n : Z) :
  exists c s, number_to_string n = String c s /\ number_start c = true.
Proof.
  unfold number_to_string. destruct n as [|p|p]; cbn [Z.to_int].
  - do 2 eexists. split; reflexivity.
  - cbn [NilZero.string_of_int].
    pose proof (DecimalPos.Unsigned.to_uint_nonnil p) as Hd.
    destruct (uint_head _ Hd) as (c & s & Hcs & Hc).
    exists c, s. split.
    + destruct (Pos.to_uint p); [congruence | exact Hcs..].
    + unfold number_start. now rewrite Hc.
  - do 2 eexists. split; reflexivity.
Qed.

End NumberFacts.

Section ParserSteps.
Import Json.

Lemma value_ind' (P : value -> Prop)
      (HNull : P Null)
      (HBool : forall b, P (Bool b))
      (HNumber : forall n, P (Number n))
      (HStr : forall s, P (Str s))
      (HArray : forall l, Forall P l -> P (Array l))
      (HObject : forall l, Forall (fun kv => P (snd kv)) l -> P (Object l)) :
  forall v, P v.
Proof.
  fix IH 1. intros [ | b | n | s | l | l ].
  - exact HNull.
  - apply HBool.
  - apply HNumber.
  - apply HStr.
  - apply HArray. induction l as [|x l IHl]; constructor;
      [apply IH | exact IHl].
  - apply HObject. induction l as [|[k x] l IHl]; constructor;
      [apply IH | exact IHl].
Qed.

Lemma value_start_facts (c : ascii) :
  value_start c = true ->
  is_ws c = false /\ Ascii.eqb c "]" = false /\ Ascii.eqb c "}" = false.
Proof. each_char c; (discriminate || (intros _; repeat split)). Qed.

Lemma skip_ws_start (c : ascii) (s : string) :
  is_ws c = false -> skip_ws (String c s) = String c s.
Proof. intros Hc. cbn [skip_ws]. now rewrite Hc. Qed.

Lemma parse_value_number_start (fuel : nat) (c : ascii) (r : string) :
  number_start c = true ->
  parse_value (S fuel) (String c r) = parse_number (String c r).
Proof. each_char c; (discriminate || reflexivity). Qed.

Lemma parse_value_string (fuel : nat) (s rest : string) :
  parse_value (S fuel) (quote s +:+ rest) = Some (Str s, rest).
Proof.
  rewrite quote_append.
  change (match parse_chars (escape s +:+ String dquote rest) with
          | Some (str, r') => Some (Str str, r')
          | None => None
          end = Some (Str s, rest)).
  now rewrite parse_chars_escape.
Qed.

Lemma parse_value_array (fuel : nat) (c : ascii) (s r : string)
      (l : list value) :
  value_start c = true ->
  parse_elements fuel (String c s) = Some (l, r) ->
  parse_value (S fuel) (String "[" (String c s)) = Some (Array l, r).
Proof.
  intros Hc He. destruct (value_start_facts c Hc) as (Hws & Hb & _).
  change (match strip_prefix "]" (skip_ws (String c s)) with
          | Some r' => Some (Array [], r')
          | None =>
              match parse_elements fuel (String c s) with
              | Some (l, r') => Some (Array l, r')
              | None => None
              end
          end = Some (Array l, r)).
  rewrite (skip_ws_start c s Hws). cbn [strip_prefix].
  rewrite Ascii.eqb_sym, Hb, He. reflexivity.
Qed.

Lemma parse_value_object (fuel : nat) (s r : string)
      (l : list (string * value)) :
  parse_members fuel (String dquote s) = Some (l, r) ->
  parse_value (S fuel) (String "{" (String dquote s))
  = Some (Object (from_entries l), r).
Proof.
  intros He.
  change (match parse_members fuel (String dquote s) with
          | Some (l, r') => Some (Object (from_entries l), r')
          | None => None
          end = Some (Object (from_entries l), r)).
  now rewrite He.
Qed.

Lemma parse_elements_last (fuel : nat) (s r : string) (v : value) :
  parse_value fuel s = Some (v, String "]" r) ->
  parse_elements (S fuel) s = Some ([v], r).
Proof. intros Hv. cbn [parse_elements]. rewrite Hv. reflexivity. Qed.

Lemma parse_elements_more (fuel : nat) (s r r' : string) (v : value)
      (l : list value) :
  parse_value fuel s = Some (v, String "," r) ->
  parse_elements fuel r = Some (l, r') ->
  parse_elements (S fuel) s = Some (v :: l, r').
Proof.
  intros Hv Hl. cbn [parse_elements]. rewrite Hv.
  change (match parse_elements fuel r with
          | Some (l, r'') => Some (v :: l, r'')
          | None => None
          end = Some (v :: l, r')).
  now rewrite Hl.
Qed.

Lemma parse_members_last (fuel : nat) (k s r : string) (v : value) :
  parse_value fuel s = Some (v, String "}" r) ->
  parse_members (S fuel) (quote k +:+ String ":" s) = Some ([(k, v)], r).
Proof.
  intros Hv. cbn [parse_members]. rewrite quote_append.
  rewrite skip_ws_start by reflexivity.
  rewrite <- quote_append, parse_string_quote.
  rewrite skip_ws_start by reflexivity.
  change (strip_prefix ":" (String ":" s)) with (Some s).
  cbv iota beta. rewrite Hv. reflexivity.
Qed.

Lemma parse_members_more (fuel : nat) (k s r r' : string) (v : value)
      (l : list (string * value)) :
  parse_value fuel s = Some (v, String "," r) ->
  parse_members fuel r = Some (l, r') ->
  parse_members (S fuel) (quote k +:+ String ":" s)
  = Some ((k, v) :: l, r').
Proof.
  intros Hv Hl. cbn [parse_members]. rewrite quote_append.
  rewrite skip_ws_start by reflexivity.
  rewrite <- quote_append, parse_string_quote.
  rewrite skip_ws_start by reflexivity.
  change (strip_prefix ":" (String ":" s)) with (Some s).
  cbv iota beta. rewrite Hv.
  change (match parse_members fuel r with
          | Some (l, r4) => Some ((k, v) :: l, r4)
          | None => None
          end = Some ((k, v) :: l, r')).
  now rewrite Hl.
Qed.

End ParserSteps.

Section RoundTrip.
Import Json.

Lemma stringify_head (v : value) :
  exists c s, stringify v = String c s /\ value_start c = true.
Proof.
  destruct v as [ | [|] | n | s | l | l ];
    try (do 2 eexists; split; reflexivity).
  destruct (number_head n) as (c & s & Hn & Hc).
  exists c, s. split; [exact Hn|].
  unfold value_start. now rewrite Hc.
Qed.

Lemma join_single (x : string) : join [x] = x.
Proof. reflexivity. Qed.

Lemma join_cons (x y : string) (l : list string) :
  join (x :: y :: l) = x +:+ String "," (join (y :: l)).
Proof. reflexivity. Qed.

Lemma join_head (c : ascii) (s : string) (l : list string) :
  exists s', join (String c s :: l) = String c s'.
Proof.
  destruct l as [|y l]; [now exists s|].
  rewrite join_cons, append_cons. eauto.
Qed.

Lemma delimited_bracket (c : ascii) (r : string) :
  is_digit c = false -> delimited (String c r) = true.
Proof. intros Hc. cbn [delimited]. now rewrite Hc. Qed.

(** The elements of a non-empty array, up to the closing bracket. *)
Lemma parse_elements_join (l : list value) :
  Forall reads_back l ->
  l <> [] ->
  forall (fuel : nat) (rest : string),
    (List.length l + list_sum (map weight l) <= fuel)%nat ->
    parse_elements fuel (join (map stringify l) +:+ String "]" rest)
    = Some (l, rest).
Proof.
  induction 1 as [|x l Hx Hl IH]; [congruence|]. intros _ fuel rest Hfuel.
  cbn [List.length map list_sum fold_right] in Hfuel.
  destruct fuel as [|fuel]; [lia|].
  destruct l as [|y l'].
  - cbn [map]. rewrite join_single.
    apply parse_elements_last. apply Hx; [lia | reflexivity].
  - cbn [map]. rewrite join_cons, append_assoc, append_cons.
    eapply parse_elements_more.
    + apply Hx; [lia | reflexivity].
    + apply (IH ltac:(congruence)). cbn [List.length map list_sum fold_right] in *.
      lia.
Qed.

(** The members of a non-empty object, up to the closing brace. *)
Lemma parse_members_join (l : list (string * value)) :
  Forall (fun kv => reads_back (snd kv)) l ->
  l <> [] ->
  forall (fuel : nat) (rest : string),
    (List.length l
     + list_sum (map (fun kv => match kv with (_, x) => weight x end) l)
     <= fuel)%nat ->
    parse_members fuel
      (join (map member_to_string l) +:+ String "}" rest)
    = Some (l, rest).
Proof.
  induction 1 as [|[k x] l Hx Hl IH]; [congruence|].
  intros _ fuel rest Hfuel.
  cbn [List.length map list_sum fold_right snd] in Hfuel, Hx.
  destruct fuel as [|fuel]; [lia|].
  destruct l as [|y l'].
  - cbn [map]. rewrite join_single. unfold member_to_string.
    rewrite !append_assoc, append_cons, append_empty_l.
    apply (parse_members_last fuel k
             (stringify x +:+ String "}" rest) rest x).
    apply Hx; [lia | reflexivity].
  - cbn [map]. rewrite join_cons. unfold member_to_string at 1.
    rewrite !append_assoc, !append_cons, append_empty_l.
    apply (parse_members_more fuel k
             (stringify x
              +:+ String "," (join (map member_to_string (y :: l'))
                              +:+ String "}" rest))
             (join (map member_to_string (y :: l')) +:+ String "}" rest)
             rest x (y :: l')).
    + apply Hx; [lia | reflexivity].
    + apply (IH ltac:(congruence)).
      cbn [List.length map list_sum fold_right] in *. lia.
Qed.

Lemma distinct_NoDup (l : list string) : distinct l = true -> NoDup l.
Proof.
  induction l as [|k l IH]; [constructor|]. cbn [distinct].
  intros H. apply andb_prop in H as [Hk Hl]. constructor; [|auto].
  intros Hin. apply negb_true_iff in Hk.
  assert (existsb (String.eqb k) l = true); [|congruence].
  apply existsb_exists. exists k. split; [|apply String.eqb_refl].
  now apply list_elem_of_In.
Qed.

Lemma obj_set_fresh (k : string) (v : value) (acc : list (string * value)) :
  k ∉ map fst acc -> obj_set k v acc = acc ++ [(k, v)].
Proof.
  induction acc as [|[k' v'] acc IH]; [reflexivity|].
  cbn [map fst obj_set]. intros Hk. apply not_elem_of_cons in Hk as [Hne Hk].
  destruct (String.eqb_spec k' k) as [->|_]; [congruence|].
  now rewrite (IH Hk).
Qed.

Lemma fold_obj_set_distinct (l acc : list (string * value)) :
  NoDup (map fst acc ++ map fst l) ->
  fold_left (fun a kv => obj_set (fst kv) (snd kv) a) l acc = acc ++ l.
Proof.
  revert acc. induction l as [|[k v] l IH]; intros acc Hnd.
  - now rewrite app_nil_r.
  - cbn [fold_left fst snd]. cbn [map fst] in Hnd.
    rewrite obj_set_fresh.
    + rewrite IH.
      * now rewrite <- app_assoc.
      * rewrite map_app. cbn [map fst]. now rewrite <- app_assoc.
    + apply NoDup_app in Hnd as (_ & Hdisj & _). intros Hin.
      apply (Hdisj k Hin). now left.
Qed.

Lemma from_entries_distinct (l : list (string * value)) :
  distinct (map fst l) = true -> from_entries l = l.
Proof.
  intros Hd. unfold from_entries.
  now rewrite fold_obj_set_distinct by (now apply distinct_NoDup).
Qed.

Lemma Forall_well_formed (P : value -> Prop) (l : list value) :
  Forall (fun v => well_formed v = true -> P v) l ->
  forallb well_formed l = true ->
  Forall P l.
Proof.
  induction 1 as [|x l Hx Hl IH]; [constructor|]. cbn [forallb].
  intros H. apply andb_prop in H as [H1 H2]. constructor; auto.
Qed.

Lemma Forall_well_formed_members (P : value -> Prop)
      (l : list (string * value)) :
  Forall (fun kv => well_formed (snd kv) = true -> P (snd kv)) l ->
  forallb (fun kv => match kv with (_, x) => well_formed x end) l = true ->
  Forall (fun kv => P (snd kv)) l.
Proof.
  induction 1 as [|[k x] l Hx Hl IH]; [constructor|]. cbn [forallb].
  intros H. apply andb_prop in H as [H1 H2]. constructor; auto.
Qed.

(** Every well-formed value is read back from its text. *)
Lemma parse_value_stringify (v : value) :
  well_formed v = true -> reads_back v.
Proof.
  induction v as [ | b | n | s | l IH | l IH ] using value_ind';
    intros Hwf fuel rest Hfuel Hrest;
    cbn [weight] in Hfuel; (destruct fuel as [|fuel]; [lia|]).
  - reflexivity.
  - destruct b; reflexivity.
  - cbn [stringify]. destruct (number_head n) as (c & s & Hn & Hc).
    rewrite Hn, append_cons, (parse_value_number_start _ _ _ Hc).
    rewrite <- append_cons, <- Hn. now apply parse_number_number.
  - apply parse_value_string.
  - cbn [well_formed] in Hwf.
    pose proof (Forall_well_formed _ _ IH Hwf) as Hall.
    cbn [stringify]. destruct l as [|x l']; [reflexivity|].
    rewrite append_cons, append_empty_l, append_cons, append_assoc,
      append_cons, append_empty_l.
    destruct (stringify_head x) as (c & s0 & Hx & Hc).
    assert (Hhead : exists s', join (map stringify (x :: l'))
                               +:+ String "]" rest = String c s').
    { cbn [map]. rewrite Hx.
      destruct (join_head c s0 (map stringify l')) as (s' & ->).
      rewrite append_cons. eauto. }
    destruct Hhead as (s' & Hs'). rewrite Hs'.
    apply (parse_value_array _ _ _ _ _ Hc). rewrite <- Hs'.
    apply parse_elements_join; [exact Hall | congruence | lia].
  - cbn [well_formed] in Hwf. apply andb_prop in Hwf as [Hkeys Hwf].
    pose proof (Forall_well_formed_members _ _ IH Hwf) as Hall.
    cbn [stringify]. destruct l as [|[k x] l']; [reflexivity|].
    rewrite append_cons, append_empty_l, append_cons, append_assoc,
      append_cons, append_empty_l.
    change (fun kv : string * value =>
              match kv with
              | (k0, x0) => quote k0 +:+ ":" +:+ stringify x0
              end) with member_to_string.
    assert (Hhead : exists s', join (map member_to_string ((k, x) :: l'))
                               +:+ String "}" rest = String dquote s').
    { cbn [map]. unfold member_to_string at 1, quote.
      rewrite append_cons.
      destruct (join_head dquote
                  ((escape k +:+ String dquote EmptyString)
                   +:+ ":" +:+ stringify x)
                  (map member_to_string l')) as (s' & ->).
      rewrite append_cons. eauto. }
    destruct Hhead as (s' & Hs'). rewrite Hs'.
    rewrite <- (from_entries_distinct _ Hkeys).
    apply parse_value_object. rewrite <- Hs'.
    apply parse_members_join; [exact Hall | congruence | lia].
Qed.

End RoundTrip.

Section ParseStringify.
Import Json.

Lemma join_length_bound {A : Type} (w : A -> nat) (pr : A -> string)
      (l : list A) :
  Forall (fun a => (w a <= String.length (pr a))%nat) l ->
  (List.length l + list_sum (map w l)
   <= String.length (join (map pr l)) + 1)%nat.
Proof.
  induction 1 as [|x l Hx Hl IH]; [cbn; lia|].
  destruct l as [|y l'].
  - cbn [map]. rewrite join_single. cbn. lia.
  - cbn [map] in *. rewrite join_cons, length_append.
    cbn [String.length List.length list_sum fold_right] in *. lia.
Qed.

(** The text of a value is long enough to serve as the parser's fuel. *)
Lemma weight_le_length (v : value) :
  (weight v <= String.length (stringify v))%nat.
Proof.
  induction v as [ | b | n | s | l IH | l IH ] using value_ind'.
  - cbn. lia.
  - destruct b; cbn; lia.
  - cbn [weight stringify]. destruct (number_head n) as (c & s & -> & _).
    cbn. lia.
  - cbn [weight stringify]. unfold quote. cbn [String.length]. lia.
  - cbn [weight stringify].
    pose proof (join_length_bound weight stringify l IH) as Hb.
    rewrite append_cons, append_empty_l. cbn [String.length].
    rewrite length_append. cbn [String.length]. lia.
  - cbn [weight stringify].
    assert (Hm : Forall (fun kv : string * value =>
                           (match kv with (_, x) => weight x end
                            <= String.length (member_to_string kv))%nat) l).
    { eapply Forall_impl; [exact IH|]. intros [k x] Hx. cbn [snd] in Hx.
      unfold member_to_string. rewrite !length_append. lia. }
    pose proof (join_length_bound _ member_to_string l Hm) as Hb.
    change (fun kv : string * value =>
              match kv with
              | (k0, x0) => quote k0 +:+ ":" +:+ stringify x0
              end) with member_to_string.
    rewrite append_cons, append_empty_l. cbn [String.length].
    rewrite length_append. cbn [String.length]. lia.
Qed.

(** [JSON.parse(JSON.stringify(v))] is [v]. *)
Lemma parse_stringify (v : value) :
  well_formed v = true -> parse (stringify v) = Some v.
Proof.
  intros Hwf. unfold parse.
  rewrite <- (append_empty_r (stringify v)) at 2.
  rewrite (parse_value_stringify v Hwf);
    [reflexivity | | reflexivity].
  pose proof (weight_le_length v). lia.
Qed.

End ParseStringify.

Section MessageFacts.
Import Json Message.

Lemma metadata_object_well_formed (m : Metadata) :
  well_formed (metadata_object m) = true.
Proof. destruct m as [[c|] [r|] [p|] [t|]]; reflexivity. Qed.

Lemma read_metadata_object (m : Metadata) :
  read_metadata (metadata_object m) = Some m.
Proof. destruct m as [[c|] [r|] [p|] [t|]]; reflexivity. Qed.

Lemma to_object_well_formed (m : QueueMessage) :
  well_formed (data m) = true -> well_formed (to_object m) = true.
Proof.
  intros Hd. destruct m as [i t ts d [md|]]; cbn [data] in Hd.
  - cbn -[metadata_object]. rewrite Hd, metadata_object_well_formed.
    reflexivity.
  - cbn. rewrite Hd. reflexivity.
Qed.

Lemma of_object_to_object (m : QueueMessage) :
  of_object (to_object m) = Some m.
Proof.
  destruct m as [i t ts d [md|]].
  - cbn -[metadata_object read_metadata].
    now rewrite read_metadata_object.
  - reflexivity.
Qed.

End MessageFacts.



(* ===================================================================== *)
(** * Further properties of publishWithRetry                               *)
(* ===================================================================== *)

Section RetryBounds.
Import Retry RetryWaits.
Context {W E : Type}.
Variable op : W -> Outcome E * W.
Variable maxRetries : nat.
Variable delayMs : Z.

Lemma loop_invocations_le (remaining : nat) :
  forall (i : nat) (w : W),
    (invocations (events_of (loop op maxRetries delayMs remaining i w))
     <= remaining)%nat.
Proof.
  induction remaining as [|remaining' IH]; intros i w; [cbn; lia|].
  cbn [loop]. destruct (op w) as [[[|]|e] w1].
  - cbn. lia.
  - specialize (IH (S i) w1).
    destruct (loop op maxRetries delayMs remaining' (S i) w1)
      as [[r w2] evs].
    unfold events_of, invocations in *. cbn [snd] in *.
    destruct (S i <? maxRetries)%nat; cbn; lia.
  - destruct (S i =? maxRetries)%nat; [cbn; lia|].
    specialize (IH (S i) w1).
    destruct (loop op maxRetries delayMs remaining' (S i) w1)
      as [[r w2] evs].
    unfold events_of, invocations in *. cbn [snd] in *. cbn. lia.
Qed.

(** A wait follows an attempt exactly when the attempt resolved to [false]
    and another attempt is allowed; the wait after attempt number [k] is
    [delayMs * 2^k]. *)
Lemma loop_sleeps (remaining : nat) :
  forall (i : nat) (w : W),
    (remaining + i = maxRetries)%nat ->
    sleeps (events_of (loop op maxRetries delayMs remaining i w))
    = map (fun k => delayMs * 2 ^ Z.of_nat k)
          (refused op
             (Nat.min
                (invocations
                   (events_of (loop op maxRetries delayMs remaining i w)))
                (remaining - 1))
             i w).
Proof.
  induction remaining as [|remaining' IH]; intros i w Hsum; [reflexivity|].
  cbn [loop]. replace (S remaining' - 1)%nat with remaining' by lia.
  destruct (op w) as [[[|]|e] w1] eqn:Hop.
  - cbn [events_of snd sleeps invocations List.filter is_invoke List.length].
    destruct remaining' as [|n]; cbn [Nat.min refused]; [reflexivity|].
    rewrite Hop. reflexivity.
  - specialize (IH (S i) w1 ltac:(lia)).
    destruct (loop op maxRetries delayMs remaining' (S i) w1)
      as [[r w2] evs].
    unfold events_of, invocations in *. cbn [snd] in *.
    destruct remaining' as [|n].
    + destruct (Nat.ltb_spec (S i) maxRetries) as [Hlt|_]; [lia|].
      cbn [app sleeps List.filter is_invoke List.length].
      rewrite Nat.min_0_r. cbn [refused map].
      rewrite IH. cbn [Nat.sub Nat.min]. rewrite Nat.min_0_r. reflexivity.
    + destruct (Nat.ltb_spec (S i) maxRetries) as [_|Hge]; [|lia].
      cbn [app sleeps List.filter is_invoke List.length].
      rewrite <- Nat.succ_min_distr. cbn [refused]. rewrite Hop.
      cbn [map]. rewrite IH.
      replace (S n - 1)%nat with n by lia. reflexivity.
  - destruct (Nat.eqb_spec (S i) maxRetries) as [Heq|Hne].
    + assert (remaining' = 0%nat) by lia. subst remaining'.
      cbn [events_of snd sleeps invocations List.filter is_invoke
             List.length].
      rewrite Nat.min_0_r. reflexivity.
    + specialize (IH (S i) w1 ltac:(lia)).
      destruct (loop op maxRetries delayMs remaining' (S i) w1)
        as [[r w2] evs].
      unfold events_of, invocations in *. cbn [snd] in *.
      destruct remaining' as [|n]; [lia|].
      cbn [sleeps List.filter is_invoke List.length].
      rewrite <- Nat.succ_min_distr. cbn [refused]. rewrite Hop.
      rewrite IH. replace (S n - 1)%nat with n by lia. reflexivity.
Qed.

(** The waits that are left from attempt number [i] on add up to no more
    than [delayMs * (2^(maxRetries-1) - 2^i)]. *)
Lemma loop_total_wait (remaining : nat) :
  forall (i : nat) (w : W),
    0 <= delayMs ->
    (remaining + i = maxRetries)%nat ->
    (1 <= remaining)%nat ->
    total (sleeps (events_of (loop op maxRetries delayMs remaining i w)))
    <= delayMs * (2 ^ (Z.of_nat maxRetries - 1) - 2 ^ Z.of_nat i).
Proof.
  induction remaining as [|remaining' IH]; intros i w Hd Hsum Hpos; [lia|].
  assert (Hpow : forall j : nat,
             2 ^ Z.of_nat (S j) = 2 * 2 ^ Z.of_nat j).
  { intros j. rewrite Nat2Z.inj_succ. apply Z.pow_succ_r. lia. }
  assert (Hlast : remaining' = 0%nat ->
                  2 ^ (Z.of_nat maxRetries - 1) = 2 ^ Z.of_nat i).
  { intros ->. f_equal. lia. }
  assert (Hmono : remaining' <> 0%nat ->
                  2 ^ Z.of_nat (S i) <= 2 ^ (Z.of_nat maxRetries - 1)).
  { intros Hne. apply Z.pow_le_mono_r; lia. }
  assert (Hp : 0 < 2 ^ Z.of_nat i) by (apply Z.pow_pos_nonneg; lia).
  cbn [loop]. destruct (op w) as [[[|]|e] w1].
  - cbn [events_of snd sleeps total fold_right].
    destruct remaining' as [|n].
    + rewrite (Hlast eq_refl). lia.
    + specialize (Hmono ltac:(lia)). rewrite Hpow in Hmono. nia.
  - destruct remaining' as [|n].
    + cbn [loop]. destruct (Nat.ltb_spec (S i) maxRetries) as [Hlt|_];
        [lia|].
      cbn [events_of snd app sleeps total fold_right].
      rewrite (Hlast eq_refl). lia.
    + specialize (IH (S i) w1 Hd ltac:(lia) ltac:(lia)).
      destruct (loop op maxRetries delayMs (S n) (S i) w1) as [[r w2] evs].
      unfold events_of in *. cbn [snd] in *.
      destruct (Nat.ltb_spec (S i) maxRetries) as [_|Hge]; [|lia].
      cbn [app sleeps total fold_right]. fold (total (sleeps evs)).
      rewrite Hpow in IH. lia.
  - destruct (Nat.eqb_spec (S i) maxRetries) as [Heq|Hne].
    + cbn [events_of snd sleeps total fold_right].
      rewrite (Hlast ltac:(lia)). lia.
    + destruct remaining' as [|n]; [lia|].
      specialize (IH (S i) w1 Hd ltac:(lia) ltac:(lia)).
      destruct (loop op maxRetries delayMs (S n) (S i) w1) as [[r w2] evs].
      unfold events_of in *. cbn [snd] in *.
      cbn [sleeps]. rewrite Hpow in IH. nia.
Qed.

(** Attempts that all throw are never refused. *)
Lemma refused_all_rejected (n : nat) :
  forall (i : nat) (w : W),
    (forall j, (j < n)%nat ->
               exists e, fst (invocation op j w) = Rejected e) ->
    refused op n i w = [].
Proof.
  induction n as [|n IH]; intros i w Hall; [reflexivity|].
  cbn [refused]. destruct (Hall 0%nat ltac:(lia)) as [e He].
  cbn [invocation] in He.
  assert (Hrest : forall j, (j < n)%nat ->
            exists e', fst (invocation op j (snd (op w))) = Rejected e').
  { intros j Hj. apply (Hall (S j)). lia. }
  destruct (op w) as [o w1]. cbn [fst snd] in *. subst o.
  now apply IH.
Qed.

Lemma refused_le (n m : nat) :
  forall (i : nat) (w : W),
    (n <= m)%nat -> refused op m i w = [] -> refused op n i w = [].
Proof.
  revert m. induction n as [|n IH]; intros m i w Hle Hm; [reflexivity|].
  destruct m as [|m]; [lia|]. cbn [refused] in *.
  destruct (op w) as [[[|]|e] w1]; try discriminate;
    apply (IH m); (lia || assumption).
Qed.

End RetryBounds.

(** X1.  [publishWithRetry] calls the operation at most [maxRetries]
    times; with [maxRetries = 0] it returns [false] without calling it. *)
Theorem publishWithRetry_calls_bounded {W E : Type}
    (op : W -> Retry.Outcome E * W) (maxRetries : nat) (delayMs : Z)
    (w : W) :
  (Retry.invocations
     (Retry.events_of (Retry.publishWithRetry op maxRetries delayMs w))
   <= maxRetries)%nat
  /\ Retry.publishWithRetry op 0 delayMs w = (Retry.Return false, w, []).
Proof.
  split; [apply loop_invocations_le | reflexivity].
Qed.

(** X2.  The waits of [publishWithRetry] are exactly these: after attempt
    number [k] (counted from 0) it waits [delayMs * 2^k] when that attempt
    resolved to [false] and was not the last one allowed.  An attempt that
    throws is followed by the next one at once: when every attempt throws
    there is no wait at all. *)
Theorem publishWithRetry_waits {W E : Type}
    (op : W -> Retry.Outcome E * W) (maxRetries : nat) (delayMs : Z)
    (w : W) :
  let evs :=
    Retry.events_of (Retry.publishWithRetry op maxRetries delayMs w) in
  Retry.sleeps evs
  = map (fun k => delayMs * 2 ^ Z.of_nat k)
        (RetryWaits.refused op
           (Nat.min (Retry.invocations evs) (maxRetries - 1)) 0 w)
  /\ ((forall j, (j < maxRetries)%nat ->
                 exists e, fst (Retry.invocation op j w) = Retry.Rejected e) ->
      Retry.sleeps evs = []).
Proof.
  cbv zeta.
  assert (Hs := loop_sleeps op maxRetries delayMs maxRetries 0%nat w
                  ltac:(lia)).
  split; [exact Hs|]. intros Hall. unfold Retry.publishWithRetry.
  rewrite Hs.
  rewrite (refused_le op _ maxRetries 0%nat w); [reflexivity|lia|].
  now apply refused_all_rejected.
Qed.

Lemma publishWithRetry_waits_witness :
  (forall j, (j < 3)%nat ->
             exists e, fst (Retry.invocation RetryWaits.always_throws j 0%nat)
                       = Retry.Rejected e)
  /\ Retry.sleeps
       (Retry.events_of
          (Retry.publishWithRetry RetryWaits.always_throws 3 1000 0%nat))
     = [].
Proof.
  assert (Hall : forall j, (j < 3)%nat ->
            exists e, fst (Retry.invocation RetryWaits.always_throws j 0%nat)
                      = Retry.Rejected e).
  { intros j Hj. destruct j as [|[|[|j]]]; [eexists; reflexivity..|lia]. }
  split; [exact Hall|].
  exact (proj2 (publishWithRetry_waits RetryWaits.always_throws 3 1000 0%nat)
           Hall).
Defined.

(** X3.  With a delay that is not negative and at least one attempt, all
    the waits of one [publishWithRetry] add up to at most
    [delayMs * (2^(maxRetries-1) - 1)]. *)
Theorem publishWithRetry_total_wait {W E : Type}
    (op : W -> Retry.Outcome E * W) (maxRetries : nat) (delayMs : Z)
    (w : W) :
  0 <= delayMs ->
  (1 <= maxRetries)%nat ->
  RetryWaits.total
    (Retry.sleeps
       (Retry.events_of (Retry.publishWithRetry op maxRetries delayMs w)))
  <= delayMs * (2 ^ (Z.of_nat maxRetries - 1) - 1).
Proof.
  intros Hd Hpos.
  exact (loop_total_wait op maxRetries delayMs maxRetries 0%nat w Hd
           ltac:(lia) Hpos).
Qed.

Lemma publishWithRetry_total_wait_witness :
  0 <= 1000 /\ (1 <= 5)%nat
  /\ RetryWaits.total
       (Retry.sleeps
          (Retry.events_of
             (Retry.publishWithRetry Retry.three_false_then_true 5 1000
                0%nat)))
     <= 1000 * (2 ^ (Z.of_nat 5 - 1) - 1).
Proof.
  assert (Hd : 0 <= 1000) by lia.
  assert (Hpos : (1 <= 5)%nat) by lia.
  split; [exact Hd|]. split; [exact Hpos|].
  exact (publishWithRetry_total_wait Retry.three_false_then_true 5 1000
           0%nat Hd Hpos).
Defined.

(* ===================================================================== *)
(** * How the methods change the pool                                      *)
(* ===================================================================== *)

Section PoolFrames.
Import Json Amqp RabbitMQ Reach.

Lemma getChannel_throws_unchanged (name : string) (p : Pool) (e : Error)
      (p' : Pool) (w : list Wire) :
  getChannel name p = (Thrown e, p', w) -> p' = p /\ w = [].
Proof.
  destruct (channels p !! name) as [ch|] eqn:Hc.
  { rewrite (getChannel_cached _ _ _ Hc). discriminate. }
  destruct (connection p) as [i|] eqn:Hn.
  2:{ rewrite (getChannel_null _ _ Hc Hn). intros H. now inversion H. }
  destruct (is_open i p) eqn:Ho.
  2:{ rewrite (getChannel_closed _ _ _ Hc Hn Ho). intros H.
      now inversion H. }
  unfold is_open in Ho.
  destruct (connections p !! i) as [c|] eqn:Hi; [|discriminate].
  rewrite (getChannel_fresh _ _ _ _ Hc Hn Hi Ho). discriminate.
Qed.

Lemma getChannel_ok_cached (name : string) (p p' : Pool)
      (channel : Channel) (w : list Wire) :
  getChannel name p = (Ok channel, p', w) ->
  channels p' !! name = Some channel
  /\ (w = [] \/ w = [(channel, Prefetch 10)]).
Proof.
  destruct (channels p !! name) as [ch|] eqn:Hc.
  { rewrite (getChannel_cached _ _ _ Hc). intros H. inversion H; subst.
    auto. }
  destruct (connection p) as [i|] eqn:Hn.
  2:{ rewrite (getChannel_null _ _ Hc Hn). discriminate. }
  destruct (is_open i p) eqn:Ho.
  2:{ rewrite (getChannel_closed _ _ _ Hc Hn Ho). discriminate. }
  unfold is_open in Ho.
  destruct (connections p !! i) as [c|] eqn:Hi; [|discriminate].
  rewrite (getChannel_fresh _ _ _ _ Hc Hn Hi Ho). intros H.
  inversion H; subst. cbn [channels]. rewrite lookup_insert_eq. auto.
Qed.

(** What one [getChannel] leaves alone: [this.connection], the flag, which
    connections are open and how many there are, and every entry of the
    cache. *)
Lemma grows_frame (p p' : Pool) :
  Grows p p' ->
  connection p' = connection p
  /\ connected p' = connected p
  /\ (forall j, is_open j p' = is_open j p)
  /\ List.length (connections p') = List.length (connections p)
  /\ (forall name channel,
         channels p !! name = Some channel ->
         channels p' !! name = Some channel).
Proof.
  intros [name ->].
  destruct (channels p !! name) as [ch|] eqn:Hc.
  { rewrite (getChannel_cached _ _ _ Hc). unfold pool_of. cbn. auto 10. }
  destruct (connection p) as [i|] eqn:Hn.
  2:{ rewrite (getChannel_null _ _ Hc Hn). unfold pool_of. cbn. auto 10. }
  destruct (is_open i p) eqn:Ho.
  2:{ rewrite (getChannel_closed _ _ _ Hc Hn Ho). unfold pool_of. cbn.
      auto 10. }
  unfold is_open in Ho.
  destruct (connections p !! i) as [c|] eqn:Hi; [|discriminate].
  rewrite (getChannel_fresh _ _ _ _ Hc Hn Hi Ho). unfold pool_of.
  cbn [fst snd connection connected connections channels].
  repeat split; auto.
  - intros j. now apply is_open_created.
  - apply length_insert.
  - intros name' ch' Hc'. rewrite lookup_insert_ne; [exact Hc'|].
    intros ->. congruence.
Qed.

Lemma grows_star_frame (p p' : Pool) :
  rtc Grows p p' ->
  connection p' = connection p
  /\ connected p' = connected p
  /\ (forall j, is_open j p' = is_open j p)
  /\ List.length (connections p') = List.length (connections p)
  /\ (forall name channel,
         channels p !! name = Some channel ->
         channels p' !! name = Some channel).
Proof.
  induction 1 as [p|p q r Hpq _ IH]; [auto 10|].
  destruct (grows_frame _ _ Hpq) as (H1 & H2 & H3 & H4 & H5).
  destruct IH as (I1 & I2 & I3 & I4 & I5).
  repeat split; try congruence; auto.
Qed.

(** ** The methods are stable *)

Lemma stable_ret {A : Type} (a : A) : Stable (ret a).
Proof. intros p. apply rtc_refl. Qed.

Lemma stable_request (channel : Channel) (op : ChanOp) :
  Stable (request channel op).
Proof.
  intros p. unfold request, pool_of.
  destruct (live channel p); apply rtc_refl.
Qed.

Lemma stable_getChannel (name : string) : Stable (getChannel name).
Proof. intros p. apply rtc_once. now exists name. Qed.

Lemma stable_bind {A B : Type} (m : M A) (f : A -> M B) :
  Stable m -> (forall a, Stable (f a)) -> Stable (bind m f).
Proof.
  intros Hm Hf p. unfold bind, pool_of. specialize (Hm p).
  unfold pool_of in Hm. destruct (m p) as [[[a|e] p1] w1]; cbn [fst snd] in *.
  - specialize (Hf a p1). unfold pool_of in Hf.
    destruct (f a p1) as [[r p2] w2]. cbn [fst snd] in *.
    eapply rtc_trans; eassumption.
  - exact Hm.
Qed.

Lemma stable_try_catch {A : Type} (m : M A) (h : Error -> M A) :
  Stable m -> (forall e, Stable (h e)) -> Stable (try_catch m h).
Proof.
  intros Hm Hh p. unfold try_catch, pool_of. specialize (Hm p).
  unfold pool_of in Hm. destruct (m p) as [[[a|e] p1] w1]; cbn [fst snd] in *.
  - exact Hm.
  - specialize (Hh e p1). unfold pool_of in Hh.
    destruct (h e p1) as [[r p2] w2]. cbn [fst snd] in *.
    eapply rtc_trans; eassumption.
Qed.

Lemma stable_for_each {A : Type} (f : A -> M unit) (l : list A) :
  (forall x, Stable (f x)) -> Stable (for_each f l).
Proof.
  intros Hf. induction l as [|x l IH]; [apply stable_ret|].
  cbn [for_each]. apply stable_bind; auto.
Qed.

Lemma stable_publish (exchange routingKey : string)
      (message : Message.QueueMessage)
      (options : option (gmap string value)) (room : bool) :
  Stable (publish exchange routingKey message options room).
Proof.
  unfold publish. apply stable_try_catch; [|intros; apply stable_ret].
  apply stable_bind; [apply stable_getChannel|]. intros ch.
  apply stable_bind; [apply stable_request | intros; apply stable_ret].
Qed.

Lemma stable_sendToQueue (queue : string) (message : Message.QueueMessage)
      (options : option (gmap string value)) (room : bool) :
  Stable (sendToQueue queue message options room).
Proof.
  unfold sendToQueue. apply stable_try_catch; [|intros; apply stable_ret].
  apply stable_bind; [apply stable_getChannel|]. intros ch.
  apply stable_bind; [apply stable_request | intros; apply stable_ret].
Qed.

Lemma stable_consume (queue : string)
      (options : option (gmap string value)) :
  Stable (consume queue options).
Proof.
  unfold consume. apply stable_bind; [apply stable_getChannel|]. intros ch.
  apply stable_bind; [apply stable_request | intros; apply stable_ret].
Qed.

Lemma stable_rpc_setup (queue : string) (request_ : Message.QueueMessage)
      (tempQueue : string) (room : bool) :
  Stable (rpc_setup queue request_ tempQueue room).
Proof.
  unfold rpc_setup. apply stable_bind; [apply stable_getChannel|]. intros ch.
  repeat (apply stable_bind; [apply stable_request | intros _]).
  apply stable_bind; [apply stable_sendToQueue | intros; apply stable_ret].
Qed.

Lemma rpc_pool (queue : string) (request_ : Message.QueueMessage)
      (timeoutMs : Z) (tempQueue : string) (room : bool) (p : Pool) :
  snd (fst (rpc queue request_ timeoutMs tempQueue room p))
  = pool_of (rpc_setup queue request_ tempQueue room p).
Proof.
  unfold rpc, pool_of.
  now destruct (rpc_setup queue request_ tempQueue room p) as [[[ch|e] p'] w].
Qed.

Lemma stable_initializeExchanges : Stable initializeExchanges.
Proof.
  unfold initializeExchanges. apply stable_bind; [apply stable_getChannel|].
  intros ch. apply stable_for_each. intros x. apply stable_request.
Qed.

Lemma stable_initializeQueues : Stable initializeQueues.
Proof.
  unfold initializeQueues. apply stable_bind; [apply stable_getChannel|].
  intros ch. apply stable_bind.
  - apply stable_for_each. intros x. apply stable_request.
  - intros _. repeat (apply stable_bind; [apply stable_request | intros _]).
    apply stable_request.
Qed.

(** The pool in which [connect] starts the declaration once the dial has
    succeeded. *)
Lemma connect_pool (p : Pool) :
  rtc Grows
    {| connection := Some (List.length (connections p));
       channels := channels p;
       connected := true;
       connections := connections p ++ [{| open := true; created := 0 |}] |}
    (pool_of (connect true p)).
Proof.
  unfold connect.
  apply (stable_bind initializeExchanges (fun _ => initializeQueues));
    [apply stable_initializeExchanges
    | intros _; apply stable_initializeQueues].
Qed.

End PoolFrames.

(* ===================================================================== *)
(** * Properties of disconnect                                             *)
(* ===================================================================== *)

Section DisconnectFacts.
Import Json Amqp RabbitMQ Lifecycle.

Lemma for_each_close (l : list Channel) (p : Pool) :
  for_each close_channel l p
  = if forallb (fun channel => live channel p) l
    then (Ok tt, p, [])
    else (Thrown IllegalOperationError, p, []).
Proof.
  induction l as [|ch l IH]; [reflexivity|].
  cbn [for_each forallb]. unfold bind at 1. unfold close_channel at 1.
  destruct (live ch p); [|reflexivity]. cbn [andb]. rewrite IH.
  now destruct (forallb (fun channel => live channel p) l).
Qed.

(** The loop and what follows it, from pool [q]. *)
Lemma disconnect_tail (q : Pool) :
  ((fun p => for_each close_channel (cached p) p) ;;;
   clear_channels ;;; set_connected false) q
  = if all_live q then (Ok tt, finish q, [])
    else (Thrown IllegalOperationError, q, []).
Proof.
  unfold bind at 1. rewrite for_each_close. unfold finish, all_live.
  destruct (forallb (fun channel => live channel q) (cached q));
    reflexivity.
Qed.

(** What [disconnect] gives, case by case. *)
Lemma disconnect_cases (p : Pool) :
  disconnect p
  = (Ok tt,
     match connection p with
     | Some i => if is_open i p then finish (after_close i p) else p
     | None => finish p
     end,
     []).
Proof.
  unfold disconnect, try_catch. unfold bind at 1.
  destruct (connection p) as [i|].
  - unfold close_connection. destruct (is_open i p); [|reflexivity].
    fold (after_close i p). rewrite disconnect_tail. unfold finish.
    destruct (all_live (after_close i p)); reflexivity.
  - unfold ret at 1. rewrite disconnect_tail. unfold finish.
    destruct (all_live p); reflexivity.
Qed.

Lemma is_open_after_close (i j : nat) (p : Pool) :
  is_open j (after_close i p)
  = if decide (i = j) then false else is_open j p.
Proof.
  unfold after_close, on_close, is_open. cbn [connections].
  destruct (decide (i = j)) as [<-|Hne].
  - rewrite list_lookup_alter_eq.
    now destruct (connections p !! i).
  - now rewrite list_lookup_alter_ne.
Qed.

(** A cached channel that is not live keeps [disconnect] from clearing the
    cache. *)
Lemma all_live_false (p : Pool) (name : string) (channel : Channel) :
  channels p !! name = Some channel ->
  live channel p = false ->
  all_live p = false.
Proof.
  intros Hc Hl. unfold all_live. apply not_true_is_false. intros Hall.
  rewrite forallb_forall in Hall.
  assert (Hin : In channel (cached p)).
  { unfold cached. apply in_map_iff. exists (name, channel).
    split; [reflexivity|]. apply list_elem_of_In.
    now apply elem_of_map_to_list. }
  specialize (Hall channel Hin). congruence.
Qed.

End DisconnectFacts.


(** X5.  When [this.connection] is open and the cache holds a channel of
    that connection, [disconnect] closes the connection and the pool ends
    up marked disconnected, but the cache is not cleared and
    [this.connection] still refers to the closed object: the connection is
    closed first, so that closing the channel throws. *)
Theorem disconnect_keeps_cache (p : RabbitMQ.Pool) (i : nat)
    (name : string) (channel : Amqp.Channel) :
  RabbitMQ.connection p = Some i ->
  RabbitMQ.is_open i p = true ->
  RabbitMQ.channels p !! name = Some channel ->
  Amqp.chan_conn channel = i ->
  let p' := RabbitMQ.pool_of (Lifecycle.disconnect p) in
  RabbitMQ.channels p' = RabbitMQ.channels p
  /\ RabbitMQ.connection p' = Some i
  /\ RabbitMQ.is_open i p' = false
  /\ RabbitMQ.isConnected p' = false.
Proof.
  intros Hn Ho Hc Hi. cbv zeta. rewrite disconnect_cases.
  unfold RabbitMQ.pool_of. cbn [fst snd]. rewrite Hn, Ho.
  assert (Hdead : RabbitMQ.live channel (Lifecycle.after_close i p) = false).
  { unfold RabbitMQ.live. rewrite Hi, is_open_after_close.
    now destruct (decide (i = i)). }
  unfold Lifecycle.finish.
  rewrite (all_live_false (Lifecycle.after_close i p) name channel Hc Hdead).
  repeat split; try assumption.
  rewrite is_open_after_close. now destruct (decide (i = i)).
Qed.

Lemma disconnect_keeps_cache_witness :
  let p := Scenario.connected_pool in
  let init := {| Amqp.chan_conn := 0; Amqp.chan_id := 0 |} in
  (RabbitMQ.connection p = Some 0%nat
   /\ RabbitMQ.is_open 0 p = true
   /\ RabbitMQ.channels p !! "init" = Some init)
  /\ RabbitMQ.channels (RabbitMQ.pool_of (Lifecycle.disconnect p))
     = RabbitMQ.channels p
  /\ RabbitMQ.isConnected (RabbitMQ.pool_of (Lifecycle.disconnect p))
     = false.
Proof.
  cbv zeta.
  assert (Hn : RabbitMQ.connection Scenario.connected_pool = Some 0%nat)
    by (vm_compute; reflexivity).
  assert (Ho : RabbitMQ.is_open 0 Scenario.connected_pool = true)
    by (vm_compute; reflexivity).
  assert (Hc : RabbitMQ.channels Scenario.connected_pool !! "init"
               = Some {| Amqp.chan_conn := 0; Amqp.chan_id := 0 |})
    by (vm_compute; reflexivity).
  split; [auto|].
  pose proof (disconnect_keeps_cache Scenario.connected_pool 0 "init" _
                Hn Ho Hc eq_refl) as (H1 & _ & _ & H4).
  split; [exact H1 | exact H4].
Defined.

(* ===================================================================== *)
(** * The pools that can be reached are coherent                           *)
(* ===================================================================== *)

Section CoherentFacts.
Import Json Amqp RabbitMQ Lifecycle Reach.

Lemma coherent_initial : Coherent initial.
Proof.
  split; cbn [initial channels connected connection connections].
  - intros name ch H. rewrite lookup_empty in H. discriminate.
  - intros n1 n2 ch H. rewrite lookup_empty in H. discriminate.
  - discriminate.
  - discriminate.
Qed.

Lemma coherent_grows (p p' : Pool) : Coherent p -> Grows p p' -> Coherent p'.
Proof.
  intros Hco [name ->]. pose proof Hco as [Hcr Hon Hcu Hex].
  destruct (channels p !! name) as [ch|] eqn:Hc.
  { now rewrite (getChannel_cached _ _ _ Hc). }
  destruct (connection p) as [i|] eqn:Hn.
  2:{ now rewrite (getChannel_null _ _ Hc Hn). }
  destruct (is_open i p) eqn:Ho.
  2:{ now rewrite (getChannel_closed _ _ _ Hc Hn Ho). }
  unfold is_open in Ho.
  destruct (connections p !! i) as [c|] eqn:Hi; [|discriminate].
  rewrite (getChannel_fresh _ _ _ _ Hc Hn Hi Ho). unfold pool_of.
  cbn [fst snd].
  assert (Hlt : (i < List.length (connections p))%nat)
    by (eapply lookup_lt_Some; eauto).
  split; cbn [channels connections connected connection].
  - intros name' ch' Hc'. destruct (decide (name = name')) as [<-|Hne].
    + rewrite lookup_insert_eq in Hc'. injection Hc' as <-.
      cbn [chan_conn chan_id].
      rewrite list_lookup_insert_eq by exact Hlt.
      eexists; split; [reflexivity|]. cbn [created]. lia.
    + rewrite lookup_insert_ne in Hc' by exact Hne.
      destruct (Hcr _ _ Hc') as (c0 & Hc0 & Hid).
      destruct (decide (i = chan_conn ch')) as [Heq|Hneq].
      * rewrite <- Heq in *. rewrite list_lookup_insert_eq by exact Hlt.
        eexists; split; [reflexivity|]. cbn [created].
        assert (c0 = c) by congruence. subst c0. lia.
      * rewrite list_lookup_insert_ne by exact Hneq. eauto.
  - intros n1 n2 ch' H1 H2.
    destruct (decide (name = n1)) as [E1|N1],
             (decide (name = n2)) as [E2|N2].
    + congruence.
    + subst n1. rewrite lookup_insert_eq in H1.
      rewrite lookup_insert_ne in H2 by exact N2. injection H1 as <-.
      destruct (Hcr _ _ H2) as (c0 & Hc0 & Hid). cbn [chan_conn chan_id] in *.
      assert (c0 = c) by congruence. subst c0. lia.
    + subst n2. rewrite lookup_insert_eq in H2.
      rewrite lookup_insert_ne in H1 by exact N1. injection H2 as <-.
      destruct (Hcr _ _ H1) as (c0 & Hc0 & Hid). cbn [chan_conn chan_id] in *.
      assert (c0 = c) by congruence. subst c0. lia.
    + rewrite lookup_insert_ne in H1 by exact N1.
      rewrite lookup_insert_ne in H2 by exact N2. eauto.
  - intros Hcon. unfold usable. cbn [connection].
    rewrite (is_open_created i i p c _ _ _ Hi Ho).
    specialize (Hcu Hcon). unfold usable in Hcu. now rewrite Hn in Hcu.
  - intros j Hj. rewrite length_insert. apply Hex. congruence.
Qed.

Lemma coherent_grows_star (p p' : Pool) :
  rtc Grows p p' -> Coherent p -> Coherent p'.
Proof.
  induction 1 as [p|p q r Hpq _ IH]; [auto|].
  intros Hp. apply IH. now apply (coherent_grows p).
Qed.

Lemma coherent_dialled (p : Pool) :
  Coherent p ->
  Coherent
    {| connection := Some (List.length (connections p));
       channels := channels p;
       connected := true;
       connections := connections p ++ [{| open := true; created := 0 |}] |}.
Proof.
  intros [Hcr Hon Hcu Hex].
  split; cbn [channels connections connected connection].
  - intros name ch Hc. destruct (Hcr _ _ Hc) as (c & Hc0 & Hid). exists c.
    split; [now apply lookup_app_l_Some | exact Hid].
  - exact Hon.
  - intros _. unfold usable, is_open. cbn [connection connections].
    now rewrite list_lookup_middle.
  - intros j Hj. injection Hj as <-. rewrite length_app. cbn. lia.
Qed.

Lemma coherent_closed (i : nat) (p : Pool) :
  Coherent p ->
  Coherent
    {| connection := connection p; channels := channels p;
       connected := false;
       connections := alter close i (connections p) |}.
Proof.
  intros [Hcr Hon Hcu Hex].
  split; cbn [channels connections connected connection].
  - intros name ch Hc. destruct (Hcr _ _ Hc) as (c & Hc0 & Hid).
    destruct (decide (i = chan_conn ch)) as [Heq|Hne].
    + exists (close c). rewrite <- Heq in *.
      rewrite list_lookup_alter_eq, Hc0. split; [reflexivity | exact Hid].
    + exists c. now rewrite list_lookup_alter_ne.
  - exact Hon.
  - discriminate.
  - intros j Hj. rewrite length_alter. now apply Hex.
Qed.

Lemma coherent_finish (p : Pool) : Coherent p -> Coherent (finish p).
Proof.
  intros Hco. unfold finish. destruct (all_live p); [|exact Hco].
  destruct Hco as [Hcr Hon Hcu Hex].
  split; cbn [channels connections connected connection].
  - intros name ch H. rewrite lookup_empty in H. discriminate.
  - intros n1 n2 ch H. rewrite lookup_empty in H. discriminate.
  - discriminate.
  - exact Hex.
Qed.

Lemma coherent_disconnect (p : Pool) :
  Coherent p -> Coherent (pool_of (disconnect p)).
Proof.
  intros Hco. rewrite disconnect_cases. unfold pool_of. cbn [fst snd].
  destruct (connection p) as [i|]; [|now apply coherent_finish].
  destruct (is_open i p); [|exact Hco].
  apply coherent_finish. unfold after_close, on_close.
  cbn [channels connections connected connection].
  now apply coherent_closed.
Qed.

Lemma coherent_step (p p' : Pool) : Coherent p -> Step p p' -> Coherent p'.
Proof.
  intros Hco Hs. destruct Hs.
  - destruct dial; [|exact Hco].
    apply (coherent_grows_star _ _ (connect_pool p)).
    now apply coherent_dialled.
  - now apply coherent_disconnect.
  - exact (coherent_grows_star _ _ (stable_publish _ _ _ _ _ p) Hco).
  - exact (coherent_grows_star _ _ (stable_sendToQueue _ _ _ _ p) Hco).
  - exact (coherent_grows_star _ _ (stable_consume _ _ p) Hco).
  - rewrite rpc_pool.
    exact (coherent_grows_star _ _ (stable_rpc_setup _ _ _ _ p) Hco).
  - unfold connection_error, on_error.
    cbn [channels connections connected connection].
    now apply coherent_closed.
Qed.

Lemma coherent_reaches (p p' : Pool) :
  reaches p p' -> Coherent p -> Coherent p'.
Proof.
  induction 1 as [p|p q r Hpq _ IH]; [auto|].
  intros Hp. apply IH. now apply (coherent_step p).
Qed.

End CoherentFacts.

(** X6.  Whatever sequence of [connect], [disconnect], [publish],
    [sendToQueue], [consume], [rpc] calls and connection errors the object
    has gone through since its construction: every cached channel was
    created by one of the connection objects, no channel is cached under two
    names, [this.connection] is one of the connection objects, and while
    [isConnected()] answers [true] the connection in [this.connection] is
    open. *)
Theorem reachable_coherent (p : RabbitMQ.Pool) :
  Reach.reaches RabbitMQ.initial p -> Reach.Coherent p.
Proof. intros Hr. exact (coherent_reaches _ _ Hr coherent_initial). Qed.

Lemma reachable_coherent_witness :
  Reach.Coherent
    (RabbitMQ.pool_of
       (Lifecycle.disconnect
          (RabbitMQ.pool_of
             (RabbitMQ.connect true
                (RabbitMQ.connection_error 0 Scenario.connected_pool))))).
Proof.
  apply reachable_coherent.
  eapply rtc_l; [exact (Reach.step_connect true RabbitMQ.initial)|].
  eapply rtc_l; [apply (Reach.step_error 0)|].
  eapply rtc_l; [apply (Reach.step_connect true)|].
  apply rtc_once. apply Reach.step_disconnect.
Defined.

(* ===================================================================== *)
(** * Properties of consume                                                *)
(* ===================================================================== *)

Section ConsumeCalls.
Import Json Amqp RabbitMQ Reach.

Lemma consume_ready (queue : string) (options : option (gmap string value))
      (p : Pool) :
  ready (consumer_channel queue) p = true ->
  exists channel p' w,
    consume queue options p
    = (Ok channel, p', w ++ [(channel, Consume queue options)])
    /\ channels p' !! consumer_channel queue = Some channel
    /\ live channel p' = true
    /\ (w = [] \/ w = [(channel, Prefetch 10)]).
Proof.
  intros Hr. unfold consume, bind.
  destruct (getChannel_ready _ _ Hr) as (ch & p' & w & -> & Hl & Hc & Hw & _).
  rewrite (request_live _ _ _ Hl). cbn. exists ch, p', w. auto.
Qed.

Lemma consume_not_ready (queue : string)
      (options : option (gmap string value)) (p : Pool) :
  ready (consumer_channel queue) p = false ->
  exists e, consume queue options p = (Thrown e, p, []).
Proof.
  intros Hr. unfold consume, bind.
  destruct (getChannel_not_ready _ _ Hr) as [(e & ->) | (ch & -> & Hd)].
  - now exists e.
  - unfold request. rewrite Hd. now exists IllegalOperationError.
Qed.

Lemma consume_ok_cached (queue : string)
      (options : option (gmap string value)) (p p' : Pool)
      (channel : Channel) (w : list Wire) :
  consume queue options p = (Ok channel, p', w) ->
  channels p' !! consumer_channel queue = Some channel.
Proof.
  intros Hc. destruct (ready (consumer_channel queue) p) eqn:Hr.
  - destruct (consume_ready queue options p Hr)
      as (ch & p1 & w1 & Heq & Hch & _).
    rewrite Heq in Hc. now inversion Hc; subst.
  - destruct (consume_not_ready queue options p Hr) as (e & Heq).
    rewrite Heq in Hc. discriminate.
Qed.

Lemma consumer_channel_inj (q1 q2 : string) :
  consumer_channel q1 = consumer_channel q2 -> q1 = q2.
Proof.
  unfold consumer_channel. repeat rewrite append_cons.
  rewrite !append_empty_l. intros H. now repeat injection H as H.
Qed.

End ConsumeCalls.

(** X7.  [consume] subscribes on the channel cached under
    [consumer:<queue>]: when that channel works, or can be opened, the call
    returns with the channel cached, having sent the [prefetch] of a new
    channel at most and then the subscription with the caller's options.
    Otherwise it throws, unlike [publish], having sent nothing and changed
    nothing; with no connection object and no cached channel the error is
    [Error('RabbitMQ not connected')]. *)
Theorem consume_behaviour (queue : string)
    (options : option (gmap string Json.value)) (p : RabbitMQ.Pool) :
  (RabbitMQ.ready (RabbitMQ.consumer_channel queue) p = true ->
   exists channel p' w,
     RabbitMQ.consume queue options p
     = (RabbitMQ.Ok channel, p', w ++ [(channel, Amqp.Consume queue options)])
     /\ RabbitMQ.channels p' !! RabbitMQ.consumer_channel queue
        = Some channel
     /\ RabbitMQ.live channel p' = true
     /\ (w = [] \/ w = [(channel, Amqp.Prefetch 10)]))
  /\ (RabbitMQ.ready (RabbitMQ.consumer_channel queue) p = false ->
      exists e,
        RabbitMQ.consume queue options p = (RabbitMQ.Thrown e, p, []))
  /\ (RabbitMQ.channels p !! RabbitMQ.consumer_channel queue = None ->
      RabbitMQ.connection p = None ->
      RabbitMQ.consume queue options p
      = (RabbitMQ.Thrown (Amqp.JsError "RabbitMQ not connected"), p, [])).
Proof.
  split; [apply consume_ready|]. split; [apply consume_not_ready|].
  intros Hc Hn. unfold RabbitMQ.consume, RabbitMQ.bind.
  now rewrite (getChannel_null _ _ Hc Hn).
Qed.

Lemma consume_behaviour_witness :
  (exists channel p' w,
      RabbitMQ.consume "payment.confirmed" None Scenario.connected_pool
      = (RabbitMQ.Ok channel, p',
         w ++ [(channel, Amqp.Consume "payment.confirmed" None)])
      /\ RabbitMQ.channels p' !! "consumer:payment.confirmed" = Some channel
      /\ RabbitMQ.live channel p' = true
      /\ (w = [] \/ w = [(channel, Amqp.Prefetch 10)]))
  /\ RabbitMQ.consume "payment.confirmed" None RabbitMQ.initial
     = (RabbitMQ.Thrown (Amqp.JsError "RabbitMQ not connected"),
        RabbitMQ.initial, []).
Proof.
  split.
  - apply (proj1 (consume_behaviour "payment.confirmed" None
                    Scenario.connected_pool)).
    vm_compute. reflexivity.
  - apply (proj2 (proj2 (consume_behaviour "payment.confirmed" None
                           RabbitMQ.initial)));
      vm_compute; reflexivity.
Defined.

(** X8.  Each queue gets a consumer channel of its own: when two [consume]
    calls go through one after the other, they subscribe on the same
    channel exactly when they name the same queue. *)
Theorem consume_channel_per_queue (p p1 p2 : RabbitMQ.Pool)
    (q1 q2 : string) (o1 o2 : option (gmap string Json.value))
    (c1 c2 : Amqp.Channel) (w1 w2 : list Amqp.Wire) :
  Reach.reaches RabbitMQ.initial p ->
  RabbitMQ.consume q1 o1 p = (RabbitMQ.Ok c1, p1, w1) ->
  RabbitMQ.consume q2 o2 p1 = (RabbitMQ.Ok c2, p2, w2) ->
  (c1 = c2 <-> q1 = q2).
Proof.
  intros Hr H1 H2.
  pose proof (coherent_reaches _ _ Hr coherent_initial) as Hco.
  pose proof (consume_ok_cached _ _ _ _ _ _ H1) as Hc1.
  pose proof (consume_ok_cached _ _ _ _ _ _ H2) as Hc2.
  pose proof (stable_consume q1 o1 p) as G1. rewrite H1 in G1.
  pose proof (stable_consume q2 o2 p1) as G2. rewrite H2 in G2.
  unfold RabbitMQ.pool_of in G1, G2. cbn [fst snd] in G1, G2.
  pose proof (coherent_grows_star _ _ G2 (coherent_grows_star _ _ G1 Hco))
    as Hco2.
  destruct (grows_star_frame _ _ G2) as (_ & _ & _ & _ & Hkeep).
  apply Hkeep in Hc1. split.
  - intros <-. apply consumer_channel_inj.
    exact (Reach.cached_once _ Hco2 _ _ _ Hc1 Hc2).
  - intros <-. congruence.
Qed.

Lemma consume_channel_per_queue_witness :
  let r1 :=
    RabbitMQ.consume "payment.confirmed" None Scenario.connected_pool in
  let r2 := RabbitMQ.consume "tip.settled" None (RabbitMQ.pool_of r1) in
  exists c1 c2,
    RabbitMQ.result_of r1 = RabbitMQ.Ok c1
    /\ RabbitMQ.result_of r2 = RabbitMQ.Ok c2
    /\ c1 <> c2.
Proof.
  cbv zeta.
  assert (Hr : Reach.reaches RabbitMQ.initial Scenario.connected_pool).
  { apply rtc_once. exact (Reach.step_connect true RabbitMQ.initial). }
  destruct (consume_ready "payment.confirmed" None Scenario.connected_pool)
    as (c1 & p1 & w1 & H1 & _); [vm_compute; reflexivity|].
  assert (Hp1 : RabbitMQ.pool_of
                  (RabbitMQ.consume "payment.confirmed" None
                     Scenario.connected_pool) = p1)
    by (rewrite H1; reflexivity).
  rewrite Hp1.
  destruct (consume_ready "tip.settled" None p1)
    as (c2 & p2 & w2 & H2 & _); [rewrite <- Hp1; vm_compute; reflexivity|].
  exists c1, c2. rewrite H1, H2. split; [reflexivity|].
  split; [reflexivity|]. intros Heq.
  pose proof (proj1 (consume_channel_per_queue _ _ _ _ _ _ _ _ _ _ _
                       Hr H1 H2) Heq) as Hq.
  discriminate Hq.
Defined.

(* ===================================================================== *)
(** * A channel whose connection is gone stays in the cache                *)
(* ===================================================================== *)

Section DeadChannels.
Import Json Amqp RabbitMQ Lifecycle Reach.

Lemma dead_step (p p' : Pool) (name : string) (channel : Channel) :
  Coherent p ->
  channels p !! name = Some channel ->
  live channel p = false ->
  Step p p' ->
  channels p' !! name = Some channel /\ live channel p' = false.
Proof.
  intros Hco Hc Hl Hs.
  assert (Hgrow : forall q, rtc Grows p q ->
            channels q !! name = Some channel /\ live channel q = false).
  { intros q Hq. destruct (grows_star_frame _ _ Hq) as (_ & _ & Ho & _ & Hk).
    split; [now apply Hk|]. unfold live. now rewrite Ho. }
  destruct Hs.
  - destruct dial; [|now split].
    destruct (grows_star_frame _ _ (connect_pool p))
      as (_ & _ & Ho & _ & Hk).
    split; [now apply Hk|]. unfold live. rewrite Ho.
    destruct (cached_created _ Hco _ _ Hc) as (c & Hc0 & _).
    unfold live, is_open in Hl. rewrite Hc0 in Hl.
    unfold is_open. cbn [connections].
    now rewrite (lookup_app_l_Some _ _ _ _ Hc0).
  - rewrite disconnect_cases. unfold pool_of. cbn [fst snd].
    destruct (connection p) as [i|].
    + destruct (is_open i p); [|now split].
      assert (Hd : live channel (after_close i p) = false).
      { unfold live. rewrite is_open_after_close.
        now destruct (decide (i = chan_conn channel)). }
      unfold finish.
      rewrite (all_live_false (after_close i p) name channel Hc Hd).
      now split.
    + unfold finish. rewrite (all_live_false p name channel Hc Hl).
      now split.
  - apply Hgrow, stable_publish.
  - apply Hgrow, stable_sendToQueue.
  - apply Hgrow, stable_consume.
  - rewrite rpc_pool. apply Hgrow, stable_rpc_setup.
  - split; [exact Hc|].
    unfold connection_error, on_error, live, is_open. cbn [connections].
    unfold live, is_open in Hl.
    destruct (decide (i = chan_conn channel)) as [<-|Hne].
    + rewrite list_lookup_alter_eq.
      now destruct (connections p !! i).
    + now rewrite list_lookup_alter_ne.
Qed.

Lemma dead_reaches (p p' : Pool) (name : string) (channel : Channel) :
  reaches p p' ->
  Coherent p ->
  channels p !! name = Some channel ->
  live channel p = false ->
  channels p' !! name = Some channel /\ live channel p' = false.
Proof.
  induction 1 as [p|p q r Hpq _ IH]; [auto|].
  intros Hco Hc Hl.
  destruct (dead_step _ _ _ _ Hco Hc Hl Hpq) as [Hc' Hl'].
  apply IH; auto. now apply (coherent_step p).
Qed.

End DeadChannels.

(** X9.  The class never replaces a cached channel whose connection is
    gone.  Once a name is cached on such a channel, it stays cached on it
    through every later [connect], [disconnect], [publish], [sendToQueue],
    [consume], [rpc] and connection error, so [getChannel] keeps handing out
    the dead channel; for the name [publisher] this means that every later
    [publish] and [sendToQueue] returns [false], also after a new
    [connect]. *)
Theorem dead_channel_never_replaced (p p' : RabbitMQ.Pool) (name : string)
    (channel : Amqp.Channel) :
  Reach.reaches RabbitMQ.initial p ->
  RabbitMQ.channels p !! name = Some channel ->
  RabbitMQ.live channel p = false ->
  Reach.reaches p p' ->
  RabbitMQ.getChannel name p' = (RabbitMQ.Ok channel, p', [])
  /\ RabbitMQ.live channel p' = false
  /\ (name = "publisher" ->
      forall exchange routingKey queue message options room,
        RabbitMQ.result_of
          (RabbitMQ.publish exchange routingKey message options room p')
        = RabbitMQ.Ok false
        /\ RabbitMQ.result_of
             (RabbitMQ.sendToQueue queue message options room p')
           = RabbitMQ.Ok false).
Proof.
  intros Hr Hc Hl Hr'.
  pose proof (coherent_reaches _ _ Hr coherent_initial) as Hco.
  destruct (dead_reaches _ _ _ _ Hr' Hco Hc Hl) as [Hc' Hl'].
  split; [now apply getChannel_cached|]. split; [exact Hl'|].
  intros -> exchange routingKey queue message options room.
  assert (Hnr : RabbitMQ.ready "publisher" p' = false).
  { unfold RabbitMQ.ready. now rewrite Hc'. }
  rewrite publish_result, sendToQueue_result, Hnr. now split.
Qed.

Lemma dead_channel_never_replaced_witness :
  let p :=
    RabbitMQ.connection_error 0
      (RabbitMQ.pool_of
         (RabbitMQ.publish "payment.events" "payment.confirmed"
            Scenario.payment_confirmed None true Scenario.connected_pool)) in
  let p' := RabbitMQ.pool_of (RabbitMQ.connect true p) in
  RabbitMQ.usable p' = true
  /\ RabbitMQ.result_of
       (RabbitMQ.publish "payment.events" "payment.confirmed"
          Scenario.payment_confirmed None true p')
     = RabbitMQ.Ok false.
Proof.
  cbv zeta. split; [vm_compute; reflexivity|].
  refine (proj1 (proj2 (proj2 (dead_channel_never_replaced
            (RabbitMQ.connection_error 0
               (RabbitMQ.pool_of
                  (RabbitMQ.publish "payment.events" "payment.confirmed"
                     Scenario.payment_confirmed None true
                     Scenario.connected_pool)))
            _ "publisher" {| Amqp.chan_conn := 0; Amqp.chan_id := 1 |}
            _ _ _ _)) eq_refl
          "payment.events" "payment.confirmed" "payment.processing"
          Scenario.payment_confirmed None true)).
  - eapply rtc_l; [exact (Reach.step_connect true RabbitMQ.initial)|].
    eapply rtc_l;
      [exact (Reach.step_publish "payment.events" "payment.confirmed"
                Scenario.payment_confirmed None true
                Scenario.connected_pool)|].
    apply rtc_once. apply Reach.step_error.
  - vm_compute. reflexivity.
  - vm_compute. reflexivity.
  - apply rtc_once. apply (Reach.step_connect true).
Defined.

(* ===================================================================== *)
(** * Properties of connect                                                *)
(* ===================================================================== *)

Section ConnectFacts.
Import Json Amqp RabbitMQ Lifecycle Reach.

Lemma connect_dialled (p : Pool) :
  connect true p = (initializeExchanges ;;; initializeQueues) (dialled p).
Proof. reflexivity. Qed.

Lemma initializeExchanges_dead (q : Pool) (channel : Channel) :
  channels q !! "init" = Some channel ->
  live channel q = false ->
  initializeExchanges q = (Thrown IllegalOperationError, q, []).
Proof.
  intros Hc Hl. unfold initializeExchanges, bind.
  rewrite (getChannel_cached _ _ _ Hc). unfold EXCHANGES.
  cbn [for_each]. unfold bind at 1. unfold request at 1. rewrite Hl.
  reflexivity.
Qed.

Lemma connect_dead_init (p : Pool) (channel : Channel) (c : Connection) :
  channels p !! "init" = Some channel ->
  connections p !! chan_conn channel = Some c ->
  open c = false ->
  connect true p = (Thrown IllegalOperationError, dialled p, []).
Proof.
  intros Hc Hi Ho. rewrite connect_dialled. unfold bind.
  rewrite (initializeExchanges_dead (dialled p) channel); [reflexivity| |].
  - exact Hc.
  - unfold live, is_open, dialled. cbn [connections].
    now rewrite (lookup_app_l_Some _ _ _ _ Hi).
Qed.

Lemma is_open_dialled (j : nat) (p : Pool) :
  is_open j (dialled p)
  = if decide (j = List.length (connections p)) then true else is_open j p.
Proof.
  unfold is_open, dialled. cbn [connections].
  destruct (decide (j = List.length (connections p))) as [->|Hne].
  - now rewrite list_lookup_middle.
  - destruct (decide (j < List.length (connections p))%nat) as [Hlt|Hge].
    + now rewrite lookup_app_l.
    + rewrite !lookup_ge_None_2; [reflexivity | lia |].
      rewrite length_app. cbn. lia.
Qed.

End ConnectFacts.

(** X10.  Whenever [amqplib.connect] resolves, [connect] marks the object
    connected and makes the new connection object the current one, whether
    the declaration of the topology then goes through or throws.  It
    closes nothing: every earlier connection object is as open as it was,
    and the cache keeps the channels it had. *)
Theorem connect_replaces_connection (p : RabbitMQ.Pool) :
  let p' := RabbitMQ.pool_of (RabbitMQ.connect true p) in
  RabbitMQ.isConnected p' = true
  /\ RabbitMQ.connection p' = Some (List.length (RabbitMQ.connections p))
  /\ RabbitMQ.usable p' = true
  /\ List.length (RabbitMQ.connections p')
     = S (List.length (RabbitMQ.connections p))
  /\ (forall j, (j < List.length (RabbitMQ.connections p))%nat ->
                RabbitMQ.is_open j p' = RabbitMQ.is_open j p)
  /\ (forall name channel,
         RabbitMQ.channels p !! name = Some channel ->
         RabbitMQ.channels p' !! name = Some channel).
Proof.
  cbv zeta.
  destruct (grows_star_frame _ _ (connect_pool p))
    as (Hn & Hf & Ho & Hlen & Hk).
  cbn [RabbitMQ.connection RabbitMQ.connected RabbitMQ.connections
       RabbitMQ.channels] in Hn, Hf, Hlen, Hk.
  assert (Hd : forall j,
             RabbitMQ.is_open j (RabbitMQ.pool_of (RabbitMQ.connect true p))
             = RabbitMQ.is_open j (Lifecycle.dialled p)) by exact Ho.
  split; [exact Hf|]. split; [exact Hn|]. split; [|split; [|split]].
  - unfold RabbitMQ.usable. rewrite Hn, Hd, is_open_dialled.
    now destruct (decide _).
  - rewrite Hlen, length_app. cbn. lia.
  - intros j Hj. rewrite Hd, is_open_dialled.
    destruct (decide _); [lia | reflexivity].
  - exact Hk.
Qed.

Lemma connect_replaces_connection_witness :
  let p' := RabbitMQ.pool_of (RabbitMQ.connect true Scenario.connected_pool) in
  RabbitMQ.connection p' = Some 1%nat
  /\ RabbitMQ.is_open 0 p' = true.
Proof.
  cbv zeta.
  destruct (connect_replaces_connection Scenario.connected_pool)
    as (_ & H2 & _ & _ & H5 & _).
  split; [exact H2|]. rewrite (H5 0%nat); [reflexivity|].
  vm_compute. lia.
Defined.

(** X11.  When the channel cached as [init] belongs to a connection that is
    closed, [connect] throws as soon as the new connection is there, before
    it has declared anything: [initializeExchanges] gets the cached channel
    and its first [assertExchange] fails.  The object is left marked
    connected, with the new connection open. *)
Theorem connect_with_dead_init (p : RabbitMQ.Pool) (channel : Amqp.Channel)
    (c : RabbitMQ.Connection) :
  RabbitMQ.channels p !! "init" = Some channel ->
  RabbitMQ.connections p !! Amqp.chan_conn channel = Some c ->
  RabbitMQ.open c = false ->
  let r := RabbitMQ.connect true p in
  RabbitMQ.result_of r = RabbitMQ.Thrown Amqp.IllegalOperationError
  /\ RabbitMQ.sent r = []
  /\ RabbitMQ.isConnected (RabbitMQ.pool_of r) = true
  /\ RabbitMQ.usable (RabbitMQ.pool_of r) = true
  /\ RabbitMQ.channels (RabbitMQ.pool_of r) = RabbitMQ.channels p.
Proof.
  intros Hc Hi Ho. cbv zeta. rewrite (connect_dead_init p channel c Hc Hi Ho).
  unfold RabbitMQ.result_of, RabbitMQ.sent, RabbitMQ.pool_of. cbn [fst snd].
  repeat split.
  unfold RabbitMQ.usable. cbn [Lifecycle.dialled RabbitMQ.connection].
  rewrite is_open_dialled. now destruct (decide _).
Qed.

Lemma connect_with_dead_init_witness :
  let p := RabbitMQ.connection_error 0 Scenario.connected_pool in
  RabbitMQ.result_of (RabbitMQ.connect true p)
  = RabbitMQ.Thrown Amqp.IllegalOperationError
  /\ RabbitMQ.isConnected (RabbitMQ.pool_of (RabbitMQ.connect true p)) = true.
Proof.
  cbv zeta.
  pose proof (connect_with_dead_init
                (RabbitMQ.connection_error 0 Scenario.connected_pool)
                {| Amqp.chan_conn := 0; Amqp.chan_id := 0 |}
                {| RabbitMQ.open := false; RabbitMQ.created := 1 |})
    as H.
  destruct H as (H1 & _ & H3 & _); [vm_compute; reflexivity ..|].
  split; [exact H1 | exact H3].
Defined.

(** X12.  After [connect] and [disconnect] a second [connect] fails.
    [disconnect] closes the connection before the channels, so closing the
    first channel throws and the cache is not cleared; the new [connect]
    then finds the old [init] channel in the cache and throws on its first
    declaration. *)
Theorem reconnect_after_disconnect_fails (p : RabbitMQ.Pool) (i : nat)
    (channel : Amqp.Channel) :
  RabbitMQ.connection p = Some i ->
  RabbitMQ.is_open i p = true ->
  RabbitMQ.channels p !! "init" = Some channel ->
  Amqp.chan_conn channel = i ->
  let r := RabbitMQ.connect true (RabbitMQ.pool_of (Lifecycle.disconnect p)) in
  RabbitMQ.result_of r = RabbitMQ.Thrown Amqp.IllegalOperationError
  /\ RabbitMQ.sent r = []
  /\ RabbitMQ.isConnected (RabbitMQ.pool_of r) = true.
Proof.
  intros Hn Ho Hc Hi. cbv zeta.
  assert (Hdead : RabbitMQ.live channel (Lifecycle.after_close i p) = false).
  { unfold RabbitMQ.live. rewrite Hi, is_open_after_close.
    now destruct (decide (i = i)). }
  assert (Hp : RabbitMQ.pool_of (Lifecycle.disconnect p)
               = Lifecycle.after_close i p).
  { rewrite disconnect_cases. unfold RabbitMQ.pool_of. cbn [fst snd].
    rewrite Hn, Ho. unfold Lifecycle.finish.
    now rewrite (all_live_false (Lifecycle.after_close i p) "init" channel
                   Hc Hdead). }
  rewrite Hp. unfold RabbitMQ.is_open in Ho.
  destruct (RabbitMQ.connections p !! i) as [c|] eqn:Hci; [|discriminate].
  rewrite (connect_dead_init (Lifecycle.after_close i p) channel
             (RabbitMQ.close c)).
  - repeat split.
  - exact Hc.
  - rewrite Hi. unfold Lifecycle.after_close, RabbitMQ.on_close.
    cbn [RabbitMQ.connections]. now rewrite list_lookup_alter_eq, Hci.
  - reflexivity.
Qed.

Lemma reconnect_after_disconnect_fails_witness :
  RabbitMQ.result_of (RabbitMQ.connect true RabbitMQ.initial)
  = RabbitMQ.Ok tt
  /\ RabbitMQ.result_of
       (RabbitMQ.connect true
          (RabbitMQ.pool_of (Lifecycle.disconnect Scenario.connected_pool)))
     = RabbitMQ.Thrown Amqp.IllegalOperationError.
Proof.
  split; [vm_compute; reflexivity|].
  refine (proj1 (reconnect_after_disconnect_fails Scenario.connected_pool 0
                   {| Amqp.chan_conn := 0; Amqp.chan_id := 0 |} _ _ _ _));
    vm_compute; reflexivity.
Defined.

(** X13.  The ['error'] handler of an earlier connection object still
    belongs to the same pool: when that object fails after a later
    [connect], [isConnected()] turns [false] although the current
    connection is as usable as before, and every name whose cached channel
    is not of the failed connection is as ready as before. *)
Theorem late_error_of_earlier_connection (p : RabbitMQ.Pool) (i j : nat) :
  RabbitMQ.connection p = Some j ->
  i <> j ->
  let p' := RabbitMQ.connection_error i p in
  RabbitMQ.isConnected p' = false
  /\ RabbitMQ.usable p' = RabbitMQ.usable p
  /\ (forall name,
         (forall channel, RabbitMQ.channels p !! name = Some channel ->
                          Amqp.chan_conn channel <> i) ->
         RabbitMQ.ready name p' = RabbitMQ.ready name p).
Proof.
  intros Hn Hne. cbv zeta.
  assert (Ho : forall k, k <> i ->
             RabbitMQ.is_open k (RabbitMQ.connection_error i p)
             = RabbitMQ.is_open k p).
  { intros k Hk. unfold RabbitMQ.connection_error, RabbitMQ.on_error,
      RabbitMQ.is_open. cbn [RabbitMQ.connections].
    now rewrite list_lookup_alter_ne by congruence. }
  assert (Hu : RabbitMQ.usable (RabbitMQ.connection_error i p)
               = RabbitMQ.usable p).
  { unfold RabbitMQ.usable.
    cbn [RabbitMQ.connection_error RabbitMQ.on_error RabbitMQ.connection].
    rewrite Hn. apply Ho. congruence. }
  split; [reflexivity|]. split; [exact Hu|].
  intros name Hname. unfold RabbitMQ.ready.
  cbn [RabbitMQ.connection_error RabbitMQ.on_error RabbitMQ.channels].
  destruct (RabbitMQ.channels p !! name) as [ch|] eqn:Hc; [|exact Hu].
  unfold RabbitMQ.live. apply Ho. now apply Hname.
Qed.

Lemma late_error_of_earlier_connection_witness :
  let p := RabbitMQ.pool_of (RabbitMQ.connect true Scenario.connected_pool) in
  RabbitMQ.isConnected (RabbitMQ.connection_error 0 p) = false
  /\ RabbitMQ.usable (RabbitMQ.connection_error 0 p) = true
  /\ RabbitMQ.ready "publisher" (RabbitMQ.connection_error 0 p) = true.
Proof.
  cbv zeta.
  destruct (late_error_of_earlier_connection
              (RabbitMQ.pool_of
                 (RabbitMQ.connect true Scenario.connected_pool)) 0 1)
    as (H1 & H2 & H3); [vm_compute; reflexivity | discriminate |].
  split; [exact H1|]. split.
  - rewrite H2. vm_compute. reflexivity.
  - rewrite H3; [vm_compute; reflexivity|].
    intros channel Hc. vm_compute in Hc. discriminate Hc.
Defined.

(* ===================================================================== *)
(** * What the methods send                                                *)
(* ===================================================================== *)

Section SendsFacts.
Import Json Amqp RabbitMQ Reach.
Context (P : ChanOp -> Prop).

Lemma sends_ret {A : Type} (a : A) : Sends P (ret a).
Proof. intros p x []. Qed.

Lemma sends_request (channel : Channel) (op : ChanOp) :
  P op -> Sends P (request channel op).
Proof.
  intros HP p x. unfold request, sent.
  destruct (live channel p); cbn [snd]; [|intros []].
  intros [<-|[]]. exact HP.
Qed.

Lemma sends_getChannel (name : string) :
  P (Prefetch 10) -> Sends P (getChannel name).
Proof.
  intros HP p x. destruct (getChannel name p) as [[[ch|e] p'] w] eqn:E.
  - destruct (getChannel_ok_cached _ _ _ _ _ E) as [_ [->| ->]];
      unfold sent; cbn [snd]; [intros [] | intros [<-|[]]; exact HP].
  - destruct (getChannel_throws_unchanged _ _ _ _ _ E) as [_ ->].
    intros [].
Qed.

Lemma sends_bind {A B : Type} (m : M A) (f : A -> M B) :
  Sends P m -> (forall a, Sends P (f a)) -> Sends P (bind m f).
Proof.
  intros Hm Hf p x. unfold bind, sent. specialize (Hm p). unfold sent in Hm.
  destruct (m p) as [[[a|e] p1] w1]; cbn [snd] in *.
  - specialize (Hf a p1). unfold sent in Hf.
    destruct (f a p1) as [[r p2] w2]. cbn [snd] in *.
    intros Hin. apply in_app_or in Hin as [H|H]; auto.
  - auto.
Qed.

Lemma sends_for_each {A : Type} (f : A -> M unit) (l : list A) :
  (forall a, In a l -> Sends P (f a)) -> Sends P (for_each f l).
Proof.
  induction l as [|a l IH]; intros Hf; [apply sends_ret|].
  cbn [for_each]. apply sends_bind; [apply Hf; now left|].
  intros _. apply IH. intros b Hb. apply Hf. now right.
Qed.

End SendsFacts.

Section ConnectSends.
Import Json Amqp RabbitMQ Reach.

(** Everything that [connect] can send. *)
Lemma sends_connect (dial : bool) :
  Sends (fun op =>
           In op (Prefetch 10
                    :: declared_exchanges ++ declared_queues
                    ++ dead_letter_path))
        (connect dial).
Proof.
  destruct dial; [|intros p x []].
  intros p.
  change (connect true p)
    with ((initializeExchanges ;;; initializeQueues) (Lifecycle.dialled p)).
  generalize (Lifecycle.dialled p). clear p.
  change (Sends (fun op =>
                   In op (Prefetch 10
                            :: declared_exchanges ++ declared_queues
                            ++ dead_letter_path))
                (initializeExchanges ;;; initializeQueues)).
  apply sends_bind.
  - unfold initializeExchanges. apply sends_bind.
    + apply sends_getChannel. now left.
    + intros ch. apply sends_for_each. intros e He. apply sends_request.
      right. apply in_or_app. left. unfold declared_exchanges.
      now apply (in_map (fun e => AssertExchange (fst e) (snd e)
                                     exchange_options)).
  - intros _. unfold initializeQueues. apply sends_bind.
    + apply sends_getChannel. now left.
    + intros ch. apply sends_bind.
      * apply sends_for_each. intros q Hq. apply sends_request.
        right. apply in_or_app. right. apply in_or_app. left.
        unfold declared_queues.
        now apply (in_map (fun q => AssertQueue q queue_options)).
      * intros _.
        repeat (apply sends_bind; [|intros _]); apply sends_request;
          right; apply in_or_app; right; apply in_or_app; right;
          cbn; auto.
Qed.

End ConnectSends.

(** X14.  Whatever the pool and whether it succeeds or throws on the way,
    [connect] sends nothing but the [prefetch] of a new channel and the
    declarations of its descriptor; the only binding among them is that of
    [dead-letter-queue] to the [dead-letter] exchange.  No queue is bound
    to any of the five event exchanges. *)
Theorem connect_sends_descriptor_only (dial : bool) (p : RabbitMQ.Pool)
    (x : Amqp.Wire) :
  In x (RabbitMQ.sent (RabbitMQ.connect dial p)) ->
  In (snd x)
     (Amqp.Prefetch 10
        :: RabbitMQ.declared_exchanges ++ RabbitMQ.declared_queues
        ++ RabbitMQ.dead_letter_path)
  /\ (forall queue exchange key,
         snd x = Amqp.BindQueue queue exchange key ->
         queue = "dead-letter-queue" /\ exchange = "dead-letter"
         /\ key = EmptyString).
Proof.
  intros Hx. pose proof (sends_connect dial p x Hx) as Hin.
  split; [exact Hin|]. intros queue exchange key Heq.
  rewrite Heq in Hin. cbn in Hin.
  repeat (destruct Hin as [Hin|Hin]; [try discriminate Hin|]).
  - now injection Hin as <- <- <-.
  - destruct Hin.
Qed.

Lemma connect_sends_descriptor_only_witness :
  let x :=
    ({| Amqp.chan_conn := 0; Amqp.chan_id := 0 |},
     Amqp.BindQueue "dead-letter-queue" "dead-letter" EmptyString) in
  In x (RabbitMQ.sent (RabbitMQ.connect true RabbitMQ.initial))
  /\ In (snd x)
        (Amqp.Prefetch 10
           :: RabbitMQ.declared_exchanges ++ RabbitMQ.declared_queues
           ++ RabbitMQ.dead_letter_path).
Proof.
  cbv zeta.
  assert (Hin : In ({| Amqp.chan_conn := 0; Amqp.chan_id := 0 |},
                    Amqp.BindQueue "dead-letter-queue" "dead-letter"
                      EmptyString)
                   (RabbitMQ.sent (RabbitMQ.connect true RabbitMQ.initial))).
  { vm_compute. do 20 right. left. reflexivity. }
  split; [exact Hin|].
  exact (proj1 (connect_sends_descriptor_only true RabbitMQ.initial _ Hin)).
Defined.

(* ===================================================================== *)
(** * Properties of the business publishers                                *)
(* ===================================================================== *)

Section PublisherFacts.
Import Json Amqp RabbitMQ Publishers.

Lemma guarded_ready (op : ChanOp) (room : bool) (p : Pool) :
  ready "publisher" p = true ->
  exists channel p' w,
    try_catch
      (channel <- getChannel "publisher" ;;
       request channel op ;;; ret room)
      (fun _ => ret false) p
    = (Ok room, p', w ++ [(channel, op)])
    /\ (w = [] \/ w = [(channel, Prefetch 10)])
    /\ channels p' !! "publisher" = Some channel
    /\ live channel p' = true.
Proof.
  intros Hr. unfold try_catch, bind.
  destruct (getChannel_ready _ _ Hr) as (ch & p' & w & -> & Hl & Hc & Hw & _).
  rewrite (request_live _ _ _ Hl). cbn. exists ch, p', w. auto.
Qed.

Lemma guarded_not_ready (op : ChanOp) (room : bool) (p : Pool) :
  ready "publisher" p = false ->
  try_catch
    (channel <- getChannel "publisher" ;;
     request channel op ;;; ret room)
    (fun _ => ret false) p
  = (Ok false, p, []).
Proof.
  intros Hr. unfold try_catch, bind.
  destruct (getChannel_not_ready _ _ Hr) as [(e & ->) | (ch & -> & Hd)].
  - reflexivity.
  - unfold request. rewrite Hd. reflexivity.
Qed.

Lemma writes_one (w : list Wire) (channel : Channel) (op : ChanOp) :
  w = [] \/ w = [(channel, Prefetch 10)] ->
  is_write op = true ->
  writes (w ++ [(channel, op)]) = [op].
Proof.
  intros [->| ->] Hop; unfold writes; cbn; now rewrite Hop.
Qed.

(** One publisher: the guarded write with its boolean dropped. *)
Lemma dropped_write (op : ChanOp) (room : bool) (p : Pool) :
  is_write op = true ->
  let r :=
    (try_catch
       (channel <- getChannel "publisher" ;;
        request channel op ;;; ret room)
       (fun _ => ret false) ;;; ret tt) p in
  result_of r = Ok tt
  /\ (ready "publisher" p = true -> writes (sent r) = [op])
  /\ (ready "publisher" p = false -> r = (Ok tt, p, [])).
Proof.
  intros Hop. cbv zeta.
  destruct (ready "publisher" p) eqn:Hr.
  - destruct (guarded_ready op room p Hr) as (ch & p' & w & Hg & Hw & _).
    set (g := try_catch _ _) in *. unfold bind. rewrite Hg.
    split; [reflexivity|]. split; [|discriminate].
    intros _. unfold sent, ret. cbn [snd]. rewrite app_nil_r.
    now apply writes_one.
  - pose proof (guarded_not_ready op room p Hr) as Hg.
    set (g := try_catch _ _) in *. unfold bind. rewrite Hg.
    split; [reflexivity|]. split; [discriminate | reflexivity].
Qed.

Lemma business_publisher_cases
      (f : value -> string -> Z -> bool -> M unit) (target : Target)
      (type : string) :
  In (f, target, type) business_publishers ->
  (exists exchange,
      target = ToExchange exchange type /\ f = publish_event exchange type)
  \/ (target = ToQueue type /\ f = send_event type type).
Proof.
  unfold business_publishers. intros Hin.
  repeat (destruct Hin as [Hin|Hin];
          [injection Hin as <- <- <-;
           first [left; eexists; split; reflexivity
                 | right; split; reflexivity]|]).
  destruct Hin.
Qed.

Lemma business_publisher_declared
      (f : value -> string -> Z -> bool -> M unit) (target : Target)
      (type : string) :
  In (f, target, type) business_publishers -> declared target = true.
Proof.
  unfold business_publishers. intros Hin.
  repeat (destruct Hin as [Hin|Hin];
          [injection Hin as <- <- <-; reflexivity|]).
  destruct Hin.
Qed.

Lemma deserialize_serialize (m : Message.QueueMessage) :
  well_formed (Message.data m) = true ->
  Message.deserialize (Message.serialize m) = Some m.
Proof.
  intros Hd. unfold Message.deserialize, Message.serialize.
  rewrite parse_stringify by now apply to_object_well_formed.
  apply of_object_to_object.
Qed.

End PublisherFacts.

(** X15.  None of the seven business publishers ever throws or tells its
    caller anything: each resolves to [undefined] whether the message was
    written, refused for backpressure, or not written at all.  When no
    working [publisher] channel is to be had, the call sends nothing and
    changes nothing. *)
Theorem publishers_never_report
    (f : Json.value -> string -> Z -> bool -> RabbitMQ.M unit)
    (target : Publishers.Target) (type : string)
    (data : Json.value) (uuid : string) (now : Z) (room : bool)
    (p : RabbitMQ.Pool) :
  In (f, target, type) Publishers.business_publishers ->
  RabbitMQ.result_of (f data uuid now room p) = RabbitMQ.Ok tt
  /\ (RabbitMQ.ready "publisher" p = false ->
      f data uuid now room p = (RabbitMQ.Ok tt, p, [])).
Proof.
  intros Hin.
  destruct (business_publisher_cases f target type Hin)
    as [(exchange & -> & ->) | (-> & ->)].
  - destruct (dropped_write
                (Amqp.Publish exchange type
                   (Message.serialize (Publishers.event type data uuid now))
                   (RabbitMQ.messageOptions
                      (Publishers.event type data uuid now) None))
                room p eq_refl) as (H1 & _ & H3).
    split; [exact H1 | exact H3].
  - destruct (dropped_write
                (Amqp.SendToQueue type
                   (Message.serialize (Publishers.event type data uuid now))
                   (RabbitMQ.messageOptions
                      (Publishers.event type data uuid now) None))
                room p eq_refl) as (H1 & _ & H3).
    split; [exact H1 | exact H3].
Qed.

Lemma publishers_never_report_witness :
  Publishers.publishTipSettled (Json.Object [("amount", Json.Number 5)])
    "u1" 1700000000000 true RabbitMQ.initial
  = (RabbitMQ.Ok tt, RabbitMQ.initial, []).
Proof.
  refine (proj2 (publishers_never_report Publishers.publishTipSettled
                   (Publishers.ToExchange "tip.events" "tip.settled")
                   "tip.settled" _ "u1" 1700000000000 true RabbitMQ.initial
                   _) _).
  - unfold Publishers.business_publishers. do 2 right. left. reflexivity.
  - reflexivity.
Defined.



(* ===================================================================== *)
(** * publishWithRetry around publish                                      *)
(* ===================================================================== *)

Section RetryPublishFacts.
Import Json Amqp RabbitMQ Publishers Retry RetryPublish.
Variables exchange routingKey : string.
Variable message : Message.QueueMessage.
Variable options : option (gmap string value).
Variable maxRetries : nat.
Variable delayMs : Z.

Local Set Warnings "-notation-for-abbreviation".
Local Notation attempt :=
  (publish_attempt exchange routingKey message options).
Local Notation written :=
  (Publish exchange routingKey (Message.serialize message)
     (messageOptions message options)).

Lemma writes_app (w1 w2 : list Wire) :
  writes (w1 ++ w2) = writes w1 ++ writes w2.
Proof. unfold writes. now rewrite map_app, List.filter_app. Qed.

Lemma attempt_ready (w : World) :
  ready "publisher" (pool w) = true ->
  exists w',
    attempt w = (Resolved (next_room w), w')
    /\ ready "publisher" (pool w') = true
    /\ rooms w' = tl (rooms w)
    /\ writes (wire w') = writes (wire w) ++ [written].
Proof.
  intros Hr. unfold publish_attempt, publish. rewrite Hr.
  destruct (guarded_ready written (next_room w) (pool w) Hr)
    as (ch & p' & ws & Hg & Hw & Hc & Hl).
  rewrite Hg. eexists. split; [reflexivity|]. cbn [pool rooms wire].
  split; [now apply (ready_cached _ ch)|]. split; [reflexivity|].
  rewrite writes_app. f_equal. now apply writes_one.
Qed.

Lemma attempt_not_ready (w : World) :
  ready "publisher" (pool w) = false ->
  attempt w = (Resolved false, w).
Proof.
  intros Hr. unfold publish_attempt, publish. rewrite Hr.
  rewrite (guarded_not_ready written (next_room w) (pool w) Hr).
  rewrite app_nil_r. now destruct w.
Qed.

Lemma invocations_wait (i : nat) (evs : list Event) :
  invocations
    (Invoke
       :: (if (S i <? maxRetries)%nat
           then [Sleep (delayMs * 2 ^ Z.of_nat i)] else []) ++ evs)
  = S (invocations evs).
Proof. destruct (S i <? maxRetries)%nat; reflexivity. Qed.

(** On a ready pool every attempt writes the message, and none throws. *)
Lemma loop_publish_ready (remaining : nat) :
  forall (i : nat) (w : World),
    ready "publisher" (pool w) = true ->
    exists b w' evs,
      loop attempt maxRetries delayMs remaining i w = (Return b, w', evs)
      /\ writes (wire w')
         = writes (wire w) ++ repeat written (invocations evs).
Proof.
  induction remaining as [|remaining' IH]; intros i w Hr.
  - exists false, w, []. split; [reflexivity|]. cbn. now rewrite app_nil_r.
  - cbn [loop]. destruct (attempt_ready w Hr) as (w1 & Ha & Hr1 & _ & Hw1).
    rewrite Ha. destruct (next_room w).
    + exists true, w1, [Invoke]. split; [reflexivity | exact Hw1].
    + destruct (IH (S i) w1 Hr1) as (b & w2 & evs & Hl & Hw2).
      rewrite Hl. do 3 eexists. split; [reflexivity|].
      rewrite invocations_wait, Hw2, Hw1, <- app_assoc. reflexivity.
Qed.

(** With [k] refusals for backpressure ahead and then room, the message is
    written [k + 1] times. *)
Lemma loop_publish_backpressure (k : nat) :
  forall (remaining i : nat) (w : World) (rest : list bool),
    ready "publisher" (pool w) = true ->
    rooms w = repeat false k ++ true :: rest ->
    (k < remaining)%nat ->
    exists w' evs,
      loop attempt maxRetries delayMs remaining i w = (Return true, w', evs)
      /\ invocations evs = S k
      /\ writes (wire w') = writes (wire w) ++ repeat written (S k).
Proof.
  induction k as [|k IH]; intros remaining i w rest Hr Hrooms Hlt;
    (destruct remaining as [|remaining']; [lia|]);
    cbn [loop]; destruct (attempt_ready w Hr) as (w1 & Ha & Hr1 & Ht & Hw1);
    rewrite Ha; unfold next_room; rewrite Hrooms; cbn [repeat app].
  - exists w1, [Invoke]. split; [reflexivity|]. split; [reflexivity|].
    exact Hw1.
  - rewrite Hrooms in Ht. cbn [repeat app tl] in Ht.
    destruct (IH remaining' (S i) w1 rest Hr1 Ht ltac:(lia))
      as (w2 & evs & Hl & Hn & Hw2).
    rewrite Hl. do 2 eexists. split; [reflexivity|].
    rewrite invocations_wait, Hn, Hw2, Hw1, <- app_assoc.
    split; reflexivity.
Qed.

(** On a pool that is not ready every attempt fails in the same way. *)
Lemma loop_publish_not_ready (remaining : nat) :
  forall (i : nat) (w : World),
    ready "publisher" (pool w) = false ->
    (remaining + i = maxRetries)%nat ->
    exists evs,
      loop attempt maxRetries delayMs remaining i w = (Return false, w, evs)
      /\ invocations evs = remaining
      /\ sleeps evs
         = map (fun k => delayMs * 2 ^ Z.of_nat k) (seq i (remaining - 1)).
Proof.
  induction remaining as [|remaining' IH]; intros i w Hr Hsum.
  - exists []. repeat split.
  - cbn [loop]. rewrite (attempt_not_ready w Hr).
    destruct (IH (S i) w Hr ltac:(lia)) as (evs & Hl & Hn & Hs).
    rewrite Hl. eexists. split; [reflexivity|].
    rewrite invocations_wait, Hn. split; [reflexivity|].
    replace (S remaining' - 1)%nat with remaining' by lia.
    destruct remaining' as [|n].
    + destruct (Nat.ltb_spec (S i) maxRetries) as [Hlt|_]; [lia|].
      cbn [app sleeps]. rewrite Hs. reflexivity.
    + destruct (Nat.ltb_spec (S i) maxRetries) as [_|Hge]; [|lia].
      cbn [app sleeps seq map]. rewrite Hs.
      replace (S n - 1)%nat with n by lia. reflexivity.
Qed.

End RetryPublishFacts.

(** X17.  [publishWithRetry] around [publish] on a pool with a working
    [publisher] channel: it never throws, since [publish] never rejects,
    and every attempt hands the message to the channel, also the attempts
    that are answered [false] for backpressure.  After [k] such answers
    followed by room the loop returns [true] and the message has been
    written [k + 1] times. *)
Theorem retry_publish_writes_each_attempt
    (exchange routingKey : string) (message : Message.QueueMessage)
    (options : option (gmap string Json.value)) (maxRetries : nat)
    (delayMs : Z) (w : RetryPublish.World) :
  RabbitMQ.ready "publisher" (RetryPublish.pool w) = true ->
  let written :=
    Amqp.Publish exchange routingKey (Message.serialize message)
      (RabbitMQ.messageOptions message options) in
  let r :=
    Retry.publishWithRetry
      (RetryPublish.publish_attempt exchange routingKey message options)
      maxRetries delayMs w in
  (exists b, Retry.result_of r = Retry.Return b)
  /\ Publishers.writes (RetryPublish.wire (snd (fst r)))
     = Publishers.writes (RetryPublish.wire w)
       ++ repeat written (Retry.invocations (Retry.events_of r))
  /\ (forall k rest,
         RetryPublish.rooms w = repeat false k ++ true :: rest ->
         (k < maxRetries)%nat ->
         Retry.result_of r = Retry.Return true
         /\ Publishers.writes (RetryPublish.wire (snd (fst r)))
            = Publishers.writes (RetryPublish.wire w)
              ++ repeat written (S k)).
Proof.
  intros Hr. cbv zeta. unfold Retry.publishWithRetry.
  split; [|split].
  - destruct (loop_publish_ready exchange routingKey message options
                maxRetries delayMs maxRetries 0%nat w Hr)
      as (b & w' & evs & -> & _).
    now exists b.
  - destruct (loop_publish_ready exchange routingKey message options
                maxRetries delayMs maxRetries 0%nat w Hr)
      as (b & w' & evs & -> & Hw).
    exact Hw.
  - intros k rest Hrooms Hlt.
    destruct (loop_publish_backpressure exchange routingKey message options
                maxRetries delayMs k maxRetries 0%nat w rest Hr Hrooms Hlt)
      as (w' & evs & -> & _ & Hw).
    split; [reflexivity | exact Hw].
Qed.

Lemma retry_publish_writes_each_attempt_witness :
  let w :=
    {| RetryPublish.pool := Scenario.connected_pool;
       RetryPublish.rooms := [false; false; true];
       RetryPublish.wire := [] |} in
  let r :=
    Retry.publishWithRetry
      (RetryPublish.publish_attempt "payment.events" "payment.confirmed"
         Scenario.payment_confirmed None)
      3 1000 w in
  Retry.result_of r = Retry.Return true
  /\ List.length (Publishers.writes (RetryPublish.wire (snd (fst r))))
     = 3%nat.
Proof.
  cbv zeta.
  destruct (retry_publish_writes_each_attempt "payment.events"
              "payment.confirmed" Scenario.payment_confirmed None 3 1000
              {| RetryPublish.pool := Scenario.connected_pool;
                 RetryPublish.rooms := [false; false; true];
                 RetryPublish.wire := [] |})
    as (_ & _ & H); [vm_compute; reflexivity|].
  destruct (H 2%nat [] eq_refl ltac:(lia)) as [H1 H2].
  split; [exact H1|]. rewrite H2. reflexivity.
Defined.

(** X18.  [publishWithRetry] around [publish] when no working [publisher]
    channel is to be had: nothing in the loop reconnects, so it makes all
    [maxRetries] attempts, waits [delayMs * 2^k] after each but the last,
    writes nothing, and returns [false] without an error. *)
Theorem retry_publish_without_channel
    (exchange routingKey : string) (message : Message.QueueMessage)
    (options : option (gmap string Json.value)) (maxRetries : nat)
    (delayMs : Z) (w : RetryPublish.World) :
  RabbitMQ.ready "publisher" (RetryPublish.pool w) = false ->
  exists evs,
    Retry.publishWithRetry
      (RetryPublish.publish_attempt exchange routingKey message options)
      maxRetries delayMs w
    = (Retry.Return false, w, evs)
    /\ Retry.invocations evs = maxRetries
    /\ Retry.sleeps evs
       = map (fun k => delayMs * 2 ^ Z.of_nat k) (seq 0 (maxRetries - 1)).
Proof.
  intros Hr. unfold Retry.publishWithRetry.
  apply loop_publish_not_ready; [exact Hr | lia].
Qed.

Lemma retry_publish_without_channel_witness :
  let w :=
    {| RetryPublish.pool := RabbitMQ.initial;
       RetryPublish.rooms := []; RetryPublish.wire := [] |} in
  exists evs,
    Retry.publishWithRetry
      (RetryPublish.publish_attempt "payment.events" "payment.confirmed"
         Scenario.payment_confirmed None)
      3 1000 w
    = (Retry.Return false, w, evs)
    /\ Retry.invocations evs = 3%nat
    /\ Retry.sleeps evs = [1000; 2000].
Proof.
  cbv zeta.
  exact (retry_publish_without_channel "payment.events" "payment.confirmed"
           Scenario.payment_confirmed None 3 1000
           {| RetryPublish.pool := RabbitMQ.initial;
              RetryPublish.rooms := []; RetryPublish.wire := [] |}
           eq_refl).
Defined.

(* ===================================================================== *)
(** * Further properties of rpc                                            *)
(* ===================================================================== *)

Section RpcCalls.
Import Json Amqp RabbitMQ Publishers Reach.

(** [getChannel] for one name leaves every other name as ready as it
    was. *)
Lemma ready_frame (name name' : string) (p : Pool) :
  name <> name' ->
  ready name' (pool_of (getChannel name p)) = ready name' p.
Proof.
  intros Hne.
  destruct (channels p !! name) as [ch|] eqn:Hc.
  { now rewrite (getChannel_cached _ _ _ Hc). }
  destruct (connection p) as [i|] eqn:Hn.
  2:{ now rewrite (getChannel_null _ _ Hc Hn). }
  destruct (is_open i p) eqn:Ho.
  2:{ now rewrite (getChannel_closed _ _ _ Hc Hn Ho). }
  unfold is_open in Ho.
  destruct (connections p !! i) as [c|] eqn:Hi; [|discriminate].
  rewrite (getChannel_fresh _ _ _ _ Hc Hn Hi Ho). unfold pool_of, ready.
  cbn [fst snd channels]. rewrite lookup_insert_ne by exact Hne.
  destruct (channels p !! name') as [ch'|].
  - unfold live. now apply is_open_created.
  - unfold usable. cbn [connection]. rewrite Hn.
    now apply is_open_created.
Qed.

Lemma rpc_setup_not_ready (queue : string)
      (request_ : Message.QueueMessage) (tempQueue : string) (room : bool)
      (p : Pool) :
  ready "rpc" p = false ->
  exists e, rpc_setup queue request_ tempQueue room p = (Thrown e, p, []).
Proof.
  intros Hr. unfold rpc_setup, bind.
  destruct (getChannel_not_ready _ _ Hr) as [(e & ->) | (ch & -> & Hd)].
  - now exists e.
  - unfold request. rewrite Hd. now exists IllegalOperationError.
Qed.

(** What the executor sends when the [rpc] channel works, by what
    [sendToQueue] then finds. *)
Lemma rpc_setup_ready (queue : string) (request_ : Message.QueueMessage)
      (tempQueue : string) (room : bool) (p : Pool) :
  ready "rpc" p = true ->
  exists channel p' w,
    rpc_setup queue request_ tempQueue room p = (Ok channel, p', w)
    /\ declarations w
       = [AssertQueue EmptyString temp_queue_options;
          Consume tempQueue (Some no_ack_false)]
         ++ (if ready "publisher" p
             then [SendToQueue queue (Message.serialize request_)
                     (messageOptions request_
                        (Some (reply_options (Message.id request_)
                                 tempQueue)))]
             else []).
Proof.
  intros Hr. unfold rpc_setup.
  pose proof (ready_frame "rpc" "publisher" p ltac:(discriminate)) as Hf.
  unfold bind at 1.
  destruct (getChannel_ready _ _ Hr) as (ch & p1 & w & Hg & Hl & _ & Hw & _).
  rewrite Hg in Hf |- *. unfold pool_of in Hf. cbn [fst snd] in Hf.
  unfold bind at 1. rewrite (request_live _ _ _ Hl).
  unfold bind at 1. rewrite (request_live _ _ _ Hl).
  unfold bind at 1. unfold sendToQueue.
  destruct (ready "publisher" p) eqn:Hp.
  - destruct (guarded_ready
                (SendToQueue queue (Message.serialize request_)
                   (messageOptions request_
                      (Some (reply_options (Message.id request_) tempQueue))))
                room p1 Hf) as (ch2 & p2 & w2 & -> & Hw2 & _).
    cbn [ret]. do 3 eexists. split; [reflexivity|].
    rewrite !declarations_app, (declarations_prefetch _ _ Hw),
      (declarations_prefetch _ _ Hw2).
    reflexivity.
  - rewrite (guarded_not_ready _ room p1 Hf).
    cbn [ret]. do 3 eexists. split; [reflexivity|].
    rewrite !declarations_app, (declarations_prefetch _ _ Hw).
    reflexivity.
Qed.

Lemma writes_declarations (w : list Wire) :
  writes w = List.filter is_write (declarations w).
Proof.
  unfold writes, declarations.
  induction (map snd w) as [|op l IH]; [reflexivity|].
  cbn [List.filter]. destruct op; cbn [is_write List.filter]; now rewrite ?IH.
Qed.

(** A call whose subscription was never made and whose timer was never set
    is beyond every callback. *)
Lemma run_inert (evs : list RpcEvent) (c : Call) :
  subscribed c = false -> timer c = NotSet -> run c evs = (c, []).
Proof.
  intros Hs Ht. induction evs as [|ev evs IH]; [reflexivity|].
  cbn [run]. assert (Hstep : step c ev = (c, [])).
  { destruct ev; cbn [step]; now rewrite ?Hs, ?Ht. }
  now rewrite Hstep, IH.
Qed.

End RpcCalls.

(** X19.  When no working [rpc] channel is to be had, the promise of [rpc]
    is rejected before the executor returns, with the error of
    [getChannel] or of the first request.  Nothing was sent, the pool is
    unchanged, no subscription was made and no timer set: no later delivery
    or deadline does anything to the call. *)
Theorem rpc_without_channel (queue : string)
    (request_ : Message.QueueMessage) (timeoutMs : Z) (tempQueue : string)
    (room : bool) (p : RabbitMQ.Pool) :
  RabbitMQ.ready "rpc" p = false ->
  let r := RabbitMQ.rpc queue request_ timeoutMs tempQueue room p in
  let c := fst (fst r) in
  snd (fst r) = p
  /\ snd r = []
  /\ (exists e, RabbitMQ.promise c = Some (RabbitMQ.Reject e))
  /\ RabbitMQ.timer c = RabbitMQ.NotSet
  /\ RabbitMQ.subscribed c = false
  /\ (forall evs, RabbitMQ.run c evs = (c, [])).
Proof.
  intros Hr. cbv zeta. unfold RabbitMQ.rpc.
  destruct (rpc_setup_not_ready queue request_ tempQueue room p Hr)
    as (e & ->).
  cbn [fst snd RabbitMQ.promise RabbitMQ.timer RabbitMQ.subscribed existsb].
  repeat split; [now exists e|].
  intros evs. now apply run_inert.
Qed.

Lemma rpc_without_channel_witness :
  let r :=
    RabbitMQ.rpc "payment.processing" Scenario.payment_confirmed 50
      "amq.gen-1" true RabbitMQ.initial in
  RabbitMQ.promise (fst (fst r))
  = Some (RabbitMQ.Reject (Amqp.JsError "RabbitMQ not connected"))
  /\ RabbitMQ.run (fst (fst r))
       [RabbitMQ.Delivered (Some Scenario.reply); RabbitMQ.Deadline]
     = (fst (fst r), []).
Proof.
  cbv zeta. split; [reflexivity|].
  exact (proj2 (proj2 (proj2 (proj2 (proj2
           (rpc_without_channel "payment.processing"
              Scenario.payment_confirmed 50 "amq.gen-1" true
              RabbitMQ.initial eq_refl))))) _).
Defined.

(** X20.  With a working [rpc] channel, the executor of [rpc] first
    declares the exclusive reply queue, then subscribes to the queue the
    broker named, with [noAck: false], and only then sends the request,
    whose options carry [correlationId = request.id] and
    [replyTo = tempQueue].  It does not look at what [sendToQueue]
    returns: when no working [publisher] channel is to be had the request
    is not written at all, and the call is pending all the same, with its
    timer armed. *)
Theorem rpc_setup_order (queue : string) (request_ : Message.QueueMessage)
    (timeoutMs : Z) (tempQueue : string) (room : bool) (p : RabbitMQ.Pool) :
  RabbitMQ.ready "rpc" p = true ->
  let r := RabbitMQ.rpc queue request_ timeoutMs tempQueue room p in
  let options :=
    RabbitMQ.messageOptions request_
      (Some (RabbitMQ.reply_options (Message.id request_) tempQueue)) in
  RabbitMQ.promise (fst (fst r)) = None
  /\ RabbitMQ.timer (fst (fst r)) = RabbitMQ.Armed timeoutMs
  /\ RabbitMQ.declarations (snd r)
     = [Amqp.AssertQueue EmptyString RabbitMQ.temp_queue_options;
        Amqp.Consume tempQueue (Some RabbitMQ.no_ack_false)]
       ++ (if RabbitMQ.ready "publisher" p
           then [Amqp.SendToQueue queue (Message.serialize request_) options]
           else [])
  /\ (RabbitMQ.ready "publisher" p = false ->
      Publishers.writes (snd r) = [])
  /\ options !! "correlationId" = Some (Json.Str (Message.id request_))
  /\ options !! "replyTo" = Some (Json.Str tempQueue).
Proof.
  intros Hr. cbv zeta.
  destruct (rpc_starts queue request_ timeoutMs tempQueue room p Hr)
    as (_ & Hp & Ht & _).
  split; [exact Hp|]. split; [exact Ht|].
  assert (Hd : RabbitMQ.declarations
                 (snd (RabbitMQ.rpc queue request_ timeoutMs tempQueue room p))
               = [Amqp.AssertQueue EmptyString RabbitMQ.temp_queue_options;
                  Amqp.Consume tempQueue (Some RabbitMQ.no_ack_false)]
                 ++ (if RabbitMQ.ready "publisher" p
                     then [Amqp.SendToQueue queue
                             (Message.serialize request_)
                             (RabbitMQ.messageOptions request_
                                (Some (RabbitMQ.reply_options
                                         (Message.id request_) tempQueue)))]
                     else [])).
  { unfold RabbitMQ.rpc.
    destruct (rpc_setup_ready queue request_ tempQueue room p Hr)
      as (ch & p' & w & -> & Hw).
    exact Hw. }
  split; [exact Hd|]. split; [|split].
  - intros Hnp. rewrite writes_declarations, Hd, Hnp. reflexivity.
  - apply messageOptions_override. reflexivity.
  - apply messageOptions_override. reflexivity.
Qed.

Lemma rpc_setup_order_witness :
  let r :=
    RabbitMQ.rpc "payment.processing" Scenario.payment_confirmed 50
      "amq.gen-1" true Scenario.connected_pool in
  RabbitMQ.ready "rpc" Scenario.connected_pool = true
  /\ RabbitMQ.promise (fst (fst r)) = None
  /\ List.length (RabbitMQ.declarations (snd r)) = 3%nat.
Proof.
  cbv zeta.
  assert (Hr : RabbitMQ.ready "rpc" Scenario.connected_pool = true)
    by (vm_compute; reflexivity).
  destruct (rpc_setup_order "payment.processing" Scenario.payment_confirmed
              50 "amq.gen-1" true Scenario.connected_pool Hr)
    as (H1 & _ & H3 & _).
  split; [exact Hr|]. split; [exact H1|]. rewrite H3.
  reflexivity.
Defined.

(** X21.  A reply with the call's correlation id whose body is not JSON
    rejects the pending call with the [SyntaxError] of [JSON.parse].  The
    delivery is not acknowledged, and the call is settled for good: a
    well-formed reply that comes later does not resolve it. *)
Theorem rpc_malformed_reply (c : RabbitMQ.Call) (m : Amqp.Delivery)
    (evs : list RabbitMQ.RpcEvent) :
  RabbitMQ.promise c = None ->
  RabbitMQ.subscribed c = true ->
  Amqp.correlationId m = Some (RabbitMQ.call_id c) ->
  Json.parse (Amqp.content m) = None ->
  snd (RabbitMQ.step c (RabbitMQ.Delivered (Some m))) = []
  /\ RabbitMQ.promise
       (fst (RabbitMQ.run c (RabbitMQ.Delivered (Some m) :: evs)))
     = Some (RabbitMQ.Reject Amqp.SyntaxError).
Proof.
  intros Hp Hs Hid Hparse. apply matches_spec in Hid.
  assert (Hstep : RabbitMQ.step c (RabbitMQ.Delivered (Some m))
                  = (RabbitMQ.settle (RabbitMQ.Reject Amqp.SyntaxError) c,
                     [])).
  { cbn [RabbitMQ.step]. rewrite Hs. unfold RabbitMQ.on_reply.
    now rewrite Hid, Hparse. }
  split; [now rewrite Hstep|].
  cbn [RabbitMQ.run]. rewrite Hstep.
  pose proof (run_settled evs _ _
                (settle_pending (RabbitMQ.Reject Amqp.SyntaxError) c Hp))
    as Hrun.
  destruct (RabbitMQ.run _ evs) as [c2 w2]. exact Hrun.
Qed.

Lemma rpc_malformed_reply_witness :
  let broken :=
    {| Amqp.content := "{success"; Amqp.correlationId := Some "p1";
       Amqp.deliveryTag := 3 |} in
  RabbitMQ.promise
    (fst (RabbitMQ.run Scenario.pending_call
            [RabbitMQ.Delivered (Some broken);
             RabbitMQ.Delivered (Some Scenario.reply)]))
  = Some (RabbitMQ.Reject Amqp.SyntaxError).
Proof.
  cbv zeta.
  refine (proj2 (rpc_malformed_reply Scenario.pending_call
                   {| Amqp.content := "{success";
                      Amqp.correlationId := Some "p1";
                      Amqp.deliveryTag := 3 |}
                   [RabbitMQ.Delivered (Some Scenario.reply)] _ _ _ _));
    vm_compute; reflexivity.
Defined.

(* ===================================================================== *)
(** * From publish to the consumer's handler                               *)
(* ===================================================================== *)



(* ===================================================================== *)
(** * this.connection is never reset                                       *)
(* ===================================================================== *)

Section ConnectionKept.
Import Json Amqp RabbitMQ Lifecycle Reach.

Lemma connection_step (p p' : Pool) (i : nat) :
  Step p p' -> connection p = Some i -> exists j, connection p' = Some j.
Proof.
  intros Hs Hn.
  assert (Hgrow : forall q, rtc Grows p q -> exists j, connection q = Some j).
  { intros q Hq. destruct (grows_star_frame _ _ Hq) as (Hc & _).
    exists i. congruence. }
  destruct Hs.
  - destruct dial; [|eauto].
    destruct (grows_star_frame _ _ (connect_pool p)) as (Hc & _).
    eexists. exact Hc.
  - rewrite disconnect_cases. unfold pool_of. cbn [fst snd]. rewrite Hn.
    unfold finish. destruct (is_open i p); [|eauto].
    destruct (all_live (after_close i p)); cbn [connection]; eauto.
  - apply Hgrow, stable_publish.
  - apply Hgrow, stable_sendToQueue.
  - apply Hgrow, stable_consume.
  - rewrite rpc_pool. apply Hgrow, stable_rpc_setup.
  - exists i. exact Hn.
Qed.

Lemma connection_reaches (p p' : Pool) :
  reaches p p' ->
  forall i, connection p = Some i -> exists j, connection p' = Some j.
Proof.
  induction 1 as [p|p q r Hpq _ IH]; [eauto|].
  intros i Hn. destruct (connection_step _ _ _ Hpq Hn) as [j Hj]. eauto.
Qed.

End ConnectionKept.

(** X23.  Nothing ever sets [this.connection] back to [null]: not
    [disconnect], not the ['error'] and ['close'] handlers.  Once a dial
    has succeeded, [getChannel] therefore never again throws
    [Error('RabbitMQ not connected')]; when the connection is gone it is
    [createChannel] that throws. *)
Theorem connection_never_reset (p p' : RabbitMQ.Pool) (i : nat)
    (name : string) :
  Reach.reaches p p' ->
  RabbitMQ.connection p = Some i ->
  (exists j, RabbitMQ.connection p' = Some j)
  /\ RabbitMQ.result_of (RabbitMQ.getChannel name p')
     <> RabbitMQ.Thrown (Amqp.JsError "RabbitMQ not connected").
Proof.
  intros Hr Hn. destruct (connection_reaches _ _ Hr i Hn) as [j Hj].
  split; [now exists j|].
  destruct (RabbitMQ.channels p' !! name) as [ch|] eqn:Hc.
  { rewrite (getChannel_cached _ _ _ Hc). discriminate. }
  destruct (RabbitMQ.is_open j p') eqn:Ho.
  2:{ rewrite (getChannel_closed _ _ _ Hc Hj Ho). discriminate. }
  unfold RabbitMQ.is_open in Ho.
  destruct (RabbitMQ.connections p' !! j) as [c|] eqn:Hi; [|discriminate].
  rewrite (getChannel_fresh _ _ _ _ Hc Hj Hi Ho). discriminate.
Qed.

Lemma connection_never_reset_witness :
  let p' := RabbitMQ.pool_of (Lifecycle.disconnect Scenario.connected_pool) in
  RabbitMQ.isConnected p' = false
  /\ RabbitMQ.result_of (RabbitMQ.getChannel "publisher" p')
     <> RabbitMQ.Thrown (Amqp.JsError "RabbitMQ not connected").
Proof.
  cbv zeta. split; [vm_compute; reflexivity|].
  refine (proj2 (connection_never_reset Scenario.connected_pool _ 0
                   "publisher" _ _)).
  - apply rtc_once. apply Reach.step_disconnect.
  - vm_compute. reflexivity.
Defined.
